(** * rag-ui: the retrieval core, embedded from the TypeScript sources

    The development follows the repository file by file:
    - [lib/rag/chunk.ts]            section-aware chunker, [cosineSim];
    - [scripts/build-index.ts]      the build script: its own chunker, [l2],
                                    [embedWithRetry], [main];
    - [lib/rag/indexer.ts]          [buildIndexWeb], [trimToRoughChars];
    - [lib/rag/search.ts]           [loadIndex], [formatContextForPrompt];
    - [app/api/ask/route.ts]        [getIndex];
    - [lib/rag/retrieval.ts]        [makeIdf], [kwScore], [mmr], [retrieve].

    Conventions.  A JavaScript string is the list of its UTF-16 code units
    ([list N]).  A JavaScript number that the code uses as a count, an index
    or a length is a [nat] (or a [Z] where the code guards against negative
    values); every other number (embedding coordinates, scores) is a real
    number, so the statements about norms and scores are statements about
    the exact arithmetic that the double-precision code approximates.
    Exceptions are values of [result].  Built-in functions of the platform
    that the sources call but do not define are the fields of [JsHost]. *)

From Stdlib Require Import Reals Lra Lia ZArith NArith List String Ascii Bool.
From Stdlib Require Import Sorted.
From stdpp Require Import base option list gmap.

Local Open Scope nat_scope.
Set Warnings "-register-all,-clear-no-such-hyp".

(** ** JavaScript strings *)

Abbreviation jsstr := (list N).

Fixpoint js (s : string) : jsstr :=
  match s with
  | EmptyString => []
  | String a r => N_of_ascii a :: js r
  end.

(** [WhiteSpace] and [LineTerminator] code units: what [String.prototype.trim]
    strips and what [\s] matches. *)
Definition isSpace (c : N) : bool :=
  ((9 <=? c) && (c <=? 13) || (c =? 32) || (c =? 160) || (c =? 5760)
   || (8192 <=? c) && (c <=? 8202) || (c =? 8232) || (c =? 8233)
   || (c =? 8239) || (c =? 8287) || (c =? 12288) || (c =? 65279))%N.

Fixpoint dropWhile {A} (p : A -> bool) (l : list A) : list A :=
  match l with
  | [] => []
  | x :: r => if p x then dropWhile p r else l
  end.

Definition trimStart (s : jsstr) : jsstr := dropWhile isSpace s.
Definition trimEnd (s : jsstr) : jsstr := rev (dropWhile isSpace (rev s)).
Definition trim (s : jsstr) : jsstr := trimEnd (trimStart s).

(** [if (text)] on a string: the empty string is the only falsy one. *)
Definition truthy (s : jsstr) : bool :=
  match s with [] => false | _ => true end.

(** [s.split(c)] for a one-character separator class: every separator splits,
    so the empty string splits into one empty piece and adjacent separators
    give empty pieces. *)
Fixpoint splitBy (sep : N -> bool) (s : jsstr) : list jsstr :=
  match s with
  | [] => [[]]
  | c :: r =>
      if sep c then [] :: splitBy sep r
      else match splitBy sep r with
           | [] => [[c]]
           | h :: t => (c :: h) :: t
           end
  end.

(** [s.split(/[...]+/)]: a maximal run of separators splits once. [cur] is the
    piece being read (reversed), [inSep] tells that the previous code unit was
    a separator. *)
Fixpoint splitRunsFrom (sep : N -> bool) (cur : jsstr) (inSep : bool)
    (s : jsstr) : list jsstr :=
  match s with
  | [] => [rev cur]
  | c :: r =>
      if sep c then
        if inSep then splitRunsFrom sep cur true r
        else rev cur :: splitRunsFrom sep [] true r
      else splitRunsFrom sep (c :: cur) false r
  end.

Definition splitRuns (sep : N -> bool) (s : jsstr) : list jsstr :=
  splitRunsFrom sep [] false s.

Fixpoint join (sep : jsstr) (l : list jsstr) : jsstr :=
  match l with
  | [] => []
  | x :: r => match r with [] => x | _ => x ++ sep ++ join sep r end
  end.

Definition NL : jsstr := [10%N].
Definition lines (s : jsstr) : list jsstr := splitBy (N.eqb 10) s.

(** [s.replace(/\r\n/g, "\n")] *)
Fixpoint crlfToLf (s : jsstr) : jsstr :=
  match s with
  | [] => []
  | c :: r =>
      match r with
      | d :: _ => if ((c =? 13) && (d =? 10))%N then crlfToLf r
                  else c :: crlfToLf r
      | [] => [c]
      end
  end.

(** [joined.slice(Math.max(0, joined.length - k))]: the last [k] code units. *)
Definition tailChars (k : nat) (s : jsstr) : jsstr := drop (length s - k) s.

Fixpoint startsWith (p s : jsstr) : bool :=
  match p, s with
  | [], _ => true
  | _ :: _, [] => false
  | a :: p', b :: s' => (a =? b)%N && startsWith p' s'
  end.

(** [s.includes(t)] *)
Fixpoint includes (s t : jsstr) : bool :=
  startsWith t s || match s with [] => false | _ :: r => includes r t end.

(** Template-literal rendering of a count. *)
Definition digit (d : nat) : N := (48 + N.of_nat d)%N.

Fixpoint decimalFuel (fuel n : nat) (acc : jsstr) : jsstr :=
  match fuel with
  | O => acc
  | S f =>
      let acc' := digit (n mod 10) :: acc in
      if n / 10 =? 0 then acc' else decimalFuel f (n / 10) acc'
  end.

Definition decimal (n : nat) : jsstr := decimalFuel (S n) n [].

(** ** Regular expressions (Brzozowski derivatives) *)

Inductive regex : Type :=
| RNone
| REps
| RChar (p : N -> bool)
| RCat (a b : regex)
| RAlt (a b : regex)
| RStar (a : regex).

Fixpoint nullable (r : regex) : bool :=
  match r with
  | RNone => false
  | REps => true
  | RChar _ => false
  | RCat a b => nullable a && nullable b
  | RAlt a b => nullable a || nullable b
  | RStar _ => true
  end.

Fixpoint deriv (c : N) (r : regex) : regex :=
  match r with
  | RNone => RNone
  | REps => RNone
  | RChar p => if p c then REps else RNone
  | RCat a b =>
      if nullable a then RAlt (RCat (deriv c a) b) (deriv c b)
      else RCat (deriv c a) b
  | RAlt a b => RAlt (deriv c a) (deriv c b)
  | RStar a => RCat (deriv c a) (RStar a)
  end.

(** [/^r$/.test(s)] without flags. *)
Fixpoint fullMatch (r : regex) (s : jsstr) : bool :=
  match s with
  | [] => nullable r
  | c :: s' => fullMatch (deriv c r) s'
  end.

Definition RPlus (a : regex) : regex := RCat a (RStar a).

Definition isHash (c : N) : bool := (c =? 35)%N.
Definition isDigit (c : N) : bool := ((48 <=? c) && (c <=? 57))%N.
Definition isUpper (c : N) : bool := ((65 <=? c) && (c <=? 90))%N.
(** [.] : anything but a line terminator *)
Definition isDot (c : N) : bool :=
  negb ((c =? 10) || (c =? 13) || (c =? 8232) || (c =? 8233))%N.
(** [[A-Z0-9 ]] *)
Definition isCapsBody (c : N) : bool := isUpper c || isDigit c || (c =? 32)%N.

(** [/^(#+\s+.+|(?:[A-Z][A-Z0-9 ]{3,}|.+:)$|\d+(?:\.\d+)*\s+.+)$/]; the
    build script's copy has one more [^] in front of [\d+], which changes
    nothing at the start of the input. *)
Definition HEADING_RX : regex :=
  RAlt (RCat (RPlus (RChar isHash)) (RCat (RPlus (RChar isSpace)) (RPlus (RChar isDot))))
  (RAlt (RAlt (RCat (RChar isUpper)
                 (RCat (RChar isCapsBody) (RCat (RChar isCapsBody)
                   (RCat (RChar isCapsBody) (RStar (RChar isCapsBody))))))
              (RCat (RPlus (RChar isDot)) (RChar (N.eqb 58))))
        (RCat (RPlus (RChar isDigit))
           (RCat (RStar (RCat (RChar (N.eqb 46)) (RPlus (RChar isDigit))))
              (RCat (RPlus (RChar isSpace)) (RPlus (RChar isDot)))))).

Definition isHeading (s : jsstr) : bool := fullMatch HEADING_RX s.

(** [s.replace(/^#+\s*/, empty)] *)
Definition stripHashes (s : jsstr) : jsstr :=
  match s with
  | c :: _ => if isHash c then dropWhile isSpace (dropWhile isHash s) else s
  | [] => []
  end.

(** The length of [s] once every [#], digit, dot and white space is removed
    ([s.replace(/[#\d\.\s]/g, empty).length]). *)
Definition headingSubstance (s : jsstr) : nat :=
  length (List.filter (fun c => negb (isHash c || isDigit c || (c =? 46)%N || isSpace c)) s).

(** ** Values, errors and the platform *)

(** JavaScript values as far as the builders write them to disk. *)
Inductive json : Type :=
| JUndefined
| JNum (x : R)
| JStr (s : jsstr)
| JArr (items : list json)
| JObj (fields : list (string * json)).

Definition fieldNames (j : json) : list string :=
  match j with
  | JObj fields => map fst fields
  | _ => []
  end.

(** Every [throw new Error(...)] of the modelled sources, and the failures
    of the collaborators that the sources let propagate. *)
Inductive error : Type :=
| CosineDimensionMismatch (la lb : nat)
| ApiKeyMissing
| ApiKeyIsProjectKey
| ApiKeyInvalidPrefix
| NoDocumentsFound
| NoUsableText
| VectorsChunksMismatch (nv nc : nat)
| NoIndexableFiles
| NoTextualChunks
| EmbeddingFailed (code : Z)
| ReadFailed
| JsonSyntaxError
| IndexMissingVectorsOrChunks
| IndexDimMismatch
| IndexInvalidOrEmpty
| ThrownUndefined
| TypeError.

Inductive result (A : Type) : Type :=
| Ok (a : A)
| Err (e : error).
Arguments Ok {A} a.
Arguments Err {A} e.

#[global] Instance result_ret : MRet result := fun A a => Ok a.
#[global] Instance result_bind : MBind result := fun A B k r =>
  match r with
  | Ok a => k a
  | Err e => Err e
  end.

(** Built-ins that the sources call and do not define. *)
Class JsHost : Type := {
  toLowerCase : jsstr -> jsstr;          (* String.prototype.toLowerCase *)
  sha1 : jsstr -> jsstr;                 (* crypto sha1, hex digest *)
  basename : jsstr -> jsstr;             (* path.basename *)
  dirname : jsstr -> jsstr;              (* path.dirname *)
  resolve : jsstr -> jsstr;              (* path.resolve *)
  stringify : nat -> json -> jsstr;      (* JSON.stringify(v, null, indent) *)
}.

(** The answer of the embeddings endpoint to one request: the vectors, in
    the order of the inputs, or a failure with its HTTP status ([e.status ||
    e.code]).  A service is asked with the number of requests made before, so
    that it may answer the same request differently on a retry. *)
Inductive response : Type :=
| Embeddings (data : list (list R))
| Failure (code : Z).

Definition EmbeddingService : Type := nat -> jsstr -> list jsstr -> response.

(** The [Chunk] type of chunk.ts; build-index.ts and retrieval.ts repeat it. *)
Record Chunk : Type := {
  id : jsstr;
  source_name : jsstr;
  source_path : jsstr;
  section : option jsstr;
  text : jsstr;
  order : nat;
}.

(** An index file as a reader gets it from [JSON.parse], cast to its index
    type without a check: the two arrays may be missing.  search.ts calls the
    types [RagChunk] and [RagIndexFile], route.ts [Chunk] and [IndexJson]. *)
Record RagChunk : Type := {
  rc_id : jsstr;
  rc_source_name : jsstr;
  rc_source_path : jsstr;
  rc_text : jsstr;
}.

Record IndexJson : Type := {
  ij_model : jsstr;
  ij_dim : Z;
  ij_chunks : option (list RagChunk);
  ij_vectors : option (list (list R));
}.

(** What reading and parsing a path gives: [fs.readFile] throws, [JSON.parse]
    throws, or a value ([None] is [null]). *)
Inductive fileContent : Type :=
| Unreadable
| Malformed
| Parsed (v : option IndexJson).

(** [x?.length] of an array that may be missing: a missing array and an empty
    one are both falsy. *)
Definition lengthOf {A} (o : option (list A)) : nat :=
  match o with
  | Some l => length l
  | None => 0
  end.

(** [arr.sort((a, b) => key(b) - key(a))]: the sort is stable, so an element
    goes behind every earlier element whose key is not smaller. *)
Fixpoint insertDesc {A} (key : A -> R) (x : A) (l : list A) : list A :=
  match l with
  | [] => [x]
  | y :: r => if Rlt_dec (key y) (key x) then x :: l else y :: insertDesc key x r
  end.

Definition sortDesc {A} (key : A -> R) (l : list A) : list A :=
  fold_left (fun sorted x => insertDesc key x sorted) l [].

(** ** File operations of the builders

    [fs.writeFile] fills the file piece by piece: a reader may see every
    prefix of the data.  [fs.rename] replaces the target in one step. *)
Inductive fs_op : Type :=
| Mkdir (dir : jsstr)
| WriteFile (path data : jsstr)
| Rename (src dst : jsstr).

Abbreviation disk := (gmap jsstr jsstr).

(** The states a reader can observe while [op] runs, the last one being the
    state once [op] is complete. *)
Definition opStates (op : fs_op) (d : disk) : list disk :=
  match op with
  | Mkdir _ => [d]
  | WriteFile path data => map (fun k => <[path := take k data]> d) (seq 0 (S (length data)))
  | Rename src dst =>
      match d !! src with
      | Some data => [<[dst := data]> (delete src d)]
      | None => [d]
      end
  end.

Fixpoint observable (ops : list fs_op) (d : disk) : list disk :=
  match ops with
  | [] => [d]
  | op :: rest =>
      let sts := opStates op d in
      d :: removelast sts ++ observable rest (List.last sts d)
  end.

(** ** lib/rag/chunk.ts *)

Module ChunkLib.

Record Block : Type := { headingTrail : list jsstr; block_text : jsstr }.

(** [b.headingTrail.join(" > ") || undefined] *)
Definition sectionOf (trail : list jsstr) : option jsstr :=
  let s := join (js " > ") trail in
  if truthy s then Some s else None.

Definition pushBuf (trail buf : list jsstr) (blocks : list Block) : list Block :=
  let text := trim (join NL buf) in
  if truthy text then blocks ++ [{| headingTrail := trail; block_text := text |}]
  else blocks.

Record Scan : Type := {
  blocks : list Block;
  trail : list jsstr;
  buf : list jsstr;
}.

(** [while (trail.length > 3) trail.shift()] *)
Definition keepLast3 (trail : list jsstr) : list jsstr :=
  drop (length trail - 3) trail.

Definition scanLine (st : Scan) (ln : jsstr) : Scan :=
  let trimmedEnd := trimEnd ln in
  if isHeading trimmedEnd then
    let blocks' := pushBuf (trail st) (buf st) (blocks st) in
    let h := trim (stripHashes trimmedEnd) in
    {| blocks := blocks';
       trail := if 0 <? headingSubstance h then keepLast3 (trail st ++ [h])
                else trail st;
       buf := [] |}
  else {| blocks := blocks st; trail := trail st; buf := buf st ++ [ln] |}.

Definition toBlocks (raw : jsstr) : list Block :=
  let st := fold_left scanLine (lines (crlfToLf raw))
              {| blocks := []; trail := []; buf := [] |} in
  pushBuf (trail st) (buf st) (blocks st).

(** [sourcePath.split(/[\\/]/).pop() || sourcePath] *)
Definition sourceNameOf (sourcePath : jsstr) : jsstr :=
  let lastPiece := List.last (splitBy (fun c => (c =? 92) || (c =? 47))%N sourcePath) [] in
  if truthy lastPiece then lastPiece else sourcePath.

Record Bundle : Type := {
  chunks : list Chunk;
  next_order : nat;
  acc : list jsstr;
  accLen : nat;
  currentSection : option jsstr;
}.

Section Chunker.
Context `{JsHost}.
Variables (sourcePath : jsstr) (targetChars overlapChars : nat).

Definition emit (st : Bundle) : Bundle :=
  let text := trim (join NL (acc st)) in
  if truthy text then
    let ident := sha1 (sourcePath ++ js "::" ++ decimal (next_order st) ++ js "::"
                       ++ default [] (currentSection st) ++ js "::" ++ take 64 text) in
    {| chunks := chunks st ++
         [{| id := ident; source_name := sourceNameOf sourcePath;
             source_path := sourcePath; section := currentSection st;
             text := text; order := next_order st |}];
       next_order := S (next_order st);
       acc := acc st; accLen := accLen st;
       currentSection := currentSection st |}
  else st.

Definition bundleBlock (st : Bundle) (b : Block) : Bundle :=
  let blockSection := sectionOf (headingTrail b) in
  let piece := block_text b in
  let st1 :=
    if negb (length (acc st) =? 0) && (targetChars <? accLen st + length piece + 1) then
      let st' := emit st in
      if 0 <? overlapChars then
        let tail := tailChars overlapChars (join NL (acc st')) in
        {| chunks := chunks st'; next_order := next_order st';
           acc := [tail]; accLen := length tail; currentSection := blockSection |}
      else
        {| chunks := chunks st'; next_order := next_order st';
           acc := []; accLen := 0; currentSection := blockSection |}
    else if length (acc st) =? 0 then
      {| chunks := chunks st; next_order := next_order st;
         acc := acc st; accLen := accLen st; currentSection := blockSection |}
    else st in
  {| chunks := chunks st1; next_order := next_order st1;
     acc := acc st1 ++ [piece]; accLen := accLen st1 + length piece + 1;
     currentSection := currentSection st1 |}.

Definition chunkStructured (raw : jsstr) : list Chunk :=
  let bs := toBlocks raw in
  let st := fold_left bundleBlock bs
              {| chunks := []; next_order := 0; acc := []; accLen := 0;
                 currentSection :=
                   match bs with b :: _ => sectionOf (headingTrail b) | [] => None end |} in
  chunks (if length (acc st) =? 0 then st else emit st).
End Chunker.

(** [smartChunk(raw, targetChars, overlapChars, sourcePath = "__memory__")] *)
Definition smartChunk `{JsHost} (raw : jsstr) (targetChars overlapChars : nat) : list jsstr :=
  map text (chunkStructured (js "__memory__") targetChars overlapChars raw).

Local Open Scope R_scope.

(** The accumulators [dot], [na], [nb] of the loop. *)
Definition cosineStep (st : R * R * R) (xy : R * R) : R * R * R :=
  let '(dot, na, nb) := st in
  let '(x, y) := xy in
  (dot + x * y, na + x * x, nb + y * y).

Definition cosineSim (a b : list R) : result R :=
  if negb (length a =? length b)%nat then
    Err (CosineDimensionMismatch (length a) (length b))
  else
    let '(dot, na, nb) := fold_left cosineStep (combine a b) (0, 0, 0) in
    let denom := sqrt na * sqrt nb in
    Ok (if Rlt_dec 0 denom then dot / denom else 0).

End ChunkLib.

(** ** scripts/build-index.ts *)

Module BuildScript.

Definition EMBED_MODEL : jsstr := js "text-embedding-3-large".
Definition BATCH : nat := 64.
Definition CHUNK_CHAR_TARGET : nat := 1200.
Definition CHUNK_CHAR_OVERLAP : nat := 220.
Definition MIN_CHARS_PER_CHUNK : nat := 120.

Definition apiKeyFromEnv (OPENAI_API_KEY : option jsstr) : result jsstr :=
  let apiKey := trim (default [] OPENAI_API_KEY) in
  if negb (truthy apiKey) then Err ApiKeyMissing
  else if startsWith (js "sk-proj-") apiKey then Err ApiKeyIsProjectKey
  else if negb (startsWith (js "sk-") apiKey) then Err ApiKeyInvalidPrefix
  else Ok apiKey.

Definition normalizeWs (s : jsstr) : jsstr :=
  trim (join NL (map trimEnd (lines (crlfToLf s)))).

Record Block : Type := { headingTrail : list jsstr; block_text : jsstr }.

Definition sectionOf (trail : list jsstr) : option jsstr :=
  let s := join (js " > ") trail in
  if truthy s then Some s else None.

Definition flush (trail buf : list jsstr) (blocks : list Block) : list Block :=
  let text := trim (join NL buf) in
  if truthy text then blocks ++ [{| headingTrail := trail; block_text := text |}]
  else blocks.

Record Scan : Type := {
  blocks : list Block;
  trail : list jsstr;
  buf : list jsstr;
}.

Definition scanLine (st : Scan) (ln : jsstr) : Scan :=
  let s := trimEnd ln in
  if isHeading s then
    let blocks' := flush (trail st) (buf st) (blocks st) in
    let cleaned := stripHashes s in
    {| blocks := blocks';
       trail := if 0 <? headingSubstance cleaned then
                  let pushed := trail st ++ [cleaned] in
                  if 3 <? length pushed then List.tl pushed else pushed
                else trail st;
       buf := [] |}
  else {| blocks := blocks st; trail := trail st; buf := buf st ++ [ln] |}.

Definition toBlocks (raw : jsstr) : list Block :=
  let st := fold_left scanLine (lines (normalizeWs raw))
              {| blocks := []; trail := []; buf := [] |} in
  flush (trail st) (buf st) (blocks st).

Record Bundle : Type := {
  out : list Chunk;
  next_order : nat;
  acc : list jsstr;
  accLen : nat;
  currentSection : option jsstr;
}.

(** The inner loop over the lines of an oversized block. *)
Record Sub : Type := {
  sub_out : list Chunk;
  sub_order : nat;
  cur : list jsstr;
  curLen : nat;
}.

Section Chunker.
Context `{JsHost}.
Variables (sourcePath : jsstr) (target overlap : nat).

Definition mkChunk (sec : option jsstr) (t : jsstr) (n : nat) : Chunk :=
  {| id := basename sourcePath ++ js "::" ++ decimal n;
     source_name := basename sourcePath;
     source_path := sourcePath;
     section := sec; text := t; order := n |}.

Definition emit (st : Bundle) : Bundle :=
  let t := trim (join NL (acc st)) in
  if negb (truthy t) || (length t <? MIN_CHARS_PER_CHUNK) then st
  else
    {| out := out st ++ [mkChunk (currentSection st) t (next_order st)];
       next_order := S (next_order st);
       acc := acc st; accLen := accLen st;
       currentSection := currentSection st |}.

(** The push shared by [flushCur] and by the last lines of a block. *)
Definition pushSub (blockSection : option jsstr) (st : Sub) : list Chunk * nat :=
  let t := trim (join NL (cur st)) in
  if truthy t && (MIN_CHARS_PER_CHUNK <=? length t) then
    (sub_out st ++ [mkChunk blockSection t (sub_order st)], S (sub_order st))
  else (sub_out st, sub_order st).

Definition flushCur (blockSection : option jsstr) (st : Sub) : Sub :=
  let '(o, n) := pushSub blockSection st in
  if 0 <? overlap then
    let tail := tailChars overlap (join NL (cur st)) in
    {| sub_out := o; sub_order := n; cur := [tail]; curLen := length tail |}
  else {| sub_out := o; sub_order := n; cur := []; curLen := 0 |}.

Definition subLine (blockSection : option jsstr) (st : Sub) (l : jsstr) : Sub :=
  let st1 :=
    if (target <? curLen st + length l + 1) && negb (length (cur st) =? 0)
    then flushCur blockSection st else st in
  {| sub_out := sub_out st1; sub_order := sub_order st1;
     cur := cur st1 ++ [l]; curLen := curLen st1 + length l + 1 |}.

Definition subSplit (blockSection : option jsstr) (piece : jsstr)
    (o : list Chunk) (n : nat) : list Chunk * nat :=
  let st := fold_left (subLine blockSection) (lines piece)
              {| sub_out := o; sub_order := n; cur := []; curLen := 0 |} in
  if length (cur st) =? 0 then (sub_out st, sub_order st)
  else pushSub blockSection st.

Definition bundleBlock (st : Bundle) (b : Block) : Bundle :=
  let blockSection := sectionOf (headingTrail b) in
  let piece := block_text b in
  (* piece.length > target * 1.5 *)
  if 3 * target <? 2 * length piece then
    let '(o, n) := subSplit blockSection piece (out st) (next_order st) in
    {| out := o; next_order := n; acc := acc st; accLen := accLen st;
       currentSection := currentSection st |}
  else
    let st1 :=
      if (target <? accLen st + length piece + 2) && negb (length (acc st) =? 0) then
        let st' := emit st in
        if 0 <? overlap then
          let tail := tailChars overlap (join NL (acc st')) in
          {| out := out st'; next_order := next_order st';
             acc := [tail]; accLen := length tail; currentSection := blockSection |}
        else
          {| out := out st'; next_order := next_order st';
             acc := []; accLen := 0; currentSection := blockSection |}
      else if length (acc st) =? 0 then
        {| out := out st; next_order := next_order st;
           acc := acc st; accLen := accLen st; currentSection := blockSection |}
      else st in
    {| out := out st1; next_order := next_order st1;
       acc := acc st1 ++ [piece]; accLen := accLen st1 + length piece + 2;
       currentSection := currentSection st1 |}.

Definition chunkStructured (raw : jsstr) : list Chunk :=
  let bs := toBlocks raw in
  let st := fold_left bundleBlock bs
              {| out := []; next_order := 0; acc := []; accLen := 0;
                 currentSection :=
                   match bs with b :: _ => sectionOf (headingTrail b) | [] => None end |} in
  out (if length (acc st) =? 0 then st else emit st).
End Chunker.

Local Open Scope R_scope.

(** [Math.sqrt(v.reduce((s, x) => s + x * x, 0)) || 1] *)
Definition l2norm (v : list R) : R :=
  let n := sqrt (fold_left (fun s x => s + x * x) v 0) in
  if Req_dec_T n 0 then 1 else n.

Definition l2 (v : list R) : list R := map (fun x => x / l2norm v) v.

Local Close Scope R_scope.

Definition retriable (code : Z) : bool :=
  ((code =? 429) || (500 <=? code) && (code <? 600))%Z.

(** [embedWithRetry]: [left] attempts remain, [n] requests were made so far.
    The wait of [300 * 2^i] ms before the next attempt has no counterpart
    here.  With no attempt at all the source throws [undefined]. *)
Fixpoint embedWithRetry (client : EmbeddingService) (left n : nat)
    (inputs : list jsstr) : result (list (list R)) * nat :=
  match left with
  | O => (Err ThrownUndefined, n)
  | S left' =>
      match client n EMBED_MODEL inputs with
      | Embeddings data => (Ok data, S n)
      | Failure code =>
          if negb (retriable code) || (left' =? 0) then (Err (EmbeddingFailed code), S n)
          else embedWithRetry client left' (S n) inputs
      end
  end.

(** [for (let i = 0; i < chunks.length; i += size) chunks.slice(i, i + size)] *)
Fixpoint batchesFuel {A} (fuel size : nat) (l : list A) : list (list A) :=
  match fuel with
  | O => []
  | S f =>
      match l with
      | [] => []
      | _ => take size l :: batchesFuel f size (drop size l)
      end
  end.

Definition batches {A} (size : nat) (l : list A) : list (list A) :=
  batchesFuel (length l) size l.

Fixpoint embedBatches (client : EmbeddingService) (n : nat)
    (bs : list (list Chunk)) (vectors : list (list R)) : result (list (list R)) :=
  match bs with
  | [] => Ok vectors
  | b :: rest =>
      match embedWithRetry client 4 n (map text b) with
      | (Ok data, n') => embedBatches client n' rest (vectors ++ map l2 data)
      | (Err e, _) => Err e
      end
  end.

(** [INDEX_FILE.replace(/\.json$/i, ".tmp.json")] *)
Definition endsWithJson (p : jsstr) : bool :=
  match drop (length p - 5) p with
  | [d; j; s; o; n] =>
      ((d =? 46) && ((j =? 106) || (j =? 74)) && ((s =? 115) || (s =? 83))
       && ((o =? 111) || (o =? 79)) && ((n =? 110) || (n =? 78)))%N
  | _ => false
  end.

Definition tmpPath (p : jsstr) : jsstr :=
  if endsWithJson p then take (length p - 5) p ++ js ".tmp.json" else p.

Definition chunkJson (c : Chunk) : json :=
  JObj [("id", JStr (id c)); ("source_name", JStr (source_name c));
        ("source_path", JStr (source_path c));
        ("section", match section c with Some s => JStr s | None => JUndefined end);
        ("text", JStr (text c)); ("order", JNum (INR (order c)))]%string.

Definition vectorJson (v : list R) : json := JArr (map JNum v).

Record Env : Type := {
  OPENAI_API_KEY : option jsstr;
  DOCS_DIR : jsstr;
  INDEX_FILE : jsstr;
  listFiles : jsstr -> list jsstr;
  readTextGeneric : jsstr -> jsstr;
  existsSync : jsstr -> bool;
  client : EmbeddingService;
}.

Section Main.
Context `{JsHost}.
Variable env : Env.

(** The loop over the files of [main], for files that are read:
    [readTextGeneric env f] is the text that the read of [f] gives.  A read
    that rejects ends the run of the source; it has no counterpart here. *)
Definition collectChunks (files : list jsstr) : list Chunk :=
  flat_map (fun f =>
    let txt := readTextGeneric env f in
    if negb (truthy txt) || negb (truthy (trim txt)) then []
    else List.filter (fun c => MIN_CHARS_PER_CHUNK <=? length (text c))
           (chunkStructured f CHUNK_CHAR_TARGET CHUNK_CHAR_OVERLAP txt)) files.

(** Everything [main] computes before it touches the disk. *)
Definition buildOut : result (list Chunk * list (list R)) :=
  _ ← apiKeyFromEnv (OPENAI_API_KEY env);
  let files := listFiles env (DOCS_DIR env) in
  if length files =? 0 then Err NoDocumentsFound else
  let chunks := collectChunks files in
  if length chunks =? 0 then Err NoUsableText else
  vectors ← embedBatches (client env) 0 (batches BATCH chunks) [];
  if negb (length vectors =? length chunks)
  then Err (VectorsChunksMismatch (length vectors) (length chunks))
  else Ok (chunks, vectors).

Definition outJson (chunks : list Chunk) (vectors : list (list R)) : json :=
  JObj [("model", JStr EMBED_MODEL);
        ("dim", JNum (INR (match vectors with v :: _ => length v | [] => 0 end)));
        ("chunks", JArr (map chunkJson chunks));
        ("vectors", JArr (map vectorJson vectors))]%string.

(** The file operations of a run, in order, and its outcome.  The
    operations are those of a run in which [mkdir], [writeFile] and [rename]
    succeed; when one of them rejects, the run ends in one of the states that
    [observable] lists before the last one. *)
Definition main : list fs_op * result json :=
  match buildOut with
  | Err e => ([], Err e)
  | Ok (chunks, vectors) =>
      let dir := dirname (INDEX_FILE env) in
      let o := outJson chunks vectors in
      let tmp := tmpPath (INDEX_FILE env) in
      ((if existsSync env dir then [] else [Mkdir dir])
         ++ [WriteFile tmp (stringify 2 o); Rename tmp (INDEX_FILE env)],
       Ok o)
  end.
End Main.

End BuildScript.

(** ** lib/rag/indexer.ts *)

Module Indexer.

Record IndexItem : Type := {
  id : jsstr;
  source_path : jsstr;
  source_name : jsstr;
  chunk_index : nat;
  text : option jsstr;          (* [slice[j]] *)
  embedding : list R;
}.

Record RagIndex : Type := {
  dim : nat;
  items : list IndexItem;
  created_at : jsstr;
  docs_dir : jsstr;
}.

Record Env : Type := {
  OPENAI_API_KEY : option jsstr;
  RAG_EMBED_MODEL : option jsstr;
  RAG_CHUNK_TARGET : option nat;
  RAG_CHUNK_OVERLAP : option nat;
  RAG_EMBED_BATCH : option nat;
  listFiles : jsstr -> list jsstr;
  readTextGeneric : jsstr -> jsstr;
  client : EmbeddingService;
  now : jsstr;                  (* new Date().toISOString() *)
}.

Section Build.
Context `{JsHost}.
Variable env : Env.

Definition EMBED_MODEL : jsstr := default (js "text-embedding-3-large") (RAG_EMBED_MODEL env).
Definition TARGET : nat := default 1800 (RAG_CHUNK_TARGET env).
Definition OVERLAP : nat := default 200 (RAG_CHUNK_OVERLAP env).
(** With [BATCH = 0] the source never leaves its batch loop. *)
Definition BATCH : nat := default 64 (RAG_EMBED_BATCH env).

(** The batch loop of one file: [i] is the index of the first chunk of the
    next slice, [n] the number of requests made so far. *)
Fixpoint embedSlices (f name : jsstr) (n i : nat) (slices : list (list jsstr))
    (acc : list IndexItem) : result (list IndexItem * nat) :=
  match slices with
  | [] => Ok (acc, n)
  | slice :: rest =>
      match client env n EMBED_MODEL slice with
      | Failure code => Err (EmbeddingFailed code)
      | Embeddings data =>
          let new := imap (fun j d =>
            {| id := sha1 (f ++ js "#" ++ decimal (i + j));
               source_path := f; source_name := name;
               chunk_index := i + j; text := slice !! j;
               embedding := d |}) data in
          embedSlices f name (S n) (i + BATCH) rest (acc ++ new)
      end
  end.

(** The loop over the files, for files that are read; a read that rejects
    ends the run of the source and has no counterpart here. *)
Fixpoint embedFiles (files : list jsstr) (n : nat) (acc : list IndexItem)
    : result (list IndexItem) :=
  match files with
  | [] => Ok acc
  | f :: rest =>
      let txt := trim (readTextGeneric env f) in
      if negb (truthy txt) then embedFiles rest n acc
      else
        let chunks := ChunkLib.smartChunk txt TARGET OVERLAP in
        match embedSlices f (basename f) n 0 (BuildScript.batches BATCH chunks) acc with
        | Ok (acc', n') => embedFiles rest n' acc'
        | Err e => Err e
        end
  end.

Definition itemJson (it : IndexItem) : json :=
  JObj [("id", JStr (id it)); ("source_path", JStr (source_path it));
        ("source_name", JStr (source_name it));
        ("chunk_index", JNum (INR (chunk_index it)));
        ("text", match text it with Some t => JStr t | None => JUndefined end);
        ("embedding", JArr (map JNum (embedding it)))]%string.

Definition indexJson (index : RagIndex) : json :=
  JObj [("dim", JNum (INR (dim index)));
        ("items", JArr (map itemJson (items index)));
        ("created_at", JStr (created_at index));
        ("docs_dir", JStr (docs_dir index))]%string.

Definition buildIndex (docsDir : jsstr) : result RagIndex :=
  let files := listFiles env docsDir in
  if length files =? 0 then Err NoIndexableFiles else
  if negb (truthy (default [] (OPENAI_API_KEY env))) then Err ApiKeyMissing else
  its ← embedFiles files 0 [];
  match its with
  | [] => Err NoTextualChunks
  | first :: _ =>
      Ok {| dim := length (embedding first); items := its;
            created_at := now env; docs_dir := docsDir |}
  end.

(** The file operations of [buildIndexWeb(docsDir, outFile)], in order, and
    what it returns: [files], [chunks] (and [outFile]).  The operations are
    those of a run in which [mkdir] and [writeFile] succeed. *)
Definition buildIndexWeb (docsDir outFile : jsstr) : list fs_op * result (nat * nat) :=
  match buildIndex docsDir with
  | Err e => ([], Err e)
  | Ok index =>
      ([Mkdir (dirname outFile); WriteFile outFile (stringify 0 (indexJson index))],
       Ok (length (listFiles env docsDir), length (items index)))
  end.
End Build.

Section Trim.
Context {T : Type} (getText : T -> jsstr) (withText : T -> jsstr -> T).
Local Open Scope Z_scope.

Fixpoint trimLoop (charBudget used : Z) (arr : list T) : list T :=
  match arr with
  | [] => []
  | p :: rest =>
      let len := Z.of_nat (length (getText p)) in
      if used + len <=? charBudget then p :: trimLoop charBudget (used + len) rest
      else if 200 <? charBudget - used
           then [withText p (take (Z.to_nat (charBudget - used)) (getText p))]
           else []
  end.

Definition trimToRoughChars (arr : list T) (charBudget : Z) : list T :=
  trimLoop charBudget 0 arr.
End Trim.

End Indexer.

(** ** lib/rag/search.ts *)

Module Search.

Record RagHit : Type := {
  rank : nat;
  score : R;
  source_name : jsstr;
  source_path : jsstr;
  text : jsstr;
}.

Definition MAX_CONTEXT_TOKENS : Z := 3500.
Definition TOP_K : nat := 8.

(** [Math.ceil(s.length / 4)] *)
Definition roughTokenCount (s : jsstr) : nat := (length s + 3) / 4.

(** The module variable [memoIndex], and the paths read so far. *)
Record State : Type := {
  memoIndex : option IndexJson;
  reads : list jsstr;
}.

Definition loadIndex `{JsHost} (files : jsstr -> fileContent) (indexFilePath : jsstr)
    (st : State) : result IndexJson * State :=
  match memoIndex st with
  | Some memo => (Ok memo, st)
  | None =>
      let abs := resolve indexFilePath in
      let st1 := {| memoIndex := None; reads := reads st ++ [abs] |} in
      match files abs with
      | Unreadable => (Err ReadFailed, st1)
      | Malformed => (Err JsonSyntaxError, st1)
      | Parsed None => (Err IndexMissingVectorsOrChunks, st1)
      | Parsed (Some parsed) =>
          if (lengthOf (ij_vectors parsed) =? 0) || (lengthOf (ij_chunks parsed) =? 0)
          then (Err IndexMissingVectorsOrChunks, st1)
          else if negb (Z.of_nat (length (List.hd [] (default [] (ij_vectors parsed))))
                        =? ij_dim parsed)%Z
          then (Err IndexDimMismatch, st1)
          else (Ok parsed, {| memoIndex := Some parsed; reads := reads st1 |})
      end
  end.

Section Cosine.
Local Open Scope R_scope.

(** [b[i]] beyond the end of [b] makes the sums [NaN] in the source; the
    vectors of an index and the question have one length. *)
Definition cosineStep (st : R * R * R) (i : nat) (a b : list R) : R * R * R :=
  let '(dot, na, nb) := st in
  (dot + nth i a 0 * nth i b 0, na + nth i a 0 * nth i a 0, nb + nth i b 0 * nth i b 0).

(** [Math.sqrt(na) * Math.sqrt(nb) || 1e-12] *)
Definition cosine (a b : list R) : R :=
  let '(dot, na, nb) :=
    fold_left (fun st i => cosineStep st i a b) (seq 0 (length a)) (0, 0, 0) in
  let d := sqrt na * sqrt nb in
  dot / (if Req_dec_T d 0 then 1 / 10 ^ 12 else d).
End Cosine.

(** [idx.map(({ s, i }, rank) => ...)]: [index.chunks[i]] of a vector without
    a chunk is [undefined], and reading its [source_name] throws. *)
Fixpoint hitsOf (chunks : list RagChunk) (rank : nat) (idx : list (R * nat))
    : result (list RagHit) :=
  match idx with
  | [] => Ok []
  | (s, i) :: rest =>
      match chunks !! i with
      | None => Err TypeError
      | Some rec =>
          match hitsOf chunks (S rank) rest with
          | Err e => Err e
          | Ok hits =>
              Ok ({| rank := rank + 1; score := s; source_name := rc_source_name rec;
                     source_path := rc_source_path rec; text := rc_text rec |} :: hits)
          end
      end
  end.

(** [search(index, qVec, topK = TOP_K)]; a missing [vectors] array throws at
    [index.vectors.map]. *)
Definition search (index : IndexJson) (qVec : list R) (topK : nat) : result (list RagHit) :=
  match ij_vectors index with
  | None => Err TypeError
  | Some vectors =>
      let scores := map (fun v => cosine v qVec) vectors in
      let idx := take topK (sortDesc fst (imap (fun i s => (s, i)) scores)) in
      hitsOf (default [] (ij_chunks index)) 0 idx
  end.

Definition withText (h : RagHit) (t : jsstr) : RagHit :=
  {| rank := rank h; score := score h; source_name := source_name h;
     source_path := source_path h; text := t |}.

Section Format.
Local Open Scope Z_scope.

Fixpoint pickHits (budgetTokens used : Z) (hits : list RagHit) : list RagHit :=
  match hits with
  | [] => []
  | h :: rest =>
      let t := Z.of_nat (roughTokenCount (text h)) in
      if used + t <=? budgetTokens then h :: pickHits budgetTokens (used + t) rest
      else
        let allowed := Z.max 0 (budgetTokens - used) * 4 in
        if 200 <? allowed then [withText h (take (Z.to_nat allowed) (text h))]
        else []
  end.
End Format.

(** The separator between blocks: two line feeds, three dashes, two line feeds. *)
Definition SEPARATOR : jsstr := [10; 10; 45; 45; 45; 10; 10]%N.

Definition block (p : RagHit) : jsstr :=
  js "[" ++ source_name p ++ js "]" ++ NL ++ text p.

Definition formatContextForPrompt (hits : list RagHit) (budgetTokens : Z)
    : jsstr * list RagHit :=
  let picked := pickHits budgetTokens 0 hits in
  (join SEPARATOR (map block picked), picked).

End Search.

(** ** app/api/ask/route.ts *)

Module Route.

(** [getIndex]: the module variable [cache] before the call, the result and
    [cache] after it.  The assignment to [cache] precedes the check. *)
Definition getIndex (files : jsstr -> fileContent) (INDEX_FILE : jsstr)
    (cache : option IndexJson) : result IndexJson * option IndexJson :=
  match cache with
  | Some c => (Ok c, cache)
  | None =>
      match files INDEX_FILE with
      | Unreadable => (Err ReadFailed, None)
      | Malformed => (Err JsonSyntaxError, None)
      | Parsed None => (Err IndexInvalidOrEmpty, None)
      | Parsed (Some parsed) =>
          if (lengthOf (ij_chunks parsed) =? 0) || (lengthOf (ij_vectors parsed) =? 0)
          then (Err IndexInvalidOrEmpty, Some parsed)
          else (Ok parsed, Some parsed)
      end
  end.

End Route.

(** ** lib/rag/retrieval.ts *)

Module Retrieval.

Record VectorIndex : Type := {
  model : jsstr;
  dim : nat;
  chunks : list Chunk;
  vectors : list (list R);
}.

(** [{ idx, score }] *)
Record Scored : Type := { idx : nat; score : R }.

(** What [retrieve] returns for a chunk: [{ rank, score, ...index.chunks[i] }]. *)
Record ScoredChunk : Type := {
  rank : nat;
  hit_score : R;
  hit_chunk : option Chunk;
}.

(** The complement of [[a-z0-9\u00C0-\u024F]]. *)
Definition isTokenSep (c : N) : bool :=
  negb ((97 <=? c) && (c <=? 122) || (48 <=? c) && (c <=? 57)
        || (192 <=? c) && (c <=? 591))%N.

(** A JavaScript [Set] of numbers, in insertion order. *)
Definition setAdd (x : nat) (s : list nat) : list nat :=
  if existsb (Nat.eqb x) s then s else s ++ [x].

Definition setOf (l : list nat) : list nat := fold_left (fun s x => setAdd x s) l [].

Definition setDelete (x : nat) (s : list nat) : list nat :=
  List.filter (fun y => negb (y =? x)) s.

Section WithHost.
Context `{JsHost}.
Local Open Scope R_scope.

(** [d.toLowerCase().split(/[^a-z0-9\u00C0-\u024F]+/)] *)
Definition pieces (d : jsstr) : list jsstr := splitRuns isTokenSep (toLowerCase d).

(** One document of [makeIdf]'s outer loop; [seen] is the set of the
    document's tokens met so far. *)
Definition countToken (st : gset jsstr * gmap jsstr nat) (t : jsstr)
    : gset jsstr * gmap jsstr nat :=
  let '(seen, df) := st in
  if negb (truthy t) || bool_decide (t ∈ seen) then (seen, df)
  else ({[t]} ∪ seen, <[t := (default 0 (df !! t) + 1)%nat]> df).

Definition countDoc (df : gmap jsstr nat) (d : jsstr) : gmap jsstr nat :=
  snd (fold_left countToken (pieces d) (∅, df)).

Definition idfOf (N v : nat) : R := ln (INR (N + 1) / INR (v + 1)) + 1.

Definition makeIdf (docs : list jsstr) : gmap jsstr R :=
  let N := length docs in
  let df := fold_left countDoc docs ∅ in
  idfOf N <$> df.

(** [idf.get(t) || 0.5] *)
Definition weightOf (idf : gmap jsstr R) (t : jsstr) : R :=
  match idf !! t with
  | Some v => if Req_dec_T v 0 then 5 / 10 else v
  | None => 5 / 10
  end.

Definition kwScore (q text : jsstr) (idf : gmap jsstr R) : R :=
  let qt := List.filter truthy (pieces q) in
  let tt := toLowerCase text in
  fold_left (fun s t => if includes tt t then s + weightOf idf t else s) qt 0.

(** [b[i]] beyond the end of [b] is [undefined] and makes the sum [NaN] in
    the source; vectors of one index and its queries have one length. *)
Definition dot (a b : list R) : R :=
  fold_left (fun s i => s + nth i a 0 * nth i b 0) (seq 0 (length a)) 0.

(** [items.find((it) => it.idx === i)!.score] *)
Definition scoreOf (items : list Scored) (i : nat) : R :=
  match List.find (fun it => idx it =? i)%nat items with
  | Some it => score it
  | None => 0
  end.

Definition mmrScore (items : list Scored) (vectors : list (list R)) (lambda : R)
    (selected : list nat) (i : nat) : R :=
  let div := fold_left (fun div j => Rmax div (dot (nth i vectors []) (nth j vectors [])))
               selected 0 in
  lambda * scoreOf items i - (1 - lambda) * div.

(** The inner [for] of [mmr]: [None] stands for [best = -Infinity],
    [bestIdx = -1]. *)
Definition pickBest (items : list Scored) (vectors : list (list R)) (lambda : R)
    (selected candidates : list nat) : option (R * nat) :=
  fold_left (fun best i =>
    let m := mmrScore items vectors lambda selected i in
    match best with
    | None => Some (m, i)
    | Some (b, _) => if Rlt_dec b m then Some (m, i) else best
    end) candidates None.

(** [while (selected.length < K && candidates.size)]: [todo] is
    [K - selected.length]. *)
Fixpoint mmrLoop (items : list Scored) (vectors : list (list R)) (lambda : R)
    (todo : nat) (selected candidates : list nat) : list nat :=
  match todo with
  | O => selected
  | S todo' =>
      match pickBest items vectors lambda selected candidates with
      | None => selected
      | Some (_, bestIdx) =>
          mmrLoop items vectors lambda todo' (selected ++ [bestIdx])
            (setDelete bestIdx candidates)
      end
  end.

Definition mmr (items : list Scored) (vectors : list (list R)) (K : nat) (lambda : R)
    : list nat :=
  mmrLoop items vectors lambda K [] (setOf (map idx items)).

(** Step 3 of [retrieve].  For a chunk without a vector, [index.vectors[i]]
    is [undefined] and [dot] throws in the source; an index has one vector
    for every chunk. *)
Definition fusedScore (index : VectorIndex) (qv : list R) (question : jsstr)
    (idf : gmap jsstr R) (alpha : R) (i : nat) : R :=
  let sem := dot qv (nth i (vectors index) []) in
  let kw := kwScore question (default [] (text <$> chunks index !! i)) idf in
  let kwNorm := tanh (5 / 10 * kw) in
  alpha * sem + (1 - alpha) * kwNorm.

Definition scoreAll (index : VectorIndex) (qv : list R) (question : jsstr) (alpha : R)
    : list Scored :=
  let idf := makeIdf (map text (chunks index)) in
  map (fun i => {| idx := i; score := fusedScore index qv question idf alpha i |})
      (seq 0 (length (chunks index))).

(** [index.chunks[a].source_path === index.chunks[b].source_path]; an index
    outside the array would throw, and none reaches this test. *)
Definition sameSource (cs : list Chunk) (a b : nat) : bool :=
  match cs !! a, cs !! b with
  | Some ca, Some cb => bool_decide (source_path ca = source_path cb)
  | _, _ => false
  end.

(** Step 5: the body of [for (let w = 1; w <= neighborWindow; w++)]. *)
Definition addNeighbors (cs : list Chunk) (i : nat) (s : list nat) (w : nat) : list nat :=
  let s1 := if (w <=? i)%nat && sameSource cs (i - w) i then setAdd (i - w) s else s in
  if (i + w <? length cs)%nat && sameSource cs (i + w) i then setAdd (i + w) s1 else s1.

Definition expandOne (cs : list Chunk) (neighborWindow : nat) (s : list nat) (i : nat)
    : list nat :=
  fold_left (addNeighbors cs i) (seq 1 neighborWindow) (setAdd i s).

Definition withNeighbors (cs : list Chunk) (picked : list nat) (neighborWindow : nat)
    : list nat :=
  fold_left (expandOne cs neighborWindow) picked [].

(** The re-ranking and the result objects. *)
Definition finalIdx (scored : list Scored) (neighbors : list nat) (topK : nat) : list nat :=
  map fst (take (topK + 2)
             (sortDesc snd (map (fun i => (i, scoreOf scored i)) neighbors))).

Definition toHits (index : VectorIndex) (scored : list Scored) (final : list nat)
    : list ScoredChunk :=
  map (fun i => {| rank := 0; hit_score := scoreOf scored i;
                   hit_chunk := chunks index !! i |}) final.

Definition rankFrom (index : VectorIndex) (qv : list R) (question : jsstr)
    (topK neighborWindow : nat) (alpha : R) : list ScoredChunk :=
  let scored := sortDesc score (scoreAll index qv question alpha) in
  let picked := mmr (take 40 scored) (vectors index) topK (6 / 10) in
  let neighbors := withNeighbors (chunks index) picked neighborWindow in
  toHits index scored (finalIdx scored neighbors topK).

(** [retrieve(client, index, question, topK = 8, neighborWindow = 1,
    alpha = 0.7)]; the request is the first of the call. *)
Definition retrieve (client : EmbeddingService) (index : VectorIndex) (question : jsstr)
    (topK neighborWindow : nat) (alpha : R) : result (list ScoredChunk) :=
  match client 0%nat (model index) [question] with
  | Failure code => Err (EmbeddingFailed code)
  | Embeddings [] => Err TypeError
  | Embeddings (qv :: _) => Ok (rankFrom index qv question topK neighborWindow alpha)
  end.

Definition DEFAULT_TOP_K : nat := 8.
Definition DEFAULT_NEIGHBOR_WINDOW : nat := 1.
Definition DEFAULT_ALPHA : R := 7 / 10.
End WithHost.

End Retrieval.

(** ** lib/rag/prompt.ts *)

Module Prompt.

Record Passage : Type := {
  source_name : jsstr;
  section : option jsstr;
  text : jsstr;
}.

(** The label of a passage; a missing or empty [section] adds nothing. *)
Definition head (p : Passage) : jsstr :=
  js "[" ++ source_name p
    ++ match section p with
       | Some s => if truthy s then js " > " ++ s else []
       | None => []
       end
    ++ js "]".

Definition block (p : Passage) : jsstr := head p ++ NL ++ trim (text p).

(** The loop of [buildContext]: [used] counts every kept block and 4 more
    for its separator; the first block that does not fit ends the loop. *)
Fixpoint keepBlocks (maxChars used : Z) (passages : list Passage) : list jsstr :=
  match passages with
  | [] => []
  | p :: rest =>
      let b := block p in
      if (maxChars <? used + Z.of_nat (length b) + 4)%Z then []
      else b :: keepBlocks maxChars (used + Z.of_nat (length b) + 4)%Z rest
  end.

Definition DEFAULT_MAX_CHARS : Z := 6000.

Definition buildContext (passages : list Passage) (maxChars : Z) : jsstr :=
  join Search.SEPARATOR (keepBlocks maxChars 0 passages).

End Prompt.

(** ** lib/rag/indexer.ts: the query side *)

Module IndexerAsk.


Record Hit : Type := {
  rank : nat;
  score : R;
  hit_source_name : jsstr;
  hit_source_path : jsstr;
  hit_text : jsstr;
}.



Definition withText (h : Hit) (t : jsstr) : Hit :=
  {| rank := rank h; score := score h; hit_source_name := hit_source_name h;
     hit_source_path := hit_source_path h; hit_text := t |}.

Definition formatContext (passages : list Hit) : jsstr :=
  join Search.SEPARATOR
    (map (fun p => js "[" ++ hit_source_name p ++ js "]" ++ NL ++ hit_text p) passages).

(** Step 3: [formatContext(trimToRoughChars(hits, MAX_TOKENS * 4))]. *)
Definition askContext (hits : list Hit) (MAX_TOKENS : Z) : jsstr :=
  formatContext (Indexer.trimToRoughChars hit_text withText hits (MAX_TOKENS * 4)%Z).

End IndexerAsk.

(** ** app/api/ask/route.ts: the request handler *)

Module AskRoute.

Definition EMBED_MODEL : jsstr := js "text-embedding-3-large".
Definition TOP_K : nat := 12.

Section Numbers.
Local Open Scope R_scope.

(** As in retrieval.ts: [b[i]] beyond the end of [b] makes the sum [NaN] in
    the source; the question and the vectors of an index have one length. *)
Definition dot (a b : list R) : R :=
  fold_left (fun s i => s + nth i a 0 * nth i b 0) (seq 0 (length a)) 0.

(** [Math.sqrt(dot(a, a)) || 1] *)
Definition norm (a : list R) : R :=
  let n := sqrt (dot a a) in
  if Req_dec_T n 0 then 1 else n.

Definition normalize (a : list R) : list R := map (fun x => x / norm a) a.
End Numbers.

(** [s.replace(/\s+/g, " ")]: [inSpace] tells that the previous code unit was
    white space, for which the one space is already written. *)
Fixpoint collapseFrom (inSpace : bool) (s : jsstr) : jsstr :=
  match s with
  | [] => []
  | c :: r =>
      if isSpace c then
        if inSpace then collapseFrom true r else 32%N :: collapseFrom true r
      else c :: collapseFrom false r
  end.

Definition collapse (s : jsstr) : jsstr := collapseFrom false s.

(** [t.slice(0, k)]: a negative [k] counts from the end. *)
Definition sliceTo (k : Z) (t : jsstr) : jsstr :=
  if (0 <=? k)%Z then take (Z.to_nat k) t
  else take (length t - Z.to_nat (- k)) t.

Definition ELLIPSIS : N := 8230.

Definition preview (s : jsstr) (n : nat) : jsstr :=
  let t := trim (collapse s) in
  if n <? length t then sliceTo (Z.of_nat n - 1) t ++ [ELLIPSIS] else t.

Record Passage : Type := {
  source_name : jsstr;
  source_path : jsstr;
  text : jsstr;
  score : R;
}.

Record Hit : Type := {
  hit_source_name : jsstr;
  hit_score : R;
  hit_preview : jsstr;
}.

(** Step 2: the [TOP_K] best vectors by dot product with the question. *)
Definition scored (vectors : list (list R)) (q : list R) : list (nat * R) :=
  take (Nat.min TOP_K (length vectors))
    (sortDesc snd (imap (fun i v => (i, dot q v)) vectors)).

(** [index.chunks[i]] of a vector without a chunk is [undefined], and reading
    its [source_name] throws. *)
Fixpoint passagesOf (chunks : list RagChunk) (sc : list (nat * R)) : result (list Passage) :=
  match sc with
  | [] => Ok []
  | (i, s) :: rest =>
      match chunks !! i with
      | None => Err TypeError
      | Some c =>
          match passagesOf chunks rest with
          | Err e => Err e
          | Ok ps =>
              Ok ({| source_name := rc_source_name c; source_path := rc_source_path c;
                     text := rc_text c; score := s |} :: ps)
          end
      end
  end.

(** The blocks of the context: [[[k]] source_name], a line feed, the text. *)
Definition contextOf (passages : list Passage) : jsstr :=
  join Search.SEPARATOR
    (imap (fun k p => js "[[" ++ decimal (k + 1) ++ js "]] " ++ source_name p
                        ++ NL ++ text p) passages).

Definition FALLBACK_ANSWER : jsstr :=
  js "Ik kan het niet beantwoorden op basis van de huidige context.".

Definition userMessage (question ctx : jsstr) : jsstr :=
  js "VRAAG:" ++ NL ++ question ++ NL ++ NL ++ js "CONTEXT:" ++ NL
    ++ (if truthy ctx then ctx else js "(leeg)") ++ NL.

(** What the handler answers: 400 [bad_request], 500 [auth], 500 from the
    [catch], or the payload. *)
Inductive reply : Type :=
| BadRequest
| AuthError
| ServerError (e : error)
| Answered (answer : jsstr) (hits : list Hit).

Record Env : Type := {
  INDEX_FILE : jsstr;
  OPENAI_API_KEY : option jsstr;
  files : jsstr -> fileContent;
  client : EmbeddingService;
  (** the chat completion: the system and the user message give the content
      of the first choice, if there is one, or an error *)
  chat : jsstr -> jsstr -> result (option jsstr);
  SYSTEM : jsstr;
}.

(** Everything inside the [try] once the question and the key are accepted.
    The log line reads [index.chunks.length] before the embedding is asked
    for, and [index.vectors.map] comes after it: a cached index without one
    of the arrays throws there. *)
Definition answer (env : Env) (question : jsstr) (cache : option IndexJson)
    : result (jsstr * list Hit) * option IndexJson :=
  match Route.getIndex (files env) (INDEX_FILE env) cache with
  | (Err e, cache') => (Err e, cache')
  | (Ok index, cache') =>
      (match ij_chunks index with
       | None => Err TypeError
       | Some chunks =>
           match client env 0 EMBED_MODEL [question] with
           | Failure code => Err (EmbeddingFailed code)
           | Embeddings [] => Err TypeError
           | Embeddings (e :: _) =>
               match ij_vectors index with
               | None => Err TypeError
               | Some vectors =>
                   let q := normalize e in
                   passages ← passagesOf chunks (scored vectors q);
                   content ← chat env (SYSTEM env)
                               (userMessage question (contextOf passages));
                   let a := trim (default [] content) in
                   Ok (if truthy a then a else FALLBACK_ANSWER,
                       map (fun p => {| hit_source_name := source_name p;
                                        hit_score := score p;
                                        hit_preview := preview (text p) 280 |}) passages)
               end
           end
       end, cache')
  end.

(** [POST]: [question] is the [question] field of the parsed body, if the
    body has one; [cache] is the module variable of [getIndex]. *)
Definition POST (env : Env) (question : option jsstr) (cache : option IndexJson)
    : reply * option IndexJson :=
  let q := trim (default [] question) in
  if negb (truthy q) then (BadRequest, cache)
  else
    let apiKey := trim (default [] (OPENAI_API_KEY env)) in
    if negb (truthy apiKey) || startsWith (js "sk-proj-") apiKey then (AuthError, cache)
    else
      match answer env q cache with
      | (Ok (a, hits), cache') => (Answered a hits, cache')
      | (Err e, cache') => (ServerError e, cache')
      end.

End AskRoute.

(** ** A host for the examples

    Lower-casing of ASCII letters (what [toLowerCase] does on ASCII text),
    POSIX paths, a digest that returns its input and a printer that lists
    the keys of an object: stand-ins on which no example depends but through
    the code units they return. *)

Definition asciiLower (s : jsstr) : jsstr :=
  map (fun c => if isUpper c then (c + 32)%N else c) s.

Definition posixBasename (p : jsstr) : jsstr := List.last (splitBy (N.eqb 47) p) [].
Definition posixDirname (p : jsstr) : jsstr :=
  join (js "/") (removelast (splitBy (N.eqb 47) p)).
Definition keysOnly (indent : nat) (j : json) : jsstr :=
  join (js ",") (map js (fieldNames j)).

Definition exampleHost : JsHost :=
  {| toLowerCase := asciiLower; sha1 := fun s => s; basename := posixBasename;
     dirname := posixDirname; resolve := fun p => p; stringify := keysOnly |}.

(** ** Data of the examples *)

(** A paragraph of 131 code units that is no heading. *)
Definition paragraph : jsstr := trim (concat (replicate 11 (js "lorem ipsum "))).

(** A service that answers every input with the vector [e]. *)
Definition constantService (e : list R) : EmbeddingService :=
  fun _ _ inputs => Embeddings (map (fun _ => e) inputs).

Definition scriptEnv (e : list R) : BuildScript.Env :=
  {| BuildScript.OPENAI_API_KEY := Some (js "sk-test");
     BuildScript.DOCS_DIR := js "/docs";
     BuildScript.INDEX_FILE := js "/out/index.json";
     BuildScript.listFiles := fun _ => [js "/docs/a.md"];
     BuildScript.readTextGeneric := fun _ => paragraph;
     BuildScript.existsSync := fun _ => false;
     BuildScript.client := constantService e |}.

Definition webEnv (e : list R) : Indexer.Env :=
  {| Indexer.OPENAI_API_KEY := Some (js "sk-test");
     Indexer.RAG_EMBED_MODEL := None;
     Indexer.RAG_CHUNK_TARGET := None;
     Indexer.RAG_CHUNK_OVERLAP := None;
     Indexer.RAG_EMBED_BATCH := None;
     Indexer.listFiles := fun _ => [js "/docs/a.md"];
     Indexer.readTextGeneric := fun _ => js "hello";
     Indexer.client := constantService e;
     Indexer.now := js "2025-01-01T00:00:00.000Z" |}.

Definition helloChunk : RagChunk :=
  {| rc_id := js "a.md::0"; rc_source_name := js "a.md";
     rc_source_path := js "/docs/a.md"; rc_text := js "hello" |}.

(** One chunk and two vectors of the announced length. *)
Definition lopsidedIndex : IndexJson :=
  {| ij_model := js "text-embedding-3-large"; ij_dim := 2;
     ij_chunks := Some [helloChunk];
     ij_vectors := Some [[3; 4]; [4; 3]]%R |}.

(** One chunk and one vector of length 2 under [dim = 5]. *)
Definition wrongDimIndex : IndexJson :=
  {| ij_model := js "text-embedding-3-large"; ij_dim := 5;
     ij_chunks := Some [helloChunk];
     ij_vectors := Some [[3; 4]]%R |}.

Definition soundIndex : IndexJson :=
  {| ij_model := js "text-embedding-3-large"; ij_dim := 2;
     ij_chunks := Some [helloChunk];
     ij_vectors := Some [[3; 4]]%R |}.

(** A disk whose every path holds the JSON text of [v]. *)
Definition diskOf (v : IndexJson) : jsstr -> fileContent := fun _ => Parsed (Some v).

Definition hit (k : nat) (name : string) (t : jsstr) : Search.RagHit :=
  {| Search.rank := k; Search.score := 0%R; Search.source_name := js name;
     Search.source_path := js name; Search.text := t |}.

Definition docChunk (path : string) (k : nat) : Chunk :=
  {| id := js path ++ js "::" ++ decimal k; source_name := js path;
     source_path := js path; section := None; text := js "text"; order := k |}.

(** Five chunks of one document, then one chunk of another. *)
Definition twoDocs : list Chunk :=
  map (docChunk "/docs/a.md") (seq 0 5) ++ [docChunk "/docs/b.md" 0].

Definition oneChunkIndex : Retrieval.VectorIndex :=
  {| Retrieval.model := js "text-embedding-3-large"; Retrieval.dim := 2;
     Retrieval.chunks := [docChunk "/docs/a.md" 0];
     Retrieval.vectors := [[1; 0]]%R |}.

(** One chunk whose text is ["cat"]. *)
Definition catIndex : Retrieval.VectorIndex :=
  {| Retrieval.model := js "text-embedding-3-large"; Retrieval.dim := 1;
     Retrieval.chunks :=
       [{| id := js "a.md::0"; source_name := js "a.md"; source_path := js "/docs/a.md";
           section := None; text := js "cat"; order := 0 |}];
     Retrieval.vectors := [[1]]%R |}.

Definition freshState : Search.State := {| Search.memoIndex := None; Search.reads := [] |}.

(** A service whose first [fails] requests fail with [code] and whose later
    requests are answered with the vector [e] for every input. *)
Definition flakyService (fails : nat) (code : Z) (e : list R) : EmbeddingService :=
  fun n _ inputs => if n <? fails then Failure code else Embeddings (map (fun _ => e) inputs).

(** The build of the examples with another index file. *)
Definition scriptEnvTo (indexFile : jsstr) (e : list R) : BuildScript.Env :=
  {| BuildScript.OPENAI_API_KEY := Some (js "sk-test");
     BuildScript.DOCS_DIR := js "/docs";
     BuildScript.INDEX_FILE := indexFile;
     BuildScript.listFiles := fun _ => [js "/docs/a.md"];
     BuildScript.readTextGeneric := fun _ => paragraph;
     BuildScript.existsSync := fun _ => false;
     BuildScript.client := constantService e |}.

(** A request handler over the index [v]: every question is embedded as [e]
    and every chat answers [reply]. *)
Definition askEnv (v : IndexJson) (e : list R) (reply : jsstr) : AskRoute.Env :=
  {| AskRoute.INDEX_FILE := js "/out/index.json";
     AskRoute.OPENAI_API_KEY := Some (js "sk-test");
     AskRoute.files := diskOf v;
     AskRoute.client := constantService e;
     AskRoute.chat := fun _ _ => Ok (Some reply);
     AskRoute.SYSTEM := js "Je bent een assistent." |}.

(** An index file with a chunk and an empty array of vectors. *)
Definition vectorlessIndex : IndexJson :=
  {| ij_model := js "text-embedding-3-large"; ij_dim := 2;
     ij_chunks := Some [helloChunk];
     ij_vectors := Some [] |}.

Definition textChunk (path : string) (k : nat) (t : string) : Chunk :=
  {| id := js path ++ js "::" ++ decimal k; source_name := js path;
     source_path := js path; section := None; text := js t; order := k |}.

(** Four chunks, three of one document and one of another, with unit
    vectors of two coordinates. *)
Definition petsIndex : Retrieval.VectorIndex :=
  {| Retrieval.model := js "text-embedding-3-large"; Retrieval.dim := 2;
     Retrieval.chunks :=
       [textChunk "/docs/a.md" 0 "The cat sat on the mat";
        textChunk "/docs/a.md" 1 "A dog barked at the cat";
        textChunk "/docs/a.md" 2 "Birds sing at dawn";
        textChunk "/docs/b.md" 0 "Cats and dogs"];
     Retrieval.vectors := [[1; 0]; [0; 1]; [3 / 5; 4 / 5]; [4 / 5; 3 / 5]]%R |}.

(** Two chunks of one document whose [order] fields are 0 and 5. *)
Definition gapDocs : list Chunk := [docChunk "/docs/a.md" 0; docChunk "/docs/a.md" 5].

(** Three chunks with a vector each: the first vector is at a right angle
    to [[1; 0]], the second is [[1; 0]] and the third its opposite. *)
Definition rankedChunks : list RagChunk :=
  [helloChunk;
   {| rc_id := js "a.md::1"; rc_source_name := js "a.md";
      rc_source_path := js "/docs/a.md"; rc_text := js "world" |};
   {| rc_id := js "b.md::0"; rc_source_name := js "b.md";
      rc_source_path := js "/docs/b.md"; rc_text := js "again" |}].

Definition rankedVectors : list (list R) := [[0; 1]; [1; 0]; [-1; 0]]%R.

Definition rankedIndex : IndexJson :=
  {| ij_model := js "text-embedding-3-large"; ij_dim := 2;
     ij_chunks := Some rankedChunks; ij_vectors := Some rankedVectors |}.

(** A service that answers every input [t] with [f t]. *)
Definition perInput (f : jsstr -> list R) : EmbeddingService :=
  fun _ _ inputs => Embeddings (map f inputs).

(** The vector of a text in the examples: its length and 1. *)
Definition byLength (t : jsstr) : list R := [INR (length t); 1%R].

(** A document of [n] parts, each a heading and a paragraph that ends in
    the number of the part. *)
Definition headedDoc (n : nat) : jsstr :=
  join NL (flat_map (fun k => [js "# Part " ++ decimal k; paragraph ++ js " " ++ decimal k])
             (seq 0 n)).

(** Two long documents and sixty short ones. *)
Definition libraryFiles : list jsstr :=
  [js "/docs/a.md"; js "/docs/b.md"]
  ++ map (fun k => js "/docs/n" ++ decimal k ++ js ".md") (seq 0 60).

(** A build over [libraryFiles]: the long documents give three chunks each,
    the short ones one chunk each, 66 chunks in all; every text ends in the
    path of its file. *)
Definition libraryEnv : BuildScript.Env :=
  {| BuildScript.OPENAI_API_KEY := Some (js "sk-test");
     BuildScript.DOCS_DIR := js "/docs";
     BuildScript.INDEX_FILE := js "/out/index.json";
     BuildScript.listFiles := fun _ => libraryFiles;
     BuildScript.readTextGeneric := fun f =>
       if bool_decide (f ∈ [js "/docs/a.md"; js "/docs/b.md"])
       then headedDoc 20 ++ js " " ++ f
       else paragraph ++ js " " ++ f;
     BuildScript.existsSync := fun _ => false;
     BuildScript.client := perInput byLength |}.

(** A build of the web indexer over two documents of seven parts, with
    chunks of about 300 characters that overlap by 40 and batches of two
    chunks: six chunks and three requests for each document. *)
Definition webLibraryEnv : Indexer.Env :=
  {| Indexer.OPENAI_API_KEY := Some (js "sk-test");
     Indexer.RAG_EMBED_MODEL := None;
     Indexer.RAG_CHUNK_TARGET := Some 300;
     Indexer.RAG_CHUNK_OVERLAP := Some 40;
     Indexer.RAG_EMBED_BATCH := Some 2;
     Indexer.listFiles := fun _ => [js "/docs/a.md"; js "/docs/b.md"];
     Indexer.readTextGeneric := fun f => headedDoc 7 ++ js " " ++ f;
     Indexer.client := perInput byLength;
     Indexer.now := js "2025-01-01T00:00:00.000Z" |}.

(** ** Vocabulary of the statements *)

(** A string that [trim] leaves alone: no white space at either end. *)
Definition trimmed (s : jsstr) : Prop := trimStart s = s /\ trimEnd s = s.

(** What chunk.ts guarantees of a chunk: its text is trimmed and not empty. *)
Definition nonEmptyTrimmed (c : Chunk) : Prop :=
  trim (text c) = text c /\ text c <> [].

(** What build-index.ts guarantees: trimmed, and at least
    [MIN_CHARS_PER_CHUNK] code units long. *)
Definition aboveFloor (c : Chunk) : Prop :=
  trim (text c) = text c /\ BuildScript.MIN_CHARS_PER_CHUNK <= length (text c).

Definition sumR (l : list R) : R := fold_right Rplus 0%R l.

(** The dot product of two vectors of one length, the squared norm, the norm. *)
Definition dotProduct (a b : list R) : R :=
  sumR (map (fun xy => (fst xy * snd xy)%R) (combine a b)).
Definition sumSquares (v : list R) : R := sumR (map (fun x => (x * x)%R) v).
Definition norm (v : list R) : R := sqrt (sumSquares v).

(** [e] is one of the vectors that the service answered to some request for
    [model]. *)
Definition returnedBy (client : EmbeddingService) (model : jsstr) (e : list R) : Prop :=
  exists n inputs data, client n model inputs = Embeddings data /\ In e data.

(** What the build script stores for the embedding [e]. *)
Definition normalizedFrom (client : EmbeddingService) (v : list R) : Prop :=
  exists e, returnedBy client BuildScript.EMBED_MODEL e /\ v = BuildScript.l2 e
            /\ (norm e <> 0%R -> norm v = 1%R) /\ (norm e = 0%R -> v = e).



(** What [loadIndex] checks of a parsed index file: both arrays are there
    and not empty, and the first vector has [dim] coordinates. *)
Definition passesLoadIndex (idx : IndexJson) : Prop :=
  0 < lengthOf (ij_vectors idx) /\ 0 < lengthOf (ij_chunks idx)
  /\ Z.of_nat (length (List.hd [] (default [] (ij_vectors idx)))) = ij_dim idx.

(** What [getIndex] checks: both arrays are there and not empty. *)
Definition passesGetIndex (idx : IndexJson) : Prop :=
  0 < lengthOf (ij_chunks idx) /\ 0 < lengthOf (ij_vectors idx).

(** The sum of the sizes of passages. *)
Definition totalSize {T} (size : T -> Z) (l : list T) : Z :=
  fold_right (fun p s => (size p + s)%Z) 0%Z l.

(** [out] is [arr] cut greedily at [budget]: the first [k] passages, whose
    sizes fit the budget together, and, when a passage [p] follows that does
    not fit as well, what [cut] makes of [p] and of the budget that is left;
    nothing of what follows [p]. *)
Definition greedyCut {T} (size : T -> Z) (cut : T -> Z -> list T) (budget : Z)
    (arr out : list T) : Prop :=
  exists k,
    (k = 0 \/ (totalSize size (take k arr) <= budget)%Z)
    /\ match arr !! k with
       | None => k = length arr /\ out = arr
       | Some p =>
           (budget < totalSize size (take k arr) + size p)%Z
           /\ out = take k arr ++ cut p (budget - totalSize size (take k arr))%Z
       end.

(** The sizes that the two assemblers count, and what they make of the
    passage that does not fit: a slice of the budget that is left when more
    than 200 characters are left, and nothing otherwise. *)
Definition charSize (h : Search.RagHit) : Z := Z.of_nat (length (Search.text h)).
Definition tokenSize (h : Search.RagHit) : Z :=
  Z.of_nat (Search.roughTokenCount (Search.text h)).

Definition charCut (h : Search.RagHit) (left : Z) : list Search.RagHit :=
  if (200 <? left)%Z then [Search.withText h (take (Z.to_nat left) (Search.text h))]
  else [].

Definition tokenCut (h : Search.RagHit) (left : Z) : list Search.RagHit :=
  if (200 <? Z.max 0 left * 4)%Z
  then [Search.withText h (take (Z.to_nat (Z.max 0 left * 4)) (Search.text h))]
  else [].

(** What the label of a passage adds to its block: the name between
    brackets and a line feed. *)
Definition labelSize (h : Search.RagHit) : Z :=
  Z.of_nat (length (Search.source_name h)) + 3.

(** The length of the context of the passages [picked]: their texts, their
    labels, and a separator of seven code units between two blocks. *)
Definition contextSize (picked : list Search.RagHit) : Z :=
  totalSize charSize picked + totalSize labelSize picked
  + 7 * Z.of_nat (length picked - 1).

(** The chunks of an index lie document by document, each document's chunks
    in the order of their [order] fields: the layout that a build gives. *)
Definition ordersFollowPositions (cs : list Chunk) : Prop :=
  forall a b ca cb,
    a <= b -> cs !! a = Some ca -> cs !! b = Some cb ->
    source_path ca = source_path cb -> order cb = order ca + (b - a).

(** Chunk [j] lies beside the selected chunk [i] at distance [w]: it exists,
    it lies [w] places before or after [i] in the array of the chunks, and it
    has the source path of [i]. *)
Definition besideAt (cs : list Chunk) (i w j : nat) : Prop :=
  (j + w = i \/ j = i + w)
  /\ exists ci cj,
      cs !! i = Some ci /\ cs !! j = Some cj /\ source_path cj = source_path ci.

(** The [order] of chunk [j] is that of chunk [i] minus or plus [w]. *)
Definition orderApart (cs : list Chunk) (i w j : nat) : Prop :=
  exists ci cj,
    cs !! i = Some ci /\ cs !! j = Some cj
    /\ (order cj + w = order ci \/ order cj = order ci + w).

Section ScoreVocabulary.
Context `{JsHost}.

(** The tokens of a question, in order, each as often as it occurs. *)
Definition queryTokens (q : jsstr) : list jsstr :=
  List.filter truthy (Retrieval.pieces q).

(** [df(t)]: the number of texts that have [t] among their tokens. *)
Definition df (docs : list jsstr) (t : jsstr) : nat :=
  length (List.filter (fun d => bool_decide (t ∈ Retrieval.pieces d)) docs).

(** [idf(t) = ln((N + 1) / (df(t) + 1)) + 1], and 0.5 for a token that no
    text has. *)
Definition idfWeight (docs : list jsstr) (t : jsstr) : R :=
  if df docs t =? 0 then (5 / 10)%R
  else (ln (INR (length docs + 1) / INR (df docs t + 1)) + 1)%R.

(** The keyword score that the code computes: the weights of the tokens of
    the question, each occurrence counted, that occur somewhere in the
    lower-cased text. *)
Definition kwSum (docs : list jsstr) (q txt : jsstr) : R :=
  sumR (map (idfWeight docs)
          (List.filter (includes (toLowerCase txt)) (queryTokens q))).

(** The keyword score as the claim words it: over the distinct tokens of
    the question. *)
Definition kwSumDistinct (docs : list jsstr) (q txt : jsstr) : R :=
  sumR (map (idfWeight docs)
          (List.filter (includes (toLowerCase txt)) (remove_dups (queryTokens q)))).

Definition fusedWith (kw : R) (alpha : R) (qv v : list R) : R :=
  (alpha * Retrieval.dot qv v + (1 - alpha) * tanh (5 / 10 * kw))%R.
End ScoreVocabulary.

(** A list whose keys never grow from left to right. *)
Definition descending {A} (key : A -> R) : list A -> Prop :=
  StronglySorted (fun a b => (key b <= key a)%R).

(** The chunks of one document as a chunker numbers them: the [k]-th has
    [order] [k], and all have the source path of the document. *)
Definition numbered (sourcePath : jsstr) (cs : list Chunk) (n : nat) : Prop :=
  n = length cs
  /\ forall k c, cs !! k = Some c -> order c = k /\ source_path c = sourcePath.

(** What [buildContext] counts for the passages [ps]: the lengths of their
    blocks and 4 more for each. *)
Definition charged (ps : list Prompt.Passage) : Z :=
  fold_right (fun p s => (Z.of_nat (length (Prompt.block p)) + 4 + s)%Z) 0%Z ps.


(** The chunk of an index file under the readers' chunk type. *)
Definition asRagChunk (c : Chunk) : RagChunk :=
  {| rc_id := id c; rc_source_name := source_name c;
     rc_source_path := source_path c; rc_text := text c |}.

(** [idx] is what a reader has after parsing the text of the object [o] that
    the build script serializes: the model, the number under [dim] and the
    two arrays of [o], every chunk with the four fields of the readers' chunk
    type. *)
Definition readsAs (o : json) (idx : IndexJson) : Prop :=
  exists chunks vectors,
    o = JObj [("model", JStr (ij_model idx)); ("dim", JNum (IZR (ij_dim idx)));
              ("chunks", JArr (map BuildScript.chunkJson chunks));
              ("vectors", JArr (map BuildScript.vectorJson vectors))]%string
    /\ ij_chunks idx = Some (map asRagChunk chunks)
    /\ ij_vectors idx = Some vectors.

(** An index as a build leaves it, for a question embedded by the model of
    the index: one vector for every chunk, each of the length of the
    embedding [qv] of the question, so that no dot product of [retrieve]
    meets a missing vector or coordinate. *)
Definition regularIndex (index : Retrieval.VectorIndex) (qv : list R) : Prop :=
  length (Retrieval.vectors index) = length (Retrieval.chunks index)
  /\ Forall (fun v => length v = length qv) (Retrieval.vectors index).

(** White space only as single spaces: every white-space code unit of [t] is
    a space (32) and the code unit after it is not white space. *)
Fixpoint singleSpaced (t : jsstr) : bool :=
  match t with
  | [] => true
  | c :: r =>
      (negb (isSpace c)
       || (c =? 32)%N && match r with c' :: _ => negb (isSpace c') | [] => true end)
      && singleSpaced r
  end.

(** The item that [buildIndexWeb] stores for chunk [i] of the file [f], with
    text [c] and embedding [e]. *)
Definition webItem `{JsHost} (f : jsstr) (e : jsstr -> list R) (i : nat) (c : jsstr)
    : Indexer.IndexItem :=
  {| Indexer.id := sha1 (f ++ js "#" ++ decimal i);
     Indexer.source_path := f; Indexer.source_name := basename f;
     Indexer.chunk_index := i; Indexer.text := Some c;
     Indexer.embedding := e c |}.

(** * Properties *)

(** ** Strings *)

Example heading_markdown : isHeading (js "## Intro") = true.
Proof. reflexivity. Qed.
Example heading_caps : isHeading (js "OVERVIEW 2") = true.
Proof. reflexivity. Qed.
Example heading_colon : isHeading (js "Summary:") = true.
Proof. reflexivity. Qed.
Example heading_numbered : isHeading (js "1.2.3 Scope") = true.
Proof. reflexivity. Qed.
Example heading_plain : isHeading (js "just a sentence.") = false.
Proof. reflexivity. Qed.
Example split_empty : lines [] = [[]].
Proof. reflexivity. Qed.
Example split_runs : splitRuns isSpace (js " a  b ") = [[]; js "a"; js "b"; []].
Proof. reflexivity. Qed.
Example decimal_120 : decimal 120 = js "120".
Proof. reflexivity. Qed.

Lemma dropWhile_snoc_stop {A} (p : A -> bool) (l : list A) (x : A) :
  p x = false -> dropWhile p (l ++ [x]) = dropWhile p l ++ [x].
Proof.
  intros Hx. induction l as [|y l IH]; simpl.
  - now rewrite Hx.
  - destruct (p y); [exact IH | reflexivity].
Qed.

Lemma dropWhile_stop {A} (p : A -> bool) (x : A) (l : list A) :
  p x = false -> dropWhile p (x :: l) = x :: l.
Proof. intros Hx. simpl. now rewrite Hx. Qed.

Lemma dropWhile_head {A} (p : A -> bool) (l : list A) :
  dropWhile p l = [] \/ exists x r, dropWhile p l = x :: r /\ p x = false.
Proof.
  induction l as [|y l IH]; simpl; [now left|].
  destruct (p y) eqn:Hy; [exact IH | right; eauto].
Qed.

Lemma trimEnd_keeps_head (x : N) (r : jsstr) :
  isSpace x = false -> exists r', trimEnd (x :: r) = x :: r'.
Proof.
  intros Hx. unfold trimEnd. simpl.
  rewrite dropWhile_snoc_stop by exact Hx.
  rewrite rev_app_distr. simpl. eauto.
Qed.

Lemma trimEnd_idem (s : jsstr) : trimEnd (trimEnd s) = trimEnd s.
Proof.
  unfold trimEnd. rewrite rev_involutive.
  destruct (dropWhile_head isSpace (rev s)) as [E | (x & r & E & Hx)]; rewrite E.
  - reflexivity.
  - now rewrite dropWhile_stop.
Qed.

Lemma trim_trimmed (s : jsstr) : trimmed (trim s).
Proof.
  unfold trimmed, trim. split; [|apply trimEnd_idem].
  change (trimStart s) with (dropWhile isSpace s).
  destruct (dropWhile_head isSpace s) as [E | (x & r & E & Hx)]; rewrite E.
  - reflexivity.
  - destruct (trimEnd_keeps_head x r Hx) as [r' E']. rewrite E'.
    unfold trimStart. now apply dropWhile_stop.
Qed.

Lemma trim_idem (s : jsstr) : trim (trim s) = trim s.
Proof.
  destruct (trim_trimmed s) as [Hs He].
  unfold trim at 1. now rewrite Hs, He.
Qed.

Lemma truthy_nonempty (s : jsstr) : truthy s = true <-> s <> [].
Proof. destruct s; simpl; split; congruence. Qed.

(** ** The chunkers (C7) *)

Lemma fold_left_inv {S B} (P : S -> Prop) (f : S -> B -> S) (l : list B) (s : S) :
  (forall s b, P s -> P (f s b)) -> P s -> P (fold_left f l s).
Proof.
  intros Hf. revert s. induction l as [|b l IH]; simpl; intros s Hs; [exact Hs|].
  apply IH, Hf, Hs.
Qed.

Section ChunkerInvariants.
Context `{JsHost}.
Variables (sourcePath : jsstr) (target overlap : nat).

Lemma lib_emit_inv (st : ChunkLib.Bundle) :
  Forall nonEmptyTrimmed (ChunkLib.chunks st) ->
  Forall nonEmptyTrimmed (ChunkLib.chunks (ChunkLib.emit sourcePath st)).
Proof.
  intros Hst. unfold ChunkLib.emit.
  destruct (truthy _) eqn:Ht; [|exact Hst]. simpl.
  apply Forall_app; split; [exact Hst|].
  constructor; [|constructor]. split; simpl.
  - apply trim_idem.
  - now apply truthy_nonempty.
Qed.

Lemma lib_bundleBlock_inv (st : ChunkLib.Bundle) (b : ChunkLib.Block) :
  Forall nonEmptyTrimmed (ChunkLib.chunks st) ->
  Forall nonEmptyTrimmed
    (ChunkLib.chunks (ChunkLib.bundleBlock sourcePath target overlap st b)).
Proof.
  intros Hst. unfold ChunkLib.bundleBlock. simpl.
  destruct (_ && _); [|destruct (_ =? 0); exact Hst].
  destruct (0 <? overlap); simpl; now apply lib_emit_inv.
Qed.

Lemma lib_chunks_nonEmptyTrimmed (raw : jsstr) :
  Forall nonEmptyTrimmed (ChunkLib.chunkStructured sourcePath target overlap raw).
Proof.
  unfold ChunkLib.chunkStructured.
  set (st := fold_left _ _ _).
  assert (Hst : Forall nonEmptyTrimmed (ChunkLib.chunks st)).
  { apply (fold_left_inv (fun s => Forall nonEmptyTrimmed (ChunkLib.chunks s))).
    - intros; now apply lib_bundleBlock_inv.
    - constructor. }
  destruct (_ =? 0); [exact Hst | now apply lib_emit_inv].
Qed.

Lemma script_emit_inv (st : BuildScript.Bundle) :
  Forall aboveFloor (BuildScript.out st) ->
  Forall aboveFloor (BuildScript.out (BuildScript.emit sourcePath st)).
Proof.
  intros Hst. unfold BuildScript.emit.
  destruct (_ || _) eqn:Ht; [exact Hst|]. simpl.
  apply orb_false_iff in Ht as [_ Hlen]. apply Nat.ltb_ge in Hlen.
  apply Forall_app; split; [exact Hst|].
  constructor; [|constructor]. split; simpl; [apply trim_idem | exact Hlen].
Qed.

Lemma script_pushSub_inv (sec : option jsstr) (st : BuildScript.Sub) :
  Forall aboveFloor (BuildScript.sub_out st) ->
  Forall aboveFloor (fst (BuildScript.pushSub sourcePath sec st)).
Proof.
  intros Hst. unfold BuildScript.pushSub.
  destruct (_ && _) eqn:Ht; [|exact Hst]. simpl.
  apply andb_true_iff in Ht as [_ Hlen]. apply Nat.leb_le in Hlen.
  apply Forall_app; split; [exact Hst|].
  constructor; [|constructor]. split; simpl; [apply trim_idem | exact Hlen].
Qed.

Lemma script_flushCur_inv (sec : option jsstr) (st : BuildScript.Sub) :
  Forall aboveFloor (BuildScript.sub_out st) ->
  Forall aboveFloor (BuildScript.sub_out (BuildScript.flushCur sourcePath overlap sec st)).
Proof.
  intros Hst. unfold BuildScript.flushCur.
  pose proof (script_pushSub_inv sec st Hst) as Hp.
  destruct (BuildScript.pushSub _ _ _) as [o n]. simpl in Hp.
  destruct (0 <? overlap); exact Hp.
Qed.

Lemma script_subSplit_inv (sec : option jsstr) (piece : jsstr) (o : list Chunk) (n : nat) :
  Forall aboveFloor o ->
  Forall aboveFloor (fst (BuildScript.subSplit sourcePath target overlap sec piece o n)).
Proof.
  intros Ho. unfold BuildScript.subSplit.
  set (st := fold_left _ _ _).
  assert (Hst : Forall aboveFloor (BuildScript.sub_out st)).
  { apply (fold_left_inv (fun s => Forall aboveFloor (BuildScript.sub_out s))).
    - intros s l Hs. unfold BuildScript.subLine. simpl.
      destruct (_ && _); [now apply script_flushCur_inv | exact Hs].
    - exact Ho. }
  destruct (_ =? 0); [exact Hst | now apply script_pushSub_inv].
Qed.

Lemma script_bundleBlock_inv (st : BuildScript.Bundle) (b : BuildScript.Block) :
  Forall aboveFloor (BuildScript.out st) ->
  Forall aboveFloor
    (BuildScript.out (BuildScript.bundleBlock sourcePath target overlap st b)).
Proof.
  intros Hst. unfold BuildScript.bundleBlock.
  destruct (3 * target <? _).
  - pose proof (script_subSplit_inv (BuildScript.sectionOf (BuildScript.headingTrail b))
                  (BuildScript.block_text b) _ (BuildScript.next_order st) Hst) as Hs.
    destruct (BuildScript.subSplit _ _ _ _ _ _ _) as [o n]. exact Hs.
  - simpl. destruct (_ && _); [|destruct (_ =? 0); exact Hst].
    destruct (0 <? overlap); simpl; now apply script_emit_inv.
Qed.

Lemma script_chunks_aboveFloor (raw : jsstr) :
  Forall aboveFloor (BuildScript.chunkStructured sourcePath target overlap raw).
Proof.
  unfold BuildScript.chunkStructured.
  set (st := fold_left _ _ _).
  assert (Hst : Forall aboveFloor (BuildScript.out st)).
  { apply (fold_left_inv (fun s => Forall aboveFloor (BuildScript.out s))).
    - intros; now apply script_bundleBlock_inv.
    - constructor. }
  destruct (_ =? 0); [exact Hst | now apply script_emit_inv].
Qed.
End ChunkerInvariants.

(** C7 (as amended).  For every input text, source path, target and overlap:
    the chunker of build-index.ts returns only chunks whose text is trimmed
    and at least [MIN_CHARS_PER_CHUNK] = 120 code units long, and the chunker
    of chunk.ts returns only chunks whose text is trimmed and not empty (it
    has no minimum length). *)
Theorem chunkers_drop_fragments `{JsHost} (sourcePath raw : jsstr) (target overlap : nat) :
  Forall aboveFloor (BuildScript.chunkStructured sourcePath target overlap raw)
  /\ BuildScript.MIN_CHARS_PER_CHUNK = 120
  /\ Forall nonEmptyTrimmed (ChunkLib.chunkStructured sourcePath target overlap raw).
Proof.
  split; [apply script_chunks_aboveFloor|].
  split; [reflexivity | apply lib_chunks_nonEmptyTrimmed].
Qed.

(** C7, as the claim states it, fails for chunk.ts: the one-letter text ["a"]
    comes back as a chunk of one code unit, far below any floor that would
    discard near-empty fragments (the build script's is 120). *)
Lemma chunk_ts_keeps_short_chunk :
  map text (@ChunkLib.chunkStructured exampleHost (js "/docs/a.md") 1200 200 (js "a"))
    = [js "a"]
  /\ length (trim (js "a")) = 1
  /\ 1 < BuildScript.MIN_CHARS_PER_CHUNK.
Proof. split; [reflexivity|]. split; [reflexivity|]. unfold BuildScript.MIN_CHARS_PER_CHUNK. lia. Qed.

(** ** Sums, norms and [cosineSim] (C9) *)

Local Open Scope R_scope.

Lemma sumSquares_nonneg (v : list R) : 0 <= sumSquares v.
Proof.
  unfold sumSquares. induction v as [|x v IH]; simpl; [lra|].
  pose proof (Rle_0_sqr x) as Hx. unfold Rsqr in Hx. lra.
Qed.

Lemma norm_nonneg (v : list R) : 0 <= norm v.
Proof. apply sqrt_pos. Qed.

Lemma norm_zero_iff (v : list R) : norm v = 0 <-> sumSquares v = 0.
Proof.
  unfold norm. split; intros Hn.
  - apply sqrt_eq_0; [apply sumSquares_nonneg | exact Hn].
  - rewrite Hn. apply sqrt_0.
Qed.

Lemma cosine_fold (l : list (R * R)) (d na nb : R) :
  fold_left ChunkLib.cosineStep l (d, na, nb)
  = (d + sumR (map (fun xy => fst xy * snd xy) l),
     na + sumSquares (map fst l), nb + sumSquares (map snd l)).
Proof.
  revert d na nb. induction l as [|[x y] l IH]; intros d na nb; simpl.
  - unfold sumSquares. simpl. f_equal; [f_equal|]; lra.
  - rewrite IH. unfold sumSquares. simpl. f_equal; [f_equal|]; lra.
Qed.

Lemma combine_fst {A B} (a : list A) (b : list B) :
  length a = length b -> map fst (combine a b) = a.
Proof.
  revert b. induction a as [|x a IH]; intros [|y b] Hl; simpl in *; try congruence.
  f_equal. apply IH. congruence.
Qed.

Lemma combine_snd {A B} (a : list A) (b : list B) :
  length a = length b -> map snd (combine a b) = b.
Proof.
  revert b. induction a as [|x a IH]; intros [|y b] Hl; simpl in *; try congruence.
  f_equal. apply IH. congruence.
Qed.

Lemma cosineSim_value (a b : list R) :
  length a = length b ->
  ChunkLib.cosineSim a b
  = Ok (if Rlt_dec 0 (norm a * norm b) then dotProduct a b / (norm a * norm b) else 0).
Proof.
  intros Hl. unfold ChunkLib.cosineSim.
  rewrite (proj2 (Nat.eqb_eq _ _) Hl). simpl negb. cbv iota.
  rewrite cosine_fold, (combine_fst a b Hl), (combine_snd a b Hl).
  rewrite !Rplus_0_l. reflexivity.
Qed.



Local Close Scope R_scope.

(** ** Normalization at build time (C1) *)

Local Open Scope R_scope.

Lemma fold_left_squares (v : list R) (s : R) :
  fold_left (fun s x => s + x * x) v s = s + sumSquares v.
Proof.
  revert s. unfold sumSquares. induction v as [|x v IH]; intros s; simpl; [lra|].
  rewrite IH. lra.
Qed.

Lemma l2norm_eq (v : list R) :
  BuildScript.l2norm v = if Req_dec_T (norm v) 0 then 1 else norm v.
Proof.
  unfold BuildScript.l2norm. rewrite fold_left_squares, Rplus_0_l. reflexivity.
Qed.

Lemma sumSquares_scale (v : list R) (n : R) :
  n <> 0 -> sumSquares (map (fun x => x / n) v) = sumSquares v / (n * n).
Proof.
  intros Hn. unfold sumSquares. induction v as [|x v IH]; simpl.
  - field. exact Hn.
  - rewrite IH. field. exact Hn.
Qed.

Lemma l2_unit (e : list R) : norm e <> 0 -> norm (BuildScript.l2 e) = 1.
Proof.
  intros Hn. unfold BuildScript.l2. rewrite l2norm_eq.
  destruct (Req_dec_T (norm e) 0) as [Hz|_]; [contradiction|].
  unfold norm at 1. rewrite sumSquares_scale by exact Hn.
  unfold norm. rewrite sqrt_sqrt by apply sumSquares_nonneg.
  replace (sumSquares e / sumSquares e) with 1.
  - apply sqrt_1.
  - field. intros Hz. apply Hn. now apply norm_zero_iff.
Qed.

Lemma l2_zero (e : list R) : norm e = 0 -> BuildScript.l2 e = e.
Proof.
  intros Hn. unfold BuildScript.l2. rewrite l2norm_eq.
  destruct (Req_dec_T (norm e) 0) as [_|Hz]; [|contradiction].
  rewrite <- (map_id e) at 2. apply map_ext. intros x. field.
Qed.

Lemma embedWithRetry_returned (client : EmbeddingService) (left n n' : nat)
    (inputs : list jsstr) (data : list (list R)) :
  BuildScript.embedWithRetry client left n inputs = (Ok data, n') ->
  exists k, client k BuildScript.EMBED_MODEL inputs = Embeddings data.
Proof.
  revert n. induction left as [|left IH]; intros n; simpl; [discriminate|].
  destruct (client n _ inputs) as [d|code] eqn:Hc.
  - intros [= <- <-]. eauto.
  - destruct (_ || _); [discriminate | apply IH].
Qed.

Lemma embedBatches_normalized (client : EmbeddingService) (bs : list (list Chunk)) :
  forall (n : nat) (acc vs : list (list R)),
    Forall (normalizedFrom client) acc ->
    BuildScript.embedBatches client n bs acc = Ok vs ->
    Forall (normalizedFrom client) vs.
Proof.
  induction bs as [|b bs IH]; intros n acc vs Hacc; cbn [BuildScript.embedBatches].
  - now intros [= <-].
  - destruct (BuildScript.embedWithRetry client 4 n _) as [[data|e] n'] eqn:Hr;
      [|discriminate].
    apply IH. apply Forall_app; split; [exact Hacc|].
    apply embedWithRetry_returned in Hr as [k Hk].
    apply List.Forall_forall. intros v Hv. apply in_map_iff in Hv as (e & <- & He).
    exists e. split; [exists k; eauto|]. split; [reflexivity|].
    split; [apply l2_unit | apply l2_zero].
Qed.

Lemma buildOut_vectors `{JsHost} (env : BuildScript.Env) (cs : list Chunk)
    (vs : list (list R)) :
  BuildScript.buildOut env = Ok (cs, vs) ->
  exists bs, BuildScript.embedBatches (BuildScript.client env) 0 bs [] = Ok vs
             /\ length vs = length cs.
Proof.
  unfold BuildScript.buildOut, mbind, result_bind.
  destruct (BuildScript.apiKeyFromEnv _); [|discriminate].
  destruct (_ =? 0)%nat; [discriminate|].
  destruct (_ =? 0)%nat; [discriminate|].
  destruct (BuildScript.embedBatches _ _ _ _) as [vs'|e] eqn:He; [|discriminate].
  destruct (length vs' =? _)%nat eqn:Hl; simpl; [|discriminate].
  intros [= <- <-]. apply Nat.eqb_eq in Hl. eauto.
Qed.

Lemma embedSlices_stored `{JsHost} (env : Indexer.Env) (f name : jsstr)
    (slices : list (list jsstr)) :
  forall (n i : nat) (acc its : list Indexer.IndexItem) (n' : nat),
    Forall (fun it => returnedBy (Indexer.client env) (Indexer.EMBED_MODEL env)
                        (Indexer.embedding it)) acc ->
    Indexer.embedSlices env f name n i slices acc = Ok (its, n') ->
    Forall (fun it => returnedBy (Indexer.client env) (Indexer.EMBED_MODEL env)
                        (Indexer.embedding it)) its.
Proof.
  induction slices as [|slice rest IH]; intros n i acc its n' Hacc;
    cbn [Indexer.embedSlices].
  - now intros [= <- <-].
  - destruct (Indexer.client env n _ slice) as [data|code] eqn:Hc; [|discriminate].
    apply IH. apply Forall_app; split; [exact Hacc|].
    apply Forall_forall. intros it Hit.
    apply elem_of_lookup_imap in Hit as (j & d & -> & Hd).
    simpl. exists n, slice, data. split; [exact Hc|].
    apply list_elem_of_In. eapply list_elem_of_lookup_2, Hd.
Qed.

Lemma embedFiles_stored `{JsHost} (env : Indexer.Env) (files : list jsstr) :
  forall (n : nat) (acc its : list Indexer.IndexItem),
    Forall (fun it => returnedBy (Indexer.client env) (Indexer.EMBED_MODEL env)
                        (Indexer.embedding it)) acc ->
    Indexer.embedFiles env files n acc = Ok its ->
    Forall (fun it => returnedBy (Indexer.client env) (Indexer.EMBED_MODEL env)
                        (Indexer.embedding it)) its.
Proof.
  induction files as [|f files IH]; intros n acc its Hacc; cbn [Indexer.embedFiles].
  - now intros [= <-].
  - destruct (negb _); [now apply IH|].
    destruct (Indexer.embedSlices _ _ _ _ _ _ _) as [[acc' n']|e] eqn:Hs; [|discriminate].
    apply IH. eapply embedSlices_stored; eassumption.
Qed.

(** C1 (as amended).  Every vector that the build script ([main]) stores is
    [l2 e] for an embedding [e] that the service returned; its norm is 1 when
    the norm of [e] is not 0, and it is [e] itself (norm 0) when the guard
    replaces a norm of 0 by 1.  [buildIndexWeb] stores every embedding as the
    service returned it. *)
Theorem stored_vectors `{JsHost} :
  (forall (env : BuildScript.Env) (cs : list Chunk) (vs : list (list R)),
      BuildScript.buildOut env = Ok (cs, vs) ->
      Forall (normalizedFrom (BuildScript.client env)) vs)
  /\ (forall (env : Indexer.Env) (docsDir : jsstr) (index : Indexer.RagIndex),
      Indexer.buildIndex env docsDir = Ok index ->
      Forall (fun it => returnedBy (Indexer.client env) (Indexer.EMBED_MODEL env)
                          (Indexer.embedding it)) (Indexer.items index)).
Proof.
  split.
  - intros env cs vs Hb. apply buildOut_vectors in Hb as (bs & Hb & _).
    eapply embedBatches_normalized; [constructor | exact Hb].
  - intros env docsDir index. unfold Indexer.buildIndex, mbind, result_bind.
    destruct (_ =? 0)%nat; [discriminate|].
    destruct (negb _); [discriminate|].
    destruct (Indexer.embedFiles _ _ _ _) as [its|e] eqn:Hf; [|discriminate].
    destruct its as [|first its]; [discriminate|].
    intros [= <-]. simpl. eapply embedFiles_stored; [constructor | exact Hf].
Qed.

Local Close Scope R_scope.

Local Open Scope R_scope.

Lemma norm_3_4 : norm [3; 4] = 5.
Proof.
  unfold norm, sumSquares. simpl. replace (3 * 3 + (4 * 4 + 0)) with (5 * 5) by lra.
  apply sqrt_square. lra.
Qed.

Lemma norm_0_0 : norm [0; 0] = 0.
Proof.
  unfold norm, sumSquares. simpl. replace (0 * 0 + (0 * 0 + 0)) with 0 by lra.
  apply sqrt_0.
Qed.

(** The theorem at work: the build script on one document of one paragraph,
    with a service that answers [(3, 4)]. *)
Lemma stored_vectors_witness :
  exists cs vs,
    @BuildScript.buildOut exampleHost (scriptEnv [3; 4]) = Ok (cs, vs)
    /\ Forall (normalizedFrom (constantService [3; 4])) vs.
Proof.
  eexists. eexists. split; [vm_compute; reflexivity|].
  eapply (proj1 (@stored_vectors exampleHost) (scriptEnv [3; 4])).
  vm_compute. reflexivity.
Defined.

(** C1, as the claim states it, fails twice.  [buildIndexWeb] stores the
    embedding [(3, 4)] as it came, with norm 5; and the build script stores
    the embedding [(0, 0)] as [l2 (0, 0)], whose norm is 0. *)
Lemma stored_vectors_not_unit :
  (exists index,
      @Indexer.buildIndex exampleHost (webEnv [3; 4]) (js "/docs") = Ok index
      /\ map Indexer.embedding (Indexer.items index) = [[3; 4]])
  /\ norm [3; 4] = 5
  /\ (exists cs,
        @BuildScript.buildOut exampleHost (scriptEnv [0; 0])
        = Ok (cs, [BuildScript.l2 [0; 0]]))
  /\ norm (BuildScript.l2 [0; 0]) = 0.
Proof.
  split; [eexists; split; reflexivity|].
  split; [exact norm_3_4|].
  split; [eexists; vm_compute; reflexivity|].
  rewrite (l2_zero _ norm_0_0). exact norm_0_0.
Qed.

Local Close Scope R_scope.

(** ** Publishing the index file (C5) *)




Lemma observable_nonempty (ops : list fs_op) (d0 : disk) : observable ops d0 <> [].
Proof. destruct ops; discriminate. Qed.

Lemma last_observable_mkdirs (pre rest : list fs_op) (d0 : disk) :
  (forall op, In op pre -> exists dir, op = Mkdir dir) ->
  List.last (observable (pre ++ rest) d0) d0 = List.last (observable rest d0) d0.
Proof.
  induction pre as [|op pre IH]; intros Hpre; simpl app; [reflexivity|].
  destruct (Hpre op (or_introl eq_refl)) as [dir ->].
  cbn [observable opStates removelast List.last app].
  rewrite <- IH by (intros op' Hop'; apply Hpre; now right).
  pose proof (observable_nonempty (pre ++ rest) d0) as Hne.
  destruct (observable (pre ++ rest) d0); [contradiction | reflexivity].
Qed.










(** ** Loading an index file (C6, C10) *)

Lemma loadIndex_fresh `{JsHost} (files : jsstr -> fileContent) (path : jsstr)
    (st : Search.State) (idx : IndexJson) :
  Search.memoIndex st = None ->
  (fst (Search.loadIndex files path st) = Ok idx
   <-> files (resolve path) = Parsed (Some idx) /\ passesLoadIndex idx).
Proof.
  intros Hm. unfold Search.loadIndex, passesLoadIndex. rewrite Hm.
  destruct (files (resolve path)) as [| |[parsed|]]; simpl;
    try (split; [discriminate | intros [[=] _]]).
  destruct (lengthOf (ij_vectors parsed) =? 0) eqn:Hv; simpl.
  { apply Nat.eqb_eq in Hv. split; [discriminate|]. intros [[= <-] ?]. lia. }
  destruct (lengthOf (ij_chunks parsed) =? 0) eqn:Hc; simpl.
  { apply Nat.eqb_eq in Hc. split; [discriminate|]. intros [[= <-] ?]. lia. }
  apply Nat.eqb_neq in Hv, Hc.
  destruct (Z.eqb _ (ij_dim parsed)) eqn:Hd; simpl.
  - apply Z.eqb_eq in Hd. split.
    + intros [= <-]. split; [reflexivity|]. split; [lia|]. split; [lia | exact Hd].
    + now intros [[= <-] _].
  - apply Z.eqb_neq in Hd. split; [discriminate|]. intros [[= <-] (_ & _ & Hd')]. lia.
Qed.

Lemma getIndex_fresh (files : jsstr -> fileContent) (path : jsstr) (idx : IndexJson) :
  fst (Route.getIndex files path None) = Ok idx
  <-> files path = Parsed (Some idx) /\ passesGetIndex idx.
Proof.
  unfold Route.getIndex, passesGetIndex.
  destruct (files path) as [| |[parsed|]]; simpl;
    try (split; [discriminate | intros [[=] _]]).
  destruct (lengthOf (ij_chunks parsed) =? 0) eqn:Hc; simpl.
  { apply Nat.eqb_eq in Hc. split; [discriminate|]. intros [[= <-] ?]. lia. }
  destruct (lengthOf (ij_vectors parsed) =? 0) eqn:Hv; simpl.
  { apply Nat.eqb_eq in Hv. split; [discriminate|]. intros [[= <-] ?]. lia. }
  apply Nat.eqb_neq in Hv, Hc. split.
  - intros [= <-]. split; [reflexivity|]. split; lia.
  - now intros [[= <-] _].
Qed.

(** C6 (as amended).  [loadIndex], when nothing is memoized, returns the
    parsed file exactly when its [vectors] and [chunks] arrays are present and
    not empty and [vectors[0].length] is [dim], and throws otherwise;
    [getIndex], when nothing is cached, returns the parsed file exactly when
    its [chunks] and [vectors] arrays are present and not empty, and throws
    otherwise.  Neither compares the length of [chunks] with that of
    [vectors]. *)
Theorem readers_check_presence `{JsHost} (files : jsstr -> fileContent) (path : jsstr)
    (st : Search.State) :
  (Search.memoIndex st = None ->
   (forall idx, fst (Search.loadIndex files path st) = Ok idx
                <-> files (resolve path) = Parsed (Some idx) /\ passesLoadIndex idx)
   /\ ((forall idx, files (resolve path) = Parsed (Some idx) -> ~ passesLoadIndex idx)
       -> exists e, fst (Search.loadIndex files path st) = Err e))
  /\ (forall idx, fst (Route.getIndex files path None) = Ok idx
                  <-> files path = Parsed (Some idx) /\ passesGetIndex idx)
  /\ ((forall idx, files path = Parsed (Some idx) -> ~ passesGetIndex idx)
      -> exists e, fst (Route.getIndex files path None) = Err e).
Proof.
  split; [intros Hm; split|split].
  - intros idx. now apply loadIndex_fresh.
  - intros Hbad. destruct (fst (Search.loadIndex files path st)) as [idx|e] eqn:Hr; [|eauto].
    apply (loadIndex_fresh files path st idx Hm) in Hr as [Hf Hp].
    now destruct (Hbad idx Hf).
  - intros idx. apply getIndex_fresh.
  - intros Hbad. destruct (fst (Route.getIndex files path None)) as [idx|e] eqn:Hr; [|eauto].
    apply getIndex_fresh in Hr as [Hf Hp]. now destruct (Hbad idx Hf).
Qed.

(** The theorem at work on a sound index file. *)
Lemma readers_check_presence_witness :
  fst (@Search.loadIndex exampleHost (diskOf soundIndex) (js "/out/index.json") freshState)
  = Ok soundIndex.
Proof.
  apply (proj1 (proj1 (@readers_check_presence exampleHost (diskOf soundIndex)
                         (js "/out/index.json") freshState) eq_refl) soundIndex).
  split; [reflexivity|]. unfold passesLoadIndex. simpl. repeat split; lia.
Defined.

(** C6, as the claim states it, fails.  [loadIndex] accepts a file with one
    chunk and two vectors; [getIndex] accepts a file whose vectors have two
    coordinates under [dim = 5]. *)
Lemma invalid_index_files_accepted :
  fst (@Search.loadIndex exampleHost (diskOf lopsidedIndex) (js "/out/index.json") freshState)
  = Ok lopsidedIndex
  /\ lengthOf (ij_chunks lopsidedIndex) = 1
  /\ lengthOf (ij_vectors lopsidedIndex) = 2
  /\ fst (Route.getIndex (diskOf wrongDimIndex) (js "/out/index.json") None)
     = Ok wrongDimIndex
  /\ length (List.hd [] (default [] (ij_vectors wrongDimIndex))) = 2
  /\ ij_dim wrongDimIndex = 5%Z.
Proof. repeat split; reflexivity. Qed.

(** C10.  Once a call of [loadIndex] has returned an index, the module
    variable holds it, and every later call returns this index whatever its
    path argument and whatever the disk holds, without reading a file: the
    state, which records the reads, is unchanged. *)
Theorem loadIndex_memoizes `{JsHost} (files : jsstr -> fileContent) (path : jsstr)
    (st st' : Search.State) (idx : IndexJson) :
  Search.loadIndex files path st = (Ok idx, st') ->
  Search.memoIndex st' = Some idx
  /\ forall (files' : jsstr -> fileContent) (path' : jsstr),
       Search.loadIndex files' path' st' = (Ok idx, st').
Proof.
  intros Hl.
  assert (Hm : Search.memoIndex st' = Some idx).
  { revert Hl. unfold Search.loadIndex.
    destruct (Search.memoIndex st) as [memo|] eqn:Hm.
    - intros [= <- <-]. exact Hm.
    - destruct (files (resolve path)) as [| |[parsed|]]; try discriminate.
      destruct (_ || _); [discriminate|].
      destruct (negb _); [discriminate|].
      now intros [= <- <-]. }
  split; [exact Hm|].
  intros files' path'. unfold Search.loadIndex. now rewrite Hm.
Qed.

(** The theorem at work: a first call on [/out/index.json], then a call with
    another path on a disk that holds another index. *)
Lemma loadIndex_memoizes_witness :
  exists st',
    @Search.loadIndex exampleHost (diskOf soundIndex) (js "/out/index.json") freshState
    = (Ok soundIndex, st')
    /\ Search.reads st' = [js "/out/index.json"]
    /\ @Search.loadIndex exampleHost (diskOf lopsidedIndex) (js "/elsewhere.json") st'
       = (Ok soundIndex, st').
Proof.
  eexists. split; [reflexivity|]. split; [reflexivity|].
  apply (proj2 (@loadIndex_memoizes exampleHost (diskOf soundIndex) (js "/out/index.json")
                  freshState _ soundIndex eq_refl)).
Defined.

(** ** The context assembler (C4) *)

Local Open Scope Z_scope.

Lemma totalSize_cons {T} (size : T -> Z) (x : T) (l : list T) :
  totalSize size (x :: l) = size x + totalSize size l.
Proof. reflexivity. Qed.

Lemma totalSize_app {T} (size : T -> Z) (a b : list T) :
  totalSize size (a ++ b) = totalSize size a + totalSize size b.
Proof. induction a as [|x a IH]; simpl; [reflexivity | rewrite IH; lia]. Qed.

Lemma trimLoop_greedy (budget : Z) (arr : list Search.RagHit) :
  forall used,
    exists k,
      (k = 0%nat \/ used + totalSize charSize (take k arr) <= budget)
      /\ match arr !! k with
         | None => k = length arr
                   /\ Indexer.trimLoop Search.text Search.withText budget used arr = arr
         | Some p =>
             budget < used + totalSize charSize (take k arr) + charSize p
             /\ Indexer.trimLoop Search.text Search.withText budget used arr
                = take k arr ++ charCut p (budget - (used + totalSize charSize (take k arr)))
         end.
Proof.
  induction arr as [|p rest IH]; intros used.
  - exists 0%nat. simpl. auto.
  - cbn [Indexer.trimLoop]. fold (charSize p).
    destruct (used + charSize p <=? budget) eqn:Hfit.
    + apply Z.leb_le in Hfit. destruct (IH (used + charSize p)) as (k & Hk & Hcut).
      exists (S k). change (take (S k) (p :: rest)) with (p :: take k rest).
      change ((p :: rest) !! S k) with (rest !! k). rewrite totalSize_cons. split.
      * right. destruct Hk as [->|Hk]; [change (take 0 rest) with (@nil Search.RagHit) in *|];
          simpl totalSize in *; lia.
      * destruct (rest !! k) as [q|].
        -- destruct Hcut as [Hq ->]. split; [lia|].
           simpl. do 3 f_equal. lia.
        -- destruct Hcut as [-> ->]. auto.
    + apply Z.leb_gt in Hfit. exists 0%nat. simpl. split; [now left|].
      split; [lia|]. unfold charCut. now rewrite Z.add_0_r.
Qed.

Lemma trimLoop_total (budget : Z) (arr : list Search.RagHit) :
  forall used,
    used + totalSize charSize (Indexer.trimLoop Search.text Search.withText budget used arr)
    <= Z.max used budget.
Proof.
  induction arr as [|p rest IH]; intros used; cbn [Indexer.trimLoop].
  - simpl. lia.
  - fold (charSize p). destruct (used + charSize p <=? budget) eqn:Hfit.
    + apply Z.leb_le in Hfit. specialize (IH (used + charSize p)). simpl. lia.
    + destruct (200 <? budget - used) eqn:Hleft; simpl; [|lia].
      apply Z.ltb_lt in Hleft. unfold charSize. simpl.
      rewrite length_take. lia.
Qed.

Lemma pickHits_greedy (budget : Z) (hits : list Search.RagHit) :
  forall used,
    exists k,
      (k = 0%nat \/ used + totalSize tokenSize (take k hits) <= budget)
      /\ match hits !! k with
         | None => k = length hits /\ Search.pickHits budget used hits = hits
         | Some h =>
             budget < used + totalSize tokenSize (take k hits) + tokenSize h
             /\ Search.pickHits budget used hits
                = take k hits
                  ++ tokenCut h (budget - (used + totalSize tokenSize (take k hits)))
         end.
Proof.
  induction hits as [|h rest IH]; intros used.
  - exists 0%nat. simpl. auto.
  - cbn [Search.pickHits]. fold (tokenSize h).
    destruct (used + tokenSize h <=? budget) eqn:Hfit.
    + apply Z.leb_le in Hfit. destruct (IH (used + tokenSize h)) as (k & Hk & Hcut).
      exists (S k). change (take (S k) (h :: rest)) with (h :: take k rest).
      change ((h :: rest) !! S k) with (rest !! k). rewrite totalSize_cons. split.
      * right. destruct Hk as [->|Hk]; [change (take 0 rest) with (@nil Search.RagHit) in *|];
          simpl totalSize in *; lia.
      * destruct (rest !! k) as [q|].
        -- destruct Hcut as [Hq ->]. split; [lia|].
           simpl. do 3 f_equal. lia.
        -- destruct Hcut as [-> ->]. auto.
    + apply Z.leb_gt in Hfit. exists 0%nat. simpl. split; [now left|].
      split; [lia|]. unfold tokenCut. now rewrite Z.add_0_r.
Qed.

Lemma roughTokenCount_slice (t : jsstr) (left : Z) :
  0 < left ->
  Z.of_nat (Search.roughTokenCount (take (Z.to_nat (left * 4)) t)) <= left.
Proof.
  intros Hleft. unfold Search.roughTokenCount.
  assert (Hlen : (length (take (Z.to_nat (left * 4)) t) <= 4 * Z.to_nat left)%nat)
    by (rewrite length_take; lia).
  assert (Hdiv : ((length (take (Z.to_nat (left * 4)) t) + 3) / 4 < S (Z.to_nat left))%nat).
  { apply Nat.Div0.div_lt_upper_bound. lia. }
  lia.
Qed.

Lemma pickHits_total (budget : Z) (hits : list Search.RagHit) :
  forall used,
    used + totalSize tokenSize (Search.pickHits budget used hits) <= Z.max used budget.
Proof.
  induction hits as [|h rest IH]; intros used; cbn [Search.pickHits].
  - simpl. lia.
  - fold (tokenSize h). destruct (used + tokenSize h <=? budget) eqn:Hfit.
    + apply Z.leb_le in Hfit. specialize (IH (used + tokenSize h)). simpl. lia.
    + destruct (200 <? Z.max 0 (budget - used) * 4) eqn:Hleft; simpl; [|lia].
      apply Z.ltb_lt in Hleft.
      assert (Hpos : 0 < budget - used) by lia.
      rewrite Z.max_r in * by lia.
      pose proof (roughTokenCount_slice (Search.text h) (budget - used) Hpos) as Hs.
      unfold tokenSize. simpl. lia.
Qed.

Lemma join_length (sep : jsstr) (l : list jsstr) :
  l <> [] ->
  (length (join sep l) + length sep
   = fold_right (fun x s => length x + length sep + s) 0 l)%nat.
Proof.
  induction l as [|x l IH]; intros Hl; [now destruct Hl|].
  destruct l as [|y l]; [simpl; lia|].
  change (join sep (x :: y :: l)) with (x ++ sep ++ join sep (y :: l)).
  rewrite !length_app. cbn [fold_right] in *.
  specialize (IH ltac:(discriminate)). lia.
Qed.

Lemma charSize_tokenSize (h : Search.RagHit) :
  4 * tokenSize h - 3 <= charSize h <= 4 * tokenSize h.
Proof.
  unfold charSize, tokenSize, Search.roughTokenCount.
  pose proof (Nat.div_mod_eq (length (Search.text h) + 3) 4) as Hd.
  pose proof (Nat.mod_upper_bound (length (Search.text h) + 3) 4 ltac:(lia)) as Hm.
  lia.
Qed.

Lemma totalSize_chars_tokens (l : list Search.RagHit) :
  totalSize charSize l <= 4 * totalSize tokenSize l.
Proof.
  induction l as [|h l IH]; cbn [totalSize fold_right]; [lia|].
  fold (totalSize charSize l). fold (totalSize tokenSize l).
  pose proof (charSize_tokenSize h). lia.
Qed.

Lemma context_length (picked : list Search.RagHit) :
  Z.of_nat (length (join Search.SEPARATOR (map Search.block picked))) = contextSize picked.
Proof.
  unfold contextSize. destruct picked as [|p picked]; [reflexivity|].
  assert (Hne : map Search.block (p :: picked) <> []) by discriminate.
  pose proof (join_length Search.SEPARATOR _ Hne) as Hj.
  change (length Search.SEPARATOR) with 7%nat in Hj.
  assert (Hsum : forall l,
             Z.of_nat (fold_right (fun x s => (length x + 7 + s)%nat) 0%nat
                         (map Search.block l))
             = totalSize charSize l + totalSize labelSize l + 7 * Z.of_nat (length l)).
  { induction l as [|h l IH]; [reflexivity|].
    cbn [map fold_right totalSize length]. fold (totalSize charSize l).
    fold (totalSize labelSize l).
    rewrite !Nat2Z.inj_add, IH. unfold Search.block, charSize, labelSize.
    rewrite !length_app. cbn [length js NL]. lia. }
  specialize (Hsum (p :: picked)). rewrite <- Hj in Hsum.
  cbn [length] in *. lia.
Qed.

(** C4 (as amended).  [trimToRoughChars] (sizes in characters) and
    [formatContextForPrompt] (sizes in estimated tokens, a token for every
    four characters or part of them) keep the passages in rank order as long
    as the sizes of their texts fit the budget together; the first passage
    that does not fit is cut to the budget that is left when more than 200
    characters are left, and dropped otherwise; nothing that follows it is
    kept.  The sizes of the texts that are kept, the slice included, add up
    to at most the budget: for [formatContextForPrompt] to at most four
    characters for every token of the budget.  The context that
    [formatContextForPrompt] returns begins with the label and the text of
    the first passage that is kept, and is longer than the texts that are
    kept: by the label of every passage, its source name and three code
    units more, and by the seven code units of a separator between two
    passages, none of which the budget counts. *)
Theorem assembler_greedy_within_budget (hits : list Search.RagHit) (budget : Z) :
  greedyCut charSize charCut budget hits
    (Indexer.trimToRoughChars Search.text Search.withText hits budget)
  /\ totalSize charSize (Indexer.trimToRoughChars Search.text Search.withText hits budget)
     <= Z.max 0 budget
  /\ greedyCut tokenSize tokenCut budget hits
       (snd (Search.formatContextForPrompt hits budget))
  /\ totalSize tokenSize (snd (Search.formatContextForPrompt hits budget))
     <= Z.max 0 budget
  /\ (forall h, 4 * tokenSize h - 3 <= charSize h <= 4 * tokenSize h)
  /\ totalSize charSize (snd (Search.formatContextForPrompt hits budget))
     <= 4 * Z.max 0 budget
  /\ Z.of_nat (length (fst (Search.formatContextForPrompt hits budget)))
     = contextSize (snd (Search.formatContextForPrompt hits budget))
  /\ (forall p rest,
        snd (Search.formatContextForPrompt hits budget) = p :: rest ->
        exists tail,
          fst (Search.formatContextForPrompt hits budget)
          = js "[" ++ Search.source_name p ++ js "]" ++ NL ++ Search.text p ++ tail).
Proof.
  unfold Indexer.trimToRoughChars, Search.formatContextForPrompt. simpl fst. simpl snd.
  split; [|split; [|split; [|split; [|split; [|split; [|split]]]]]].
  - destruct (trimLoop_greedy budget hits 0) as (k & Hk & Hcut).
    exists k. split; [exact Hk|]. destruct (hits !! k); exact Hcut.
  - apply (trimLoop_total budget hits 0).
  - destruct (pickHits_greedy budget hits 0) as (k & Hk & Hcut).
    exists k. split; [exact Hk|]. destruct (hits !! k); exact Hcut.
  - apply (pickHits_total budget hits 0).
  - apply charSize_tokenSize.
  - pose proof (pickHits_total budget hits 0) as Ht.
    pose proof (totalSize_chars_tokens (Search.pickHits budget 0 hits)). lia.
  - apply context_length.
  - intros p rest ->. cbn [map join].
    destruct (map Search.block rest) as [|b bs]; unfold Search.block.
    + exists []. now rewrite !app_nil_r.
    + exists (Search.SEPARATOR ++ join Search.SEPARATOR (b :: bs)).
      now rewrite <- !app_assoc.
Qed.

(** C4, as the claim states it, fails: the context can exceed the budget
    though nothing is cut.  Under a budget of two tokens, eight characters,
    two passages of four characters are both kept whole, and the context that
    is returned, with their labels and the separator, is 47 code units long,
    twelve tokens as the code estimates them. *)
Lemma context_exceeds_budget :
  Search.formatContextForPrompt
    [hit 1 "some-long-file-name.md" (js "abcd"); hit 2 "b.md" (js "efgh")] 2
  = (js "[some-long-file-name.md]" ++ NL ++ js "abcd" ++ Search.SEPARATOR
       ++ js "[b.md]" ++ NL ++ js "efgh",
     [hit 1 "some-long-file-name.md" (js "abcd"); hit 2 "b.md" (js "efgh")])
  /\ totalSize tokenSize
       [hit 1 "some-long-file-name.md" (js "abcd"); hit 2 "b.md" (js "efgh")] = 2
  /\ Z.of_nat (length (fst (Search.formatContextForPrompt
                              [hit 1 "some-long-file-name.md" (js "abcd");
                               hit 2 "b.md" (js "efgh")] 2))) = 47
  /\ Z.of_nat (Search.roughTokenCount
                 (fst (Search.formatContextForPrompt
                         [hit 1 "some-long-file-name.md" (js "abcd");
                          hit 2 "b.md" (js "efgh")] 2))) = 12
  /\ 2 * (4 * 2) < 47
  /\ 2 * 2 < 12.
Proof. repeat (split; [reflexivity|]). lia. Qed.

Local Close Scope Z_scope.

(** ** Neighbour expansion (C3) *)

Lemma setAdd_In (x y : nat) (s : list nat) :
  In x (Retrieval.setAdd y s) <-> x = y \/ In x s.
Proof.
  unfold Retrieval.setAdd. destruct (existsb (Nat.eqb y) s) eqn:He.
  - apply existsb_exists in He as (z & Hz & Hyz). apply Nat.eqb_eq in Hyz. subst z.
    split; [now right | now intros [->|?]].
  - rewrite in_app_iff. simpl. split; [intros [?|[->|[]]] | intros [->|?]]; auto.
Qed.

Lemma sameSource_spec (cs : list Chunk) (a b : nat) :
  Retrieval.sameSource cs a b = true ->
  exists ca cb, cs !! a = Some ca /\ cs !! b = Some cb /\ source_path ca = source_path cb.
Proof.
  unfold Retrieval.sameSource.
  destruct (cs !! a) as [ca|]; [|discriminate].
  destruct (cs !! b) as [cb|]; [|discriminate].
  intros Hd. apply bool_decide_eq_true in Hd. eauto.
Qed.

Lemma sameSource_beside (cs : list Chunk) (i w j : nat) :
  (j + w = i \/ j = i + w) -> Retrieval.sameSource cs j i = true -> besideAt cs i w j.
Proof.
  intros Hpos Hs. apply sameSource_spec in Hs as (cj & ci & Hj & Hi & Hp).
  split; [exact Hpos|]. exists ci, cj. auto.
Qed.

Lemma addNeighbors_In (cs : list Chunk) (i w j : nat) (s : list nat) :
  In j (Retrieval.addNeighbors cs i s w) -> In j s \/ besideAt cs i w j.
Proof.
  unfold Retrieval.addNeighbors.
  destruct ((w <=? i) && Retrieval.sameSource cs (i - w) i) eqn:Hl;
    destruct ((i + w <? length cs) && Retrieval.sameSource cs (i + w) i) eqn:Hr;
    rewrite ?setAdd_In; try tauto.
  - apply andb_true_iff in Hl as [Hle Hl], Hr as [_ Hr]. apply Nat.leb_le in Hle.
    intros [->|[->|?]]; [right | right | now left]; apply sameSource_beside; auto; lia.
  - apply andb_true_iff in Hl as [Hle Hl]. apply Nat.leb_le in Hle.
    intros [->|?]; [right | now left]. apply sameSource_beside; auto; lia.
  - apply andb_true_iff in Hr as [_ Hr].
    intros [->|?]; [right | now left]. apply sameSource_beside; auto.
Qed.

Lemma expandOne_In (cs : list Chunk) (nw i j : nat) (s : list nat) :
  In j (Retrieval.expandOne cs nw s i) ->
  In j s \/ j = i \/ exists w, 1 <= w <= nw /\ besideAt cs i w j.
Proof.
  unfold Retrieval.expandOne.
  assert (Hgen : forall ws s0,
             In j (fold_left (Retrieval.addNeighbors cs i) ws s0) ->
             In j s0 \/ exists w, In w ws /\ besideAt cs i w j).
  { induction ws as [|w ws IH]; intros s0; simpl; [now left|].
    intros Hj. apply IH in Hj as [Hj|(w' & Hw' & Hn)].
    - apply addNeighbors_In in Hj as [Hj|Hn]; [now left | right; eauto].
    - right; eauto. }
  intros Hj. apply Hgen in Hj as [Hj|(w & Hw & Hn)].
  - apply setAdd_In in Hj as [->|Hj]; auto.
  - right. right. exists w. apply in_seq in Hw. split; [lia | exact Hn].
Qed.

Lemma withNeighbors_beside (cs : list Chunk) (picked : list nat) (neighborWindow j : nat) :
  In j (Retrieval.withNeighbors cs picked neighborWindow) ->
  In j picked
  \/ exists i w, In i picked /\ 1 <= w <= neighborWindow /\ besideAt cs i w j.
Proof.
  unfold Retrieval.withNeighbors.
  assert (Hgen : forall s0,
             In j (fold_left (Retrieval.expandOne cs neighborWindow) picked s0) ->
             In j s0 \/ In j picked
             \/ exists i w, In i picked /\ 1 <= w <= neighborWindow /\ besideAt cs i w j).
  { induction picked as [|i picked IH]; intros s0; simpl; [now left|].
    intros Hj. apply IH in Hj as [Hj|[Hj|(i' & w & Hi' & Hw & Hn)]].
    - apply expandOne_In in Hj as [Hj|[->|(w & Hw & Hn)]]; [now left|auto|].
      right. right. exists i, w. auto.
    - auto.
    - right. right. exists i', w. auto. }
  intros Hj. apply Hgen in Hj as [[]|Hj]. exact Hj.
Qed.

Lemma beside_orderApart (cs : list Chunk) (i w j : nat) :
  ordersFollowPositions cs -> besideAt cs i w j -> orderApart cs i w j.
Proof.
  intros Hlay [Hpos (ci & cj & Hi & Hj & Hp)]. exists ci, cj.
  split; [exact Hi|]. split; [exact Hj|]. destruct Hpos as [Hjw|Hjw].
  - left. pose proof (Hlay j i cj ci ltac:(lia) Hj Hi Hp). lia.
  - right. pose proof (Hlay i j ci cj ltac:(lia) Hi Hj (eq_sym Hp)). lia.
Qed.

Lemma twoDocs_layout : ordersFollowPositions twoDocs.
Proof.
  intros a b ca cb Hab Ha Hb Hp.
  assert (Hlb : b < 6) by (apply lookup_lt_Some in Hb; exact Hb).
  do 6 (destruct a as [|a]; [do 6 (destruct b as [|b]; [first [lia | injection Ha as <-; injection Hb as <-; first [reflexivity | discriminate Hp]]|]); lia|]).
  lia.
Qed.

(** C3 (as amended).  Every index that the neighbour expansion of
    [retrieve] puts in [withNeighbors] is a selected chunk or lies beside a
    selected chunk [i] at a distance [w] between 1 and [neighborWindow]: a
    chunk of the index (never an index out of range), [w] places before or
    after [i] in the array of the chunks, with the [source_path] of [i]
    (never a chunk of another document).  The code compares positions in the
    array, and no [order] field: only in an index whose chunks lie document
    by document in the order of their [order] fields is the [order] of such
    a chunk that of [i] minus or plus [w]. *)
Theorem neighbours_stay_in_document (cs : list Chunk) (picked : list nat)
    (neighborWindow j : nat) :
  In j (Retrieval.withNeighbors cs picked neighborWindow) ->
  (In j picked
   \/ exists i w, In i picked /\ 1 <= w <= neighborWindow /\ besideAt cs i w j)
  /\ (ordersFollowPositions cs ->
      In j picked
      \/ exists i w, In i picked /\ 1 <= w <= neighborWindow
                     /\ besideAt cs i w j /\ orderApart cs i w j).
Proof.
  intros Hj. apply withNeighbors_beside in Hj. split; [exact Hj|].
  intros Hlay. destruct Hj as [Hj|(i & w & Hi & Hw & Hb)]; [now left|].
  right. exists i, w. split; [exact Hi|]. split; [exact Hw|]. split; [exact Hb|].
  now apply beside_orderApart.
Qed.

(** The expansion of the third of five chunks of one document, and of the
    last one, which is followed by a chunk of another document. *)
Example expansion_in_the_middle : Retrieval.withNeighbors twoDocs [2] 1 = [2; 1; 3].
Proof. reflexivity. Qed.

Example expansion_at_the_end : Retrieval.withNeighbors twoDocs [4] 1 = [4; 3].
Proof. reflexivity. Qed.

Example expansion_at_the_start : Retrieval.withNeighbors twoDocs [0] 2 = [0; 1; 2].
Proof. reflexivity. Qed.

(** The theorem at work on chunk 3 of [twoDocs], which lies beside the
    selected last chunk of the first document; [twoDocs] is laid out by
    documents. *)
Lemma neighbours_stay_in_document_witness :
  In 3 (Retrieval.withNeighbors twoDocs [4; 0] 2)
  /\ ordersFollowPositions twoDocs
  /\ (In 3 [4; 0]
      \/ exists i w, In i [4; 0] /\ 1 <= w <= 2
                     /\ besideAt twoDocs i w 3 /\ orderApart twoDocs i w 3).
Proof.
  assert (Hin : In 3 (Retrieval.withNeighbors twoDocs [4; 0] 2)) by (simpl; auto).
  split; [exact Hin|]. split; [exact twoDocs_layout|].
  exact (proj2 (neighbours_stay_in_document twoDocs [4; 0] 2 3 Hin) twoDocs_layout).
Defined.

(** C3, as the claim states it, fails on an index that is not laid out in
    this way.  In an index of two chunks of one document with the [order]
    fields 0 and 5, the expansion of chunk 0 by a window of 1 adds chunk 1,
    whose [order] is 5; no chunk of the index has the [order] 1. *)
Lemma neighbour_off_order :
  Retrieval.withNeighbors gapDocs [0] 1 = [0; 1]
  /\ exists c0 c1,
       gapDocs !! 0 = Some c0 /\ gapDocs !! 1 = Some c1
       /\ source_path c1 = source_path c0
       /\ order c0 = 0 /\ order c1 = 5
       /\ order c0 + 1 < order c1
       /\ List.filter (fun c => order c =? order c0 + 1) gapDocs = [].
Proof.
  split; [reflexivity|]. eexists _, _. split; [reflexivity|]. split; [reflexivity|].
  split; [reflexivity|]. split; [reflexivity|]. split; [reflexivity|].
  split; [simpl; lia | reflexivity].
Qed.

(** ** The fused score (C2) *)

Section Idf.
Context `{JsHost}.

Lemma countToken_fold (ps : list jsstr) :
  forall (seen : gset jsstr) (m : gmap jsstr nat) (t : jsstr),
    t <> [] ->
    snd (fold_left Retrieval.countToken ps (seen, m)) !! t
    = if bool_decide (t ∈ ps /\ t ∉ seen) then Some (default 0 (m !! t) + 1) else m !! t.
Proof.
  induction ps as [|p ps IH]; intros seen m t Ht.
  - cbn [fold_left snd]. rewrite bool_decide_eq_false_2; [reflexivity|].
    intros [Hin _]. inversion Hin.
  - cbn [fold_left]. unfold Retrieval.countToken at 2.
    destruct (negb (truthy p) || bool_decide (p ∈ seen)) eqn:Hskip.
    + rewrite (IH seen m t Ht). apply orb_true_iff in Hskip.
      assert (Hiff : (t ∈ ps /\ t ∉ seen) <-> (t ∈ p :: ps /\ t ∉ seen)).
      { rewrite elem_of_cons. split; [tauto|]. intros [[->|Hin] Hns]; [|tauto].
        exfalso. destruct Hskip as [Hp|Hp].
        - apply negb_true_iff in Hp. destruct p; [congruence | discriminate].
        - apply bool_decide_eq_true in Hp. contradiction. }
      now rewrite (bool_decide_ext _ _ Hiff).
    + apply orb_false_iff in Hskip as [_ Hseen]. apply bool_decide_eq_false in Hseen.
      rewrite (IH _ _ t Ht). destruct (decide (t = p)) as [->|Hne].
      * rewrite lookup_insert_eq.
        rewrite bool_decide_eq_false_2 by set_solver.
        rewrite bool_decide_eq_true_2; [reflexivity|].
        split; [apply elem_of_cons; now left | exact Hseen].
      * rewrite lookup_insert_ne by congruence.
        assert (Hiff : (t ∈ ps /\ t ∉ {[p]} ∪ seen) <-> (t ∈ p :: ps /\ t ∉ seen))
          by (rewrite elem_of_cons; set_solver).
        now rewrite (bool_decide_ext _ _ Hiff).
Qed.

Lemma countDoc_lookup (m : gmap jsstr nat) (d t : jsstr) :
  t <> [] ->
  Retrieval.countDoc m d !! t
  = if bool_decide (t ∈ Retrieval.pieces d) then Some (default 0 (m !! t) + 1) else m !! t.
Proof.
  intros Ht. unfold Retrieval.countDoc. rewrite (countToken_fold _ ∅ m t Ht).
  assert (Hiff : (t ∈ Retrieval.pieces d /\ t ∉ (∅ : gset jsstr)) <-> t ∈ Retrieval.pieces d)
    by set_solver.
  now rewrite (bool_decide_ext _ _ Hiff).
Qed.

Lemma countDocs_lookup (docs : list jsstr) :
  forall (m : gmap jsstr nat) (t : jsstr),
    t <> [] ->
    fold_left Retrieval.countDoc docs m !! t
    = if df docs t =? 0 then m !! t else Some (default 0 (m !! t) + df docs t).
Proof.
  induction docs as [|d docs IH]; intros m t Ht; [reflexivity|].
  cbn [fold_left]. rewrite (IH _ t Ht), (countDoc_lookup m d t Ht).
  unfold df. cbn [List.filter].
  destruct (bool_decide (t ∈ Retrieval.pieces d)); cbn [length].
  - destruct (length _ =? 0) eqn:Hz.
    + apply Nat.eqb_eq in Hz. rewrite Hz. reflexivity.
    + simpl. f_equal. lia.
  - reflexivity.
Qed.

Lemma df_le (docs : list jsstr) (t : jsstr) : df docs t <= length docs.
Proof. unfold df. apply filter_length_le. Qed.

Lemma makeIdf_lookup (docs : list jsstr) (t : jsstr) :
  t <> [] ->
  Retrieval.makeIdf docs !! t
  = if df docs t =? 0 then None
    else Some (ln (INR (length docs + 1) / INR (df docs t + 1)) + 1)%R.
Proof.
  intros Ht. unfold Retrieval.makeIdf. rewrite lookup_fmap, (countDocs_lookup docs ∅ t Ht).
  rewrite lookup_empty. destruct (df docs t =? 0); reflexivity.
Qed.

Local Open Scope R_scope.

Lemma idfOf_ge_1 (N v : nat) : (v <= N)%nat -> 1 <= Retrieval.idfOf N v.
Proof.
  intros Hv. unfold Retrieval.idfOf.
  assert (Hpos : 0 < INR (v + 1)) by (apply lt_0_INR; lia).
  assert (Hle : INR (v + 1) <= INR (N + 1)) by (apply le_INR; lia).
  assert (Hq : 1 <= INR (N + 1) / INR (v + 1)).
  { apply (Rmult_le_reg_r (INR (v + 1))); [exact Hpos|].
    unfold Rdiv. rewrite Rmult_assoc, Rinv_l by lra. lra. }
  destruct Hq as [Hq|<-].
  - pose proof (ln_increasing 1 _ Rlt_0_1 Hq) as Hln. rewrite ln_1 in Hln. lra.
  - rewrite ln_1. lra.
Qed.

Lemma weightOf_makeIdf (docs : list jsstr) (t : jsstr) :
  t <> [] -> Retrieval.weightOf (Retrieval.makeIdf docs) t = idfWeight docs t.
Proof.
  intros Ht. unfold Retrieval.weightOf, idfWeight. rewrite (makeIdf_lookup docs t Ht).
  destruct (df docs t =? 0)%nat; [reflexivity|].
  pose proof (idfOf_ge_1 (length docs) (df docs t) (df_le docs t)) as Hge.
  unfold Retrieval.idfOf in Hge.
  destruct (Req_dec_T _ 0) as [Hz|_]; [lra | reflexivity].
Qed.

Lemma kwScore_fold (idf : gmap jsstr R) (tt : jsstr) (qt : list jsstr) (s : R) :
  fold_left (fun s t => if includes tt t then s + Retrieval.weightOf idf t else s) qt s
  = s + sumR (map (Retrieval.weightOf idf) (List.filter (includes tt) qt)).
Proof.
  revert s. induction qt as [|t qt IH]; intros s; simpl; [lra|].
  rewrite IH. destruct (includes tt t); simpl; lra.
Qed.

Lemma kwScore_kwSum (docs : list jsstr) (q txt : jsstr) :
  Retrieval.kwScore q txt (Retrieval.makeIdf docs) = kwSum docs q txt.
Proof.
  unfold Retrieval.kwScore, kwSum. rewrite kwScore_fold, Rplus_0_l. f_equal.
  apply map_ext_in. intros t Ht.
  apply filter_In in Ht as [Ht _]. apply filter_In in Ht as [_ Ht].
  apply weightOf_makeIdf. now apply truthy_nonempty.
Qed.
End Idf.

Lemma dot_fold (a b : list R) (ks : list nat) (s : R) :
  fold_left (fun s i => s + nth i a 0 * nth i b 0)%R ks s
  = (s + sumR (map (fun i => nth i a 0 * nth i b 0) ks))%R.
Proof.
  revert s. induction ks as [|i ks IH]; intros s; simpl; [lra|]. rewrite IH. lra.
Qed.

Lemma retrieval_dot (a b : list R) :
  length a = length b -> Retrieval.dot a b = dotProduct a b.
Proof.
  unfold Retrieval.dot, dotProduct. rewrite dot_fold, Rplus_0_l.
  revert b. induction a as [|x a IH]; intros [|y b] Hl; try discriminate; [reflexivity|].
  injection Hl as Hl. cbn [length combine]. rewrite <- cons_seq, <- seq_shift.
  cbn [map]. rewrite List.map_map.
  unfold sumR. cbn [fold_right nth fst snd]. f_equal. apply (IH b Hl).
Qed.

(** C2 (as amended).  For chunk [i] of an index with one vector for every
    chunk, all of the length of the embedding [q] of the question, [retrieve]
    scores [alpha * dot(q, vectors[i]) + (1 - alpha) * tanh(0.5 * kw_i)] for
    the weight [alpha] that it is called with; [kw_i] adds up, over the
    tokens of the lower-cased question (maximal runs of [a-z], [0-9] and
    U+00C0..U+024F), each occurrence counted, that occur as a substring of
    the lower-cased text of chunk [i], the weight
    [ln((N + 1) / (df(t) + 1)) + 1], where [N] is the number of chunks and
    [df(t)] the number of chunks that have [t] among their tokens, and the
    weight 0.5 when no chunk has [t] among its tokens. *)
Theorem fused_score_formula `{JsHost} (index : Retrieval.VectorIndex) (qv : list R)
    (question : jsstr) (alpha : R) (i : nat) (c : Chunk) :
  regularIndex index qv ->
  Retrieval.chunks index !! i = Some c ->
  exists v,
    Retrieval.vectors index !! i = Some v
    /\ length v = length qv
    /\ Retrieval.scoreAll index qv question alpha !! i
       = Some {| Retrieval.idx := i;
                 Retrieval.score :=
                   (alpha * dotProduct qv v
                    + (1 - alpha)
                      * tanh (5 / 10
                              * kwSum (map text (Retrieval.chunks index)) question (text c)))%R |}.
Proof.
  intros [Hlen Hall] Hc.
  assert (Hi : i < length (Retrieval.vectors index)).
  { rewrite Hlen. eapply lookup_lt_Some, Hc. }
  destruct (lookup_lt_is_Some_2 _ _ Hi) as [v Hv]. exists v.
  assert (Hlv : length v = length qv).
  { apply (proj1 (List.Forall_forall _ _) Hall v).
    apply list_elem_of_In. eapply list_elem_of_lookup_2, Hv. }
  split; [exact Hv|]. split; [exact Hlv|].
  unfold Retrieval.scoreAll. rewrite list_lookup_fmap.
  rewrite lookup_seq_lt by (eapply lookup_lt_Some; exact Hc).
  simpl. do 2 f_equal. unfold Retrieval.fusedScore.
  rewrite Hc. simpl. rewrite kwScore_kwSum.
  rewrite (nth_lookup_Some _ _ [] _ Hv). now rewrite retrieval_dot.
Qed.

Local Open Scope R_scope.

Lemma tanh_increasing (a b : R) : a < b -> tanh a < tanh b.
Proof.
  intros Hab. unfold tanh, sinh, cosh.
  pose proof (exp_pos a) as Ha. pose proof (exp_pos b) as Hb.
  pose proof (exp_pos (- a)) as Hna. pose proof (exp_pos (- b)) as Hnb.
  pose proof (exp_increasing a b Hab) as Hinc.
  assert (Hdec : exp (- b) < exp (- a)) by (apply exp_increasing; lra).
  assert (Hcross : exp a * exp (- b) < exp b * exp (- a)).
  { apply Rmult_gt_0_lt_compat; lra. }
  apply (Rmult_lt_reg_r (((exp a + exp (- a)) / 2) * ((exp b + exp (- b)) / 2))).
  - apply Rmult_lt_0_compat; lra.
  - replace ((exp a - exp (- a)) / 2 / ((exp a + exp (- a)) / 2)
             * ((exp a + exp (- a)) / 2 * ((exp b + exp (- b)) / 2)))
      with ((exp a - exp (- a)) / 2 * ((exp b + exp (- b)) / 2)) by (field; lra).
    replace ((exp b - exp (- b)) / 2 / ((exp b + exp (- b)) / 2)
             * ((exp a + exp (- a)) / 2 * ((exp b + exp (- b)) / 2)))
      with ((exp b - exp (- b)) / 2 * ((exp a + exp (- a)) / 2)) by (field; lra).
    nra.
Qed.

Lemma dot_1_1 : Retrieval.dot [1] [1] = 1.
Proof. unfold Retrieval.dot. simpl. lra. Qed.

(** The theorem at work on the second of the four chunks of [petsIndex] and
    a question that names the cat twice. *)
Lemma fused_score_formula_witness :
  exists v,
    Retrieval.vectors petsIndex !! 1%nat = Some v
    /\ length v = length [3 / 5; 4 / 5]%R
    /\ @Retrieval.scoreAll exampleHost petsIndex [3 / 5; 4 / 5]%R (js "cat dog cat") (7 / 10) !! 1%nat
       = Some {| Retrieval.idx := 1;
                 Retrieval.score :=
                   (7 / 10 * dotProduct [3 / 5; 4 / 5] v
                    + (1 - 7 / 10)
                      * tanh (5 / 10
                              * @kwSum exampleHost (map text (Retrieval.chunks petsIndex))
                                  (js "cat dog cat") (js "A dog barked at the cat")))%R |}.
Proof.
  apply (@fused_score_formula exampleHost petsIndex [3 / 5; 4 / 5]%R (js "cat dog cat")
           (7 / 10)%R 1%nat
           (textChunk "/docs/a.md" 1 "A dog barked at the cat")).
  - split; [reflexivity | repeat constructor].
  - reflexivity.
Defined.

(** C2, as the claim states it, fails: a token that the question repeats is
    counted as often as it occurs.  For the question ["cat cat"] and the one
    chunk ["cat"] the code adds the weight of [cat], which is 1, twice and
    scores [0.7 * 1 + 0.3 * tanh(0.5 * 2)]; over the distinct tokens of the
    question the score would be [0.7 * 1 + 0.3 * tanh(0.5 * 1)], which is
    less. *)
Lemma repeated_token_counts_twice :
  @Retrieval.scoreAll exampleHost catIndex [1] (js "cat cat") (7 / 10)
  = [{| Retrieval.idx := 0;
        Retrieval.score :=
          fusedWith (@kwSum exampleHost [js "cat"] (js "cat cat") (js "cat"))
            (7 / 10) [1] [1] |}]
  /\ @kwSum exampleHost [js "cat"] (js "cat cat") (js "cat") = 2
  /\ @kwSumDistinct exampleHost [js "cat"] (js "cat cat") (js "cat") = 1
  /\ fusedWith 1 (7 / 10) [1] [1] < fusedWith 2 (7 / 10) [1] [1].
Proof.
  assert (Hw : @idfWeight exampleHost [js "cat"] (js "cat") = 1).
  { unfold idfWeight.
    replace (@df exampleHost [js "cat"] (js "cat")) with 1%nat by reflexivity.
    simpl Nat.eqb. cbv iota. simpl length. simpl Init.Nat.add.
    replace (INR 2 / INR 2) with 1 by (simpl; field).
    rewrite ln_1. lra. }
  split; [|split; [|split]].
  - change (@Retrieval.scoreAll exampleHost catIndex [1] (js "cat cat") (7 / 10))
      with [{| Retrieval.idx := 0;
               Retrieval.score :=
                 @Retrieval.fusedScore exampleHost catIndex [1] (js "cat cat")
                   (@Retrieval.makeIdf exampleHost [js "cat"]) (7 / 10) 0 |}].
    unfold Retrieval.fusedScore, fusedWith.
    change (default [] (text <$> Retrieval.chunks catIndex !! 0%nat)) with (js "cat").
    change (nth 0 (Retrieval.vectors catIndex) []) with [1].
    now rewrite kwScore_kwSum.
  - unfold kwSum.
    replace (List.filter _ _) with [js "cat"; js "cat"] by reflexivity.
    unfold sumR. cbn [map fold_right]. rewrite Hw. lra.
  - unfold kwSumDistinct.
    replace (List.filter _ _) with [js "cat"] by reflexivity.
    unfold sumR. cbn [map fold_right]. rewrite Hw. lra.
  - unfold fusedWith. rewrite dot_1_1.
    assert (Ht : tanh (5 / 10 * 1) < tanh (5 / 10 * 2)) by (apply tanh_increasing; lra).
    lra.
Qed.

Local Close Scope R_scope.

(** ** Re-ranking and ranks (C8) *)

Section Sorting.
Context {A : Type} (key : A -> R).

Lemma insertDesc_perm (x : A) (l : list A) : Permutation (x :: l) (insertDesc key x l).
Proof.
  induction l as [|y l IH]; simpl; [reflexivity|].
  destruct (Rlt_dec (key y) (key x)); [reflexivity|].
  rewrite perm_swap. now apply perm_skip.
Qed.

Lemma insertDesc_descending (x : A) (l : list A) :
  descending key l -> descending key (insertDesc key x l).
Proof.
  unfold descending. induction l as [|y l IH]; intros Hl; simpl.
  - constructor; constructor.
  - inversion Hl as [|? ? Hl' Hy]; subst.
    destruct (Rlt_dec (key y) (key x)) as [Hlt|Hge].
    + constructor; [exact Hl|]. constructor; [lra|].
      eapply List.Forall_impl; [|exact Hy]. simpl. intros z Hz. lra.
    + constructor; [now apply IH|].
      eapply Permutation_Forall; [apply insertDesc_perm|].
      constructor; [lra | exact Hy].
Qed.

Lemma sortDesc_from (l acc : list A) :
  descending key acc ->
  descending key (fold_left (fun sorted x => insertDesc key x sorted) l acc)
  /\ Permutation (acc ++ l) (fold_left (fun sorted x => insertDesc key x sorted) l acc).
Proof.
  revert acc. induction l as [|x l IH]; intros acc Hacc; simpl.
  - split; [exact Hacc | now rewrite app_nil_r].
  - destruct (IH (insertDesc key x acc) (insertDesc_descending x acc Hacc)) as [Hd Hp].
    split; [exact Hd|]. rewrite <- Hp, <- insertDesc_perm.
    simpl. symmetry. apply Permutation_middle.
Qed.

Lemma sortDesc_descending (l : list A) : descending key (sortDesc key l).
Proof. apply (sortDesc_from l []). constructor. Qed.

Lemma sortDesc_perm (l : list A) : Permutation l (sortDesc key l).
Proof. apply (sortDesc_from l []). constructor. Qed.

Lemma descending_take (n : nat) (l : list A) :
  descending key l -> descending key (take n l).
Proof.
  unfold descending. revert n. induction l as [|x l IH]; intros [|n] Hl; simpl;
    try constructor.
  - inversion Hl; subst. now apply IH.
  - inversion Hl; subst. now apply Forall_take.
Qed.

Lemma descending_map {B} (key' : B -> R) (f : A -> B) (l : list A) :
  Forall (fun x => key' (f x) = key x) l ->
  descending key l -> descending key' (map f l).
Proof.
  unfold descending. induction l as [|x l IH]; intros Hk Hl; simpl; [constructor|].
  inversion Hk as [|? ? Hx Hk']; subst. inversion Hl as [|? ? Hl' Hall]; subst.
  constructor; [now apply IH|].
  apply Forall_map. apply Forall_forall. intros y Hy. simpl.
  rewrite Hx, (proj1 (Forall_forall _ _) Hk' y Hy).
  exact (proj1 (Forall_forall _ _) Hall y Hy).
Qed.
End Sorting.

(** What [retrieve] returns: at most [topK + 2] chunks, all taken from the
    selected chunks and their neighbours, in descending order of their fused
    scores; and the [rank] of every one of them is the literal 0 of the
    source. *)
Lemma rerank_trims_and_leaves_rank_zero `{JsHost} (index : Retrieval.VectorIndex)
    (qv : list R) (question : jsstr) (topK neighborWindow : nat) (alpha : R) :
  let scored := sortDesc Retrieval.score (Retrieval.scoreAll index qv question alpha) in
  let picked := Retrieval.mmr (take 40 scored) (Retrieval.vectors index) topK (6 / 10)%R in
  let hits := Retrieval.rankFrom index qv question topK neighborWindow alpha in
  length hits <= topK + 2
  /\ descending Retrieval.hit_score hits
  /\ Forall (fun h => exists i,
               In i (Retrieval.withNeighbors (Retrieval.chunks index) picked neighborWindow)
               /\ h = {| Retrieval.rank := 0;
                         Retrieval.hit_score := Retrieval.scoreOf scored i;
                         Retrieval.hit_chunk := Retrieval.chunks index !! i |}) hits.
Proof.
  intros scored picked hits. subst hits. unfold Retrieval.rankFrom.
  fold scored. fold picked.
  set (nbs := Retrieval.withNeighbors (Retrieval.chunks index) picked neighborWindow).
  unfold Retrieval.toHits, Retrieval.finalIdx.
  set (pairs := map (fun i => (i, Retrieval.scoreOf scored i)) nbs).
  assert (Hpairs : Forall (fun p => In (fst p) nbs /\ snd p = Retrieval.scoreOf scored (fst p))
                     (take (topK + 2) (sortDesc snd pairs))).
  { apply Forall_take. eapply Permutation_Forall; [apply sortDesc_perm|].
    subst pairs. apply Forall_map. apply Forall_forall. intros i Hi. simpl.
    split; [now apply list_elem_of_In | reflexivity]. }
  split; [|split].
  - rewrite !length_map, length_take. lia.
  - rewrite map_map. apply (descending_map snd).
    + eapply List.Forall_impl; [|exact Hpairs]. simpl. now intros p [_ ->].
    + apply descending_take, sortDesc_descending.
  - rewrite map_map. apply Forall_map.
    eapply List.Forall_impl; [|exact Hpairs]. simpl. intros p [Hin _]. eauto.
Qed.

(** C8 at work on an index of one chunk, [topK = 1]: the one chunk comes
    back, and its [rank] is 0 where the claim says 1. *)
Lemma retrieve_rank_of_first_hit :
  exists s,
    @Retrieval.retrieve exampleHost (constantService [1; 0]%R) oneChunkIndex (js "text")
      1 1 (7 / 10)%R
    = Ok [{| Retrieval.rank := 0; Retrieval.hit_score := s;
             Retrieval.hit_chunk := Some (docChunk "/docs/a.md" 0) |}].
Proof. eexists. reflexivity. Qed.

(** ** The layout of a built index *)

Lemma numbered_snoc (sourcePath : jsstr) (cs : list Chunk) (n : nat) (c : Chunk) :
  numbered sourcePath cs n -> order c = n -> source_path c = sourcePath ->
  numbered sourcePath (cs ++ [c]) (S n).
Proof.
  intros [-> Hcs] Ho Hp. split; [rewrite length_app; simpl; lia|].
  intros k c' Hk. apply lookup_app_Some in Hk as [Hk|[Hge Hk]]; [now apply Hcs|].
  destruct (k - length cs) as [|m] eqn:Hm; [|destruct m; discriminate].
  injection Hk as <-. split; [lia | exact Hp].
Qed.

Section ScriptOrders.
Context `{JsHost}.
Variables (sourcePath : jsstr) (target overlap : nat).

Lemma script_emit_numbered (st : BuildScript.Bundle) :
  numbered sourcePath (BuildScript.out st) (BuildScript.next_order st) ->
  numbered sourcePath (BuildScript.out (BuildScript.emit sourcePath st))
    (BuildScript.next_order (BuildScript.emit sourcePath st)).
Proof.
  intros Hst. unfold BuildScript.emit. destruct (_ || _); [exact Hst|]. simpl.
  now apply numbered_snoc.
Qed.

Lemma script_pushSub_numbered (sec : option jsstr) (st : BuildScript.Sub) :
  numbered sourcePath (BuildScript.sub_out st) (BuildScript.sub_order st) ->
  numbered sourcePath (fst (BuildScript.pushSub sourcePath sec st))
    (snd (BuildScript.pushSub sourcePath sec st)).
Proof.
  intros Hst. unfold BuildScript.pushSub. destruct (_ && _); [|exact Hst]. simpl.
  now apply numbered_snoc.
Qed.

Lemma script_flushCur_numbered (sec : option jsstr) (st : BuildScript.Sub) :
  numbered sourcePath (BuildScript.sub_out st) (BuildScript.sub_order st) ->
  numbered sourcePath (BuildScript.sub_out (BuildScript.flushCur sourcePath overlap sec st))
    (BuildScript.sub_order (BuildScript.flushCur sourcePath overlap sec st)).
Proof.
  intros Hst. unfold BuildScript.flushCur.
  pose proof (script_pushSub_numbered sec st Hst) as Hp.
  destruct (BuildScript.pushSub _ _ _) as [o n]. simpl in Hp.
  destruct (0 <? overlap); exact Hp.
Qed.

Lemma script_subSplit_numbered (sec : option jsstr) (piece : jsstr) (o : list Chunk)
    (n : nat) :
  numbered sourcePath o n ->
  numbered sourcePath (fst (BuildScript.subSplit sourcePath target overlap sec piece o n))
    (snd (BuildScript.subSplit sourcePath target overlap sec piece o n)).
Proof.
  intros Ho. unfold BuildScript.subSplit.
  set (st := fold_left _ _ _).
  assert (Hst : numbered sourcePath (BuildScript.sub_out st) (BuildScript.sub_order st)).
  { apply (fold_left_inv
             (fun s => numbered sourcePath (BuildScript.sub_out s) (BuildScript.sub_order s))).
    - intros s l Hs. unfold BuildScript.subLine. simpl.
      destruct (_ && _); [now apply script_flushCur_numbered | exact Hs].
    - exact Ho. }
  destruct (_ =? 0); [exact Hst | now apply script_pushSub_numbered].
Qed.

Lemma script_bundleBlock_numbered (st : BuildScript.Bundle) (b : BuildScript.Block) :
  numbered sourcePath (BuildScript.out st) (BuildScript.next_order st) ->
  numbered sourcePath
    (BuildScript.out (BuildScript.bundleBlock sourcePath target overlap st b))
    (BuildScript.next_order (BuildScript.bundleBlock sourcePath target overlap st b)).
Proof.
  intros Hst. unfold BuildScript.bundleBlock.
  destruct (3 * target <? _).
  - pose proof (script_subSplit_numbered (BuildScript.sectionOf (BuildScript.headingTrail b))
                  (BuildScript.block_text b) _ _ Hst) as Hs.
    destruct (BuildScript.subSplit _ _ _ _ _ _ _) as [o n]. exact Hs.
  - simpl. destruct (_ && _); [|destruct (_ =? 0); exact Hst].
    destruct (0 <? overlap); simpl; now apply script_emit_numbered.
Qed.

Lemma script_chunks_numbered (raw : jsstr) :
  numbered sourcePath (BuildScript.chunkStructured sourcePath target overlap raw)
    (length (BuildScript.chunkStructured sourcePath target overlap raw)).
Proof.
  unfold BuildScript.chunkStructured.
  set (st := fold_left _ _ _).
  assert (Hst : numbered sourcePath (BuildScript.out st) (BuildScript.next_order st)).
  { apply (fold_left_inv
             (fun s => numbered sourcePath (BuildScript.out s) (BuildScript.next_order s))).
    - intros; now apply script_bundleBlock_numbered.
    - split; [reflexivity|]. intros k c Hk. destruct k; discriminate. }
  assert (Hfin : forall s, numbered sourcePath (BuildScript.out s) (BuildScript.next_order s) ->
                           numbered sourcePath (BuildScript.out s) (length (BuildScript.out s))).
  { intros s [Hn Hs]. split; [reflexivity | exact Hs]. }
  destruct (_ =? 0); apply Hfin; [exact Hst | now apply script_emit_numbered].
Qed.
End ScriptOrders.

Lemma filter_all {A} (p : A -> bool) (l : list A) :
  Forall (fun x => p x = true) l -> List.filter p l = l.
Proof.
  induction 1 as [|x l Hx _ IH]; simpl; [reflexivity|]. now rewrite Hx, IH.
Qed.

(** Runs of numbered chunks of different documents, one after the other. *)
Lemma runs_follow_positions (run : jsstr -> list Chunk) (files : list jsstr) :
  (forall f, numbered f (run f) (length (run f))) ->
  NoDup files ->
  ordersFollowPositions (flat_map run files)
  /\ forall c, In c (flat_map run files) -> In (source_path c) files.
Proof.
  intros Hrun. induction 1 as [|f files Hf Hnd [IHlay IHsrc]]; simpl.
  - split; [|tauto]. intros a b ca cb _ Ha. destruct a; discriminate.
  - destruct (Hrun f) as [_ Hnum].
    assert (Hsrc : forall c, In c (run f ++ flat_map run files) ->
                             In (source_path c) (f :: files)).
    { intros c Hc. apply in_app_or in Hc as [Hc|Hc].
      - apply list_elem_of_In, list_elem_of_lookup in Hc as [k Hk].
        left. symmetry. apply (Hnum k c Hk).
      - right. now apply IHsrc. }
    split; [|exact Hsrc].
    intros a b ca cb Hab Ha Hb Hp.
    apply lookup_app_Some in Ha as [Ha|[Hal Ha]];
      apply lookup_app_Some in Hb as [Hb|[Hbl Hb]].
    + destruct (Hnum a ca Ha) as [-> _], (Hnum b cb Hb) as [-> _]. lia.
    + exfalso. apply Hf. apply list_elem_of_In.
      destruct (Hnum a ca Ha) as [_ <-]. rewrite Hp.
      apply IHsrc, list_elem_of_In. eapply list_elem_of_lookup_2, Hb.
    + apply lookup_lt_Some in Hb. lia.
    + rewrite (IHlay (a - length (run f)) (b - length (run f)) ca cb ltac:(lia) Ha Hb Hp).
      lia.
Qed.

(** X13.  The build script lays its chunks out by documents when [listFiles]
    names no file twice: an index that it writes satisfies the layout under
    which a neighbour by position is a neighbour by [order]. *)
Lemma main_orders_follow_positions `{JsHost} (env : BuildScript.Env) (cs : list Chunk)
    (vs : list (list R)) :
  NoDup (BuildScript.listFiles env (BuildScript.DOCS_DIR env)) ->
  BuildScript.buildOut env = Ok (cs, vs) ->
  ordersFollowPositions cs.
Proof.
  intros Hnd Hb.
  assert (Hcs : cs = BuildScript.collectChunks env
                       (BuildScript.listFiles env (BuildScript.DOCS_DIR env))).
  { revert Hb. unfold BuildScript.buildOut, mbind, result_bind.
    destruct (BuildScript.apiKeyFromEnv _); [|discriminate].
    destruct (_ =? 0); [discriminate|].
    destruct (_ =? 0); [discriminate|].
    destruct (BuildScript.embedBatches _ _ _ _); [|discriminate].
    destruct (negb _); [discriminate|]. now intros [= <- _]. }
  subst cs. unfold BuildScript.collectChunks.
  apply runs_follow_positions; [|exact Hnd].
  intros f. destruct (_ || _).
  - split; [reflexivity|]. intros k c Hk. destruct k; discriminate.
  - rewrite filter_all.
    + apply script_chunks_numbered.
    + eapply List.Forall_impl; [|apply script_chunks_aboveFloor].
      intros c [_ Hlen]. now apply Nat.leb_le.
Qed.

(** ** The selected chunks are chunks of the index *)

Lemma setAdd_Forall (P : nat -> Prop) (x : nat) (s : list nat) :
  P x -> Forall P s -> Forall P (Retrieval.setAdd x s).
Proof.
  intros Hx Hs. unfold Retrieval.setAdd. destruct (existsb _ s); [exact Hs|].
  apply Forall_app; split; [exact Hs | now constructor].
Qed.

Lemma setOf_Forall (P : nat -> Prop) (l : list nat) : Forall P l -> Forall P (Retrieval.setOf l).
Proof.
  unfold Retrieval.setOf. intros Hl.
  assert (Hgen : forall s, Forall P s -> Forall P (fold_left (fun s x => Retrieval.setAdd x s) l s)).
  { induction Hl as [|x l Hx _ IH]; intros s Hs; simpl; [exact Hs|].
    apply IH. now apply setAdd_Forall. }
  apply Hgen. constructor.
Qed.

Lemma pickBest_candidate (items : list Retrieval.Scored) (vectors : list (list R))
    (lambda : R) (selected candidates : list nat) (m : R) (i : nat) :
  Retrieval.pickBest items vectors lambda selected candidates = Some (m, i) ->
  In i candidates.
Proof.
  unfold Retrieval.pickBest.
  assert (Hgen : forall (l : list nat) (best : option (R * nat)),
             (forall m0 i0, best = Some (m0, i0) -> In i0 candidates) ->
             (forall x, In x l -> In x candidates) ->
             fold_left (fun best i =>
               let m := Retrieval.mmrScore items vectors lambda selected i in
               match best with
               | None => Some (m, i)
               | Some (b, _) => if Rlt_dec b m then Some (m, i) else best
               end) l best = Some (m, i) -> In i candidates).
  { induction l as [|x l IH]; intros best Hbest Hl; simpl.
    - intros Hb. now apply (Hbest m i).
    - apply IH.
      + intros m0 i0. destruct best as [[b j]|].
        * destruct (Rlt_dec b _); [intros [= _ <-]; apply Hl; now left | apply Hbest].
        * intros [= _ <-]. apply Hl. now left.
      + intros y Hy. apply Hl. now right. }
  apply Hgen; [discriminate | auto].
Qed.

Lemma mmrLoop_Forall (P : nat -> Prop) (items : list Retrieval.Scored)
    (vectors : list (list R)) (lambda : R) (todo : nat) :
  forall selected candidates,
    Forall P selected -> Forall P candidates ->
    Forall P (Retrieval.mmrLoop items vectors lambda todo selected candidates).
Proof.
  induction todo as [|todo IH]; intros selected candidates Hs Hc; simpl; [exact Hs|].
  destruct (Retrieval.pickBest _ _ _ _ _) as [[m i]|] eqn:Hb; [|exact Hs].
  apply pickBest_candidate in Hb.
  apply IH.
  - apply Forall_app; split; [exact Hs|]. constructor; [|constructor].
    exact (proj1 (List.Forall_forall _ _) Hc i Hb).
  - unfold Retrieval.setDelete. rewrite List.Forall_forall in *.
    intros x Hx. apply filter_In in Hx as [Hx _]. now apply Hc.
Qed.

(** Every chunk that MMR selects, and so every index that the neighbour
    expansion visits, is an index of the chunks array: the lookups
    [index.chunks[i]] of [retrieve] never miss. *)
Lemma picked_in_range `{JsHost} (index : Retrieval.VectorIndex) (qv : list R)
    (question : jsstr) (topK : nat) (alpha : R) :
  Forall (fun i => i < length (Retrieval.chunks index))
    (Retrieval.mmr
       (take 40 (sortDesc Retrieval.score (Retrieval.scoreAll index qv question alpha)))
       (Retrieval.vectors index) topK (6 / 10)%R).
Proof.
  unfold Retrieval.mmr. apply mmrLoop_Forall; [constructor|].
  apply setOf_Forall, Forall_map, Forall_take.
  eapply Permutation_Forall; [apply sortDesc_perm|].
  unfold Retrieval.scoreAll. apply Forall_map. simpl.
  apply Forall_forall. intros i Hi. apply elem_of_seq in Hi. lia.
Qed.

(** ** The assemblers and the retriever on examples *)

(** A budget of 100 tokens: the first passage (8 characters, 2 tokens) fits,
    the second (1000 characters) is cut to the 98 * 4 = 392 characters that
    are left, and the third, which would fit by itself, is not looked at. *)
Example formatContext_cuts_and_stops :
  map (fun h => (Search.rank h, length (Search.text h)))
      (snd (Search.formatContextForPrompt
              [hit 1 "a.md" (replicate 8 97%N); hit 2 "b.md" (replicate 1000 97%N);
               hit 3 "c.md" (replicate 4 97%N)] 100))
  = [(1, 8); (2, 392)].
Proof. vm_compute. reflexivity. Qed.

(** With 200 characters or less left, the passage that does not fit is
    dropped. *)
Example trimToRoughChars_drops :
  map Search.rank
      (Indexer.trimToRoughChars Search.text Search.withText
         [hit 1 "a.md" (replicate 8 97%N); hit 2 "b.md" (replicate 1000 97%N)] 208)
  = [1].
Proof. vm_compute. reflexivity. Qed.

(** The budget counts the text of the passages only: under a budget of one
    token (four characters) the context of one passage of four characters is
    29 characters long, its label included. *)
Example formatContext_label_not_counted :
  length (fst (Search.formatContextForPrompt [hit 1 "some-long-file-name.md" (js "abcd")] 1))
  = 29.
Proof. reflexivity. Qed.


(** * More of the code *)

(** ** Neighbour expansion adds every neighbour *)

Lemma setAdd_NoDup (x : nat) (s : list nat) : NoDup s -> NoDup (Retrieval.setAdd x s).
Proof.
  intros Hs. unfold Retrieval.setAdd. destruct (existsb (Nat.eqb x) s) eqn:He; [exact Hs|].
  apply NoDup_app. split; [exact Hs|]. split.
  - intros y Hy Hyx. apply list_elem_of_singleton in Hyx. subst y.
    assert (Ht : existsb (Nat.eqb x) s = true).
    { apply existsb_exists. exists x. split; [now apply list_elem_of_In | apply Nat.eqb_refl]. }
    congruence.
  - apply NoDup_singleton.
Qed.

Lemma sameSource_true (cs : list Chunk) (a b : nat) (ca cb : Chunk) :
  cs !! a = Some ca -> cs !! b = Some cb -> source_path ca = source_path cb ->
  Retrieval.sameSource cs a b = true.
Proof.
  intros Ha Hb Hp. unfold Retrieval.sameSource. rewrite Ha, Hb.
  now apply bool_decide_eq_true.
Qed.

Lemma addNeighbors_keeps (cs : list Chunk) (i w j : nat) (s : list nat) :
  In j s -> In j (Retrieval.addNeighbors cs i s w).
Proof.
  intros Hj. unfold Retrieval.addNeighbors.
  destruct (_ && _); destruct (_ && _); rewrite ?setAdd_In; auto.
Qed.

Lemma addNeighbors_NoDup (cs : list Chunk) (i w : nat) (s : list nat) :
  NoDup s -> NoDup (Retrieval.addNeighbors cs i s w).
Proof.
  intros Hs. unfold Retrieval.addNeighbors.
  destruct (_ && _); destruct (_ && _); auto using setAdd_NoDup.
Qed.

Lemma addNeighbors_adds (cs : list Chunk) (i w j : nat) (s : list nat) (ci cj : Chunk) :
  (j + w = i \/ j = i + w) ->
  cs !! i = Some ci -> cs !! j = Some cj -> source_path cj = source_path ci ->
  In j (Retrieval.addNeighbors cs i s w).
Proof.
  intros Hpos Hi Hj Hp. unfold Retrieval.addNeighbors.
  pose proof (sameSource_true cs j i cj ci Hj Hi Hp) as Hs.
  pose proof (lookup_lt_Some _ _ _ Hj) as Hlt.
  destruct Hpos as [Hpos|Hpos].
  - assert (Hji : j = i - w) by lia. assert (Hle : (w <=? i) = true) by (apply Nat.leb_le; lia).
    rewrite Hle, <- Hji, Hs. simpl.
    destruct (_ && _); rewrite ?setAdd_In; auto.
  - subst j. assert (Hr : (i + w <? length cs) = true) by now apply Nat.ltb_lt.
    rewrite Hr, Hs. simpl. rewrite setAdd_In. now left.
Qed.

Lemma fold_addNeighbors (cs : list Chunk) (i : nat) (ws : list nat) :
  forall s,
    (NoDup s -> NoDup (fold_left (Retrieval.addNeighbors cs i) ws s))
    /\ (forall j, In j s -> In j (fold_left (Retrieval.addNeighbors cs i) ws s))
    /\ (forall w j ci cj,
          In w ws -> (j + w = i \/ j = i + w) ->
          cs !! i = Some ci -> cs !! j = Some cj -> source_path cj = source_path ci ->
          In j (fold_left (Retrieval.addNeighbors cs i) ws s)).
Proof.
  induction ws as [|w ws IH]; intros s; simpl.
  - split; [auto|]. split; [auto|]. intros ? ? ? ? [].
  - destruct (IH (Retrieval.addNeighbors cs i s w)) as (Hnd & Hkeep & Hadd).
    split; [intros Hs; now apply Hnd, addNeighbors_NoDup|].
    split; [intros j Hj; now apply Hkeep, addNeighbors_keeps|].
    intros w' j ci cj [<-|Hw'] Hpos Hi Hj Hp.
    + apply Hkeep. eapply addNeighbors_adds; eassumption.
    + eapply Hadd; eassumption.
Qed.

Lemma fold_expandOne (cs : list Chunk) (nw : nat) (picked : list nat) :
  forall s,
    (NoDup s -> NoDup (fold_left (Retrieval.expandOne cs nw) picked s))
    /\ (forall j, In j s -> In j (fold_left (Retrieval.expandOne cs nw) picked s))
    /\ (forall i, In i picked ->
          In i (fold_left (Retrieval.expandOne cs nw) picked s)
          /\ forall w j ci cj,
               1 <= w <= nw -> (j + w = i \/ j = i + w) ->
               cs !! i = Some ci -> cs !! j = Some cj -> source_path cj = source_path ci ->
               In j (fold_left (Retrieval.expandOne cs nw) picked s)).
Proof.
  induction picked as [|i picked IH]; intros s; simpl.
  - split; [auto|]. split; [auto|]. intros ? [].
  - destruct (IH (Retrieval.expandOne cs nw s i)) as (Hnd & Hkeep & Hadd).
    destruct (fold_addNeighbors cs i (seq 1 nw) (Retrieval.setAdd i s)) as (Hnd1 & Hkeep1 & Hadd1).
    split; [intros Hs; apply Hnd, Hnd1; now apply setAdd_NoDup|].
    split.
    { intros j Hj. apply Hkeep, Hkeep1. apply setAdd_In. now right. }
    intros i' [<-|Hi'].
    + split.
      * apply Hkeep, Hkeep1. apply setAdd_In. now left.
      * intros w j ci cj Hw Hpos Hi Hj Hp. apply Hkeep.
        eapply Hadd1; try eassumption. apply in_seq. lia.
    + now apply Hadd.
Qed.

Lemma withNeighbors_NoDup (cs : list Chunk) (picked : list nat) (nw : nat) :
  NoDup (Retrieval.withNeighbors cs picked nw).
Proof.
  unfold Retrieval.withNeighbors.
  apply (fold_expandOne cs nw picked []). constructor.
Qed.

(** X1.  The neighbour expansion of [retrieve] leaves nothing out and adds
    nothing twice: for selected chunks that exist, [withNeighbors] holds
    every selected chunk and, for every selected chunk [i] and every distance
    [w] from 1 to [neighborWindow], the chunks [w] places before and after
    [i] that exist and have the source path of [i]; and no index occurs twice
    in it. *)
Theorem neighbours_all_added (cs : list Chunk) (picked : list nat) (neighborWindow : nat) :
  Forall (fun i => i < length cs) picked ->
  NoDup (Retrieval.withNeighbors cs picked neighborWindow)
  /\ forall i, In i picked ->
       In i (Retrieval.withNeighbors cs picked neighborWindow)
       /\ forall w j ci cj,
            1 <= w <= neighborWindow -> (j + w = i \/ j = i + w) ->
            cs !! i = Some ci -> cs !! j = Some cj -> source_path cj = source_path ci ->
            In j (Retrieval.withNeighbors cs picked neighborWindow).
Proof.
  intros _. unfold Retrieval.withNeighbors.
  destruct (fold_expandOne cs neighborWindow picked []) as (Hnd & _ & Hadd).
  split; [apply Hnd; constructor | exact Hadd].
Qed.

(** Chunk 2 of five chunks of one document, with a window of 1. *)
Lemma neighbours_all_added_witness :
  NoDup (Retrieval.withNeighbors twoDocs [2] 1)
  /\ forall i, In i [2] ->
       In i (Retrieval.withNeighbors twoDocs [2] 1)
       /\ forall w j ci cj,
            1 <= w <= 1 -> (j + w = i \/ j = i + w) ->
            twoDocs !! i = Some ci -> twoDocs !! j = Some cj ->
            source_path cj = source_path ci ->
            In j (Retrieval.withNeighbors twoDocs [2] 1).
Proof.
  apply (neighbours_all_added twoDocs [2] 1).
  constructor; [vm_compute; lia | constructor].
Defined.

(** ** Maximal marginal relevance *)

Lemma setOf_spec (l : list nat) :
  NoDup (Retrieval.setOf l) /\ forall i, In i (Retrieval.setOf l) <-> In i l.
Proof.
  unfold Retrieval.setOf.
  assert (Hgen : forall s, NoDup s ->
             NoDup (fold_left (fun s x => Retrieval.setAdd x s) l s)
             /\ forall i, In i (fold_left (fun s x => Retrieval.setAdd x s) l s)
                          <-> In i s \/ In i l).
  { induction l as [|x l IH]; intros s Hs; simpl.
    - split; [exact Hs | tauto].
    - destruct (IH (Retrieval.setAdd x s) (setAdd_NoDup x s Hs)) as [Hnd Hin].
      split; [exact Hnd|]. intros i. rewrite Hin, setAdd_In. intuition. }
  destruct (Hgen [] (NoDup_nil_2)) as [Hnd Hin].
  split; [exact Hnd|]. intros i. rewrite Hin. simpl. tauto.
Qed.

Lemma pickBest_nonempty (items : list Retrieval.Scored) (vectors : list (list R))
    (lambda : R) (selected : list nat) (c : nat) (candidates : list nat) :
  exists m i, Retrieval.pickBest items vectors lambda selected (c :: candidates) = Some (m, i).
Proof.
  unfold Retrieval.pickBest. cbn [fold_left].
  generalize (Retrieval.mmrScore items vectors lambda selected c) as m0.
  generalize c as i0. induction candidates as [|x l IH]; intros i0 m0; simpl; [eauto|].
  destruct (Rlt_dec m0 _); apply IH.
Qed.

Lemma setDelete_spec (x : nat) (s : list nat) :
  NoDup s -> In x s ->
  NoDup (Retrieval.setDelete x s)
  /\ (forall y, In y (Retrieval.setDelete x s) <-> In y s /\ y <> x)
  /\ S (length (Retrieval.setDelete x s)) = length s.
Proof.
  unfold Retrieval.setDelete. intros Hs Hx. split; [|split].
  - apply NoDup_ListNoDup, List.NoDup_filter, NoDup_ListNoDup, Hs.
  - intros y. rewrite filter_In, negb_true_iff, Nat.eqb_neq. tauto.
  - induction s as [|y s IH]; [destruct Hx|]. simpl.
    apply NoDup_cons in Hs as [Hy Hs].
    destruct (y =? x) eqn:Hyx; simpl.
    + apply Nat.eqb_eq in Hyx. subst y. f_equal.
      clear IH Hx. induction s as [|z s IH]; [reflexivity|]. simpl.
      destruct (z =? x) eqn:Hzx.
      * apply Nat.eqb_eq in Hzx. subst z. exfalso. apply Hy. now left.
      * simpl. f_equal. apply IH.
        -- intros Hin. apply Hy. now right.
        -- now apply NoDup_cons in Hs as [_ Hs].
    + f_equal. apply IH; [exact Hs|]. destruct Hx as [->|Hx]; [|exact Hx].
      apply Nat.eqb_neq in Hyx. congruence.
Qed.

Lemma mmrLoop_spec (items : list Retrieval.Scored) (vectors : list (list R)) (lambda : R)
    (todo : nat) :
  forall selected candidates,
    NoDup selected -> NoDup candidates ->
    (forall i, In i selected -> ~ In i candidates) ->
    let picked := Retrieval.mmrLoop items vectors lambda todo selected candidates in
    NoDup picked
    /\ (forall i, In i picked -> In i selected \/ In i candidates)
    /\ length picked = length selected + Nat.min todo (length candidates).
Proof.
  induction todo as [|todo IH]; intros selected candidates Hs Hc Hdis; simpl.
  - split; [exact Hs|]. split; [auto | lia].
  - destruct candidates as [|c candidates].
    + simpl. split; [exact Hs|]. split; [auto | lia].
    + destruct (pickBest_nonempty items vectors lambda selected c candidates) as (m & i & Hb).
      rewrite Hb. pose proof (pickBest_candidate _ _ _ _ _ _ _ Hb) as Hi.
      destruct (setDelete_spec i (c :: candidates) Hc Hi) as (Hnd & Hin & Hlen).
      destruct (IH (selected ++ [i]) (Retrieval.setDelete i (c :: candidates)))
        as (Hp1 & Hp2 & Hp3).
      * apply NoDup_app. split; [exact Hs|]. split; [|apply NoDup_singleton].
        intros y Hy Hyi. apply list_elem_of_singleton in Hyi. subst y.
        apply (Hdis i); [now apply list_elem_of_In | exact Hi].
      * exact Hnd.
      * intros y Hy Hy'. apply Hin in Hy' as [Hy' Hne].
        apply in_app_or in Hy as [Hy|[<-|[]]]; [now apply (Hdis y) | congruence].
      * split; [exact Hp1|]. split.
        -- intros y Hy. apply Hp2 in Hy as [Hy|Hy].
           ++ apply in_app_or in Hy as [Hy|[<-|[]]]; auto.
           ++ right. now apply Hin in Hy.
        -- rewrite Hp3, length_app. simpl in *. lia.
Qed.

(** X2.  When [items] names vectors that exist and all vectors have one
    length, [mmr] selects distinct candidates, and as many as it can: [K] of
    them, or all the distinct indices of [items] when these are fewer than
    [K]. *)
Theorem mmr_selects_distinct_candidates (items : list Retrieval.Scored)
    (vectors : list (list R)) (K : nat) (lambda : R) (d : nat) :
  Forall (fun it => Retrieval.idx it < length vectors) items ->
  Forall (fun v => length v = d) vectors ->
  let picked := Retrieval.mmr items vectors K lambda in
  NoDup picked
  /\ (forall i, In i picked -> In i (map Retrieval.idx items))
  /\ exists candidates,
       NoDup candidates
       /\ (forall i, In i candidates <-> In i (map Retrieval.idx items))
       /\ length picked = Nat.min K (length candidates).
Proof.
  intros _ _. unfold Retrieval.mmr.
  destruct (setOf_spec (map Retrieval.idx items)) as [Hnd Hin].
  destruct (mmrLoop_spec items vectors lambda K [] (Retrieval.setOf (map Retrieval.idx items)))
    as (Hp1 & Hp2 & Hp3); [constructor | exact Hnd | intros ? [] |].
  split; [exact Hp1|]. split.
  - intros i Hi. apply Hp2 in Hi as [[]|Hi]. now apply Hin.
  - exists (Retrieval.setOf (map Retrieval.idx items)).
    split; [exact Hnd|]. split; [exact Hin | exact Hp3].
Qed.

(** Three scored chunks, two vectors asked for. *)
Lemma mmr_selects_distinct_candidates_witness :
  let items := [{| Retrieval.idx := 0; Retrieval.score := 1%R |};
                {| Retrieval.idx := 1; Retrieval.score := 0%R |};
                {| Retrieval.idx := 2; Retrieval.score := 0%R |}] in
  let picked := Retrieval.mmr items [[1; 0]; [0; 1]; [1; 1]]%R 2 (6 / 10)%R in
  NoDup picked
  /\ (forall i, In i picked -> In i (map Retrieval.idx items))
  /\ exists candidates,
       NoDup candidates
       /\ (forall i, In i candidates <-> In i (map Retrieval.idx items))
       /\ length picked = Nat.min 2 (length candidates).
Proof.
  apply (mmr_selects_distinct_candidates
           [{| Retrieval.idx := 0; Retrieval.score := 1%R |};
            {| Retrieval.idx := 1; Retrieval.score := 0%R |};
            {| Retrieval.idx := 2; Retrieval.score := 0%R |}]
           [[1; 0]; [0; 1]; [1; 1]]%R 2 (6 / 10)%R 2).
  - repeat constructor.
  - repeat constructor.
Defined.


(** ** What [retrieve] returns *)

Lemma scoreOf_unique (l : list Retrieval.Scored) (s : Retrieval.Scored) :
  NoDup (map Retrieval.idx l) -> In s l ->
  Retrieval.scoreOf l (Retrieval.idx s) = Retrieval.score s.
Proof.
  unfold Retrieval.scoreOf. induction l as [|x l IH]; intros Hnd Hs; [destruct Hs|].
  simpl in Hnd. apply NoDup_cons in Hnd as [Hx Hnd]. simpl.
  destruct (Retrieval.idx x =? Retrieval.idx s) eqn:Hxs.
  - destruct Hs as [->|Hs]; [reflexivity|]. exfalso. apply Hx.
    apply Nat.eqb_eq in Hxs. rewrite Hxs. apply list_elem_of_In, in_map, Hs.
  - destruct Hs as [->|Hs]; [now rewrite Nat.eqb_refl in Hxs | now apply IH].
Qed.

Lemma scoreAll_idx `{JsHost} (index : Retrieval.VectorIndex) (qv : list R)
    (question : jsstr) (alpha : R) :
  map Retrieval.idx (Retrieval.scoreAll index qv question alpha)
  = seq 0 (length (Retrieval.chunks index)).
Proof.
  unfold Retrieval.scoreAll. rewrite map_map. simpl. apply map_id.
Qed.

Lemma sorted_scores `{JsHost} (index : Retrieval.VectorIndex) (qv : list R)
    (question : jsstr) (alpha : R) :
  let scored := sortDesc Retrieval.score (Retrieval.scoreAll index qv question alpha) in
  NoDup (map Retrieval.idx scored)
  /\ (forall s, In s scored <-> In s (Retrieval.scoreAll index qv question alpha))
  /\ forall i, i < length (Retrieval.chunks index) ->
       Retrieval.scoreAll index qv question alpha !! i
       = Some {| Retrieval.idx := i; Retrieval.score := Retrieval.scoreOf scored i |}.
Proof.
  intros scored.
  pose proof (sortDesc_perm Retrieval.score (Retrieval.scoreAll index qv question alpha))
    as Hperm. fold scored in Hperm.
  assert (Hnd : NoDup (map Retrieval.idx scored)).
  { rewrite <- Hperm, scoreAll_idx. apply NoDup_seq. }
  assert (Hin : forall s, In s scored <-> In s (Retrieval.scoreAll index qv question alpha)).
  { intros s. split; intros Hs; apply list_elem_of_In; apply list_elem_of_In in Hs;
      [now rewrite Hperm | now rewrite <- Hperm]. }
  split; [exact Hnd|]. split; [exact Hin|].
  intros i Hi.
  assert (Hl : Retrieval.scoreAll index qv question alpha !! i
               = Some {| Retrieval.idx := i;
                         Retrieval.score :=
                           Retrieval.fusedScore index qv question
                             (Retrieval.makeIdf (map text (Retrieval.chunks index))) alpha i |}).
  { unfold Retrieval.scoreAll. rewrite list_lookup_fmap, lookup_seq_lt by exact Hi.
    reflexivity. }
  rewrite Hl. do 2 f_equal.
  set (s := {| Retrieval.idx := i;
               Retrieval.score :=
                 Retrieval.fusedScore index qv question
                   (Retrieval.makeIdf (map text (Retrieval.chunks index))) alpha i |}) in *.
  symmetry. apply (scoreOf_unique scored s Hnd), Hin, list_elem_of_In.
  eapply list_elem_of_lookup_2, Hl.
Qed.

Lemma withNeighbors_in_range (cs : list Chunk) (picked : list nat) (nw : nat) :
  Forall (fun i => i < length cs) picked ->
  Forall (fun i => i < length cs) (Retrieval.withNeighbors cs picked nw).
Proof.
  intros Hp. unfold Retrieval.withNeighbors.
  assert (Hgen : forall s, Forall (fun i => i < length cs) s ->
             Forall (fun i => i < length cs)
               (fold_left (Retrieval.expandOne cs nw) picked s)).
  { induction Hp as [|i picked Hi _ IH]; intros s Hs; simpl; [exact Hs|].
    apply IH. apply List.Forall_forall. intros j Hj.
    apply expandOne_In in Hj as [Hj|[->|(w & _ & _ & ci & cj & _ & Hcj & _)]].
    - exact (proj1 (List.Forall_forall _ _) Hs j Hj).
    - exact Hi.
    - eapply lookup_lt_Some, Hcj. }
  apply Hgen. constructor.
Qed.

Lemma finalIdx_spec (scored : list Retrieval.Scored) (nbs : list nat) (topK : nat) :
  NoDup nbs ->
  NoDup (Retrieval.finalIdx scored nbs topK)
  /\ forall i, In i (Retrieval.finalIdx scored nbs topK) -> In i nbs.
Proof.
  intros Hnd. unfold Retrieval.finalIdx.
  set (pairs := map (fun i => (i, Retrieval.scoreOf scored i)) nbs).
  assert (Hperm : Permutation nbs (map fst (sortDesc snd pairs))).
  { rewrite <- (sortDesc_perm snd pairs). subst pairs. rewrite map_map. simpl.
    now rewrite map_id. }
  rewrite <- List.firstn_map.
  split.
  - apply (sublist_NoDup _ (map fst (sortDesc snd pairs))).
    + now rewrite <- Hperm.
    + apply sublist_take.
  - intros i Hi. apply list_elem_of_In. rewrite Hperm.
    apply list_elem_of_In in Hi.
    eapply elem_of_sublist; [exact Hi|apply sublist_take].
Qed.

(** X3.  For an index with one vector for every chunk, all of the length of
    the embedding of the question, [retrieve] returns hits; every hit is a
    chunk of the index with the fused score of that very chunk, no chunk is
    returned twice, and an index without chunks gives no hit. *)
Theorem retrieve_hits_are_scored_chunks `{JsHost} (client : EmbeddingService)
    (index : Retrieval.VectorIndex) (question : jsstr) (topK neighborWindow : nat)
    (alpha : R) (qv : list R) (more : list (list R)) :
  client 0 (Retrieval.model index) [question] = Embeddings (qv :: more) ->
  regularIndex index qv ->
  exists hits positions,
    Retrieval.retrieve client index question topK neighborWindow alpha = Ok hits
    /\ NoDup positions
    /\ Forall2 (fun i h =>
         exists c, Retrieval.chunks index !! i = Some c
                   /\ Retrieval.hit_chunk h = Some c
                   /\ Retrieval.scoreAll index qv question alpha !! i
                      = Some {| Retrieval.idx := i;
                                Retrieval.score := Retrieval.hit_score h |})
         positions hits
    /\ (Retrieval.chunks index = [] -> hits = []).
Proof.
  intros Hclient _. unfold Retrieval.retrieve. rewrite Hclient. unfold Retrieval.rankFrom.
  set (scored := sortDesc Retrieval.score (Retrieval.scoreAll index qv question alpha)).
  set (picked := Retrieval.mmr (take 40 scored) (Retrieval.vectors index) topK (6 / 10)%R).
  set (nbs := Retrieval.withNeighbors (Retrieval.chunks index) picked neighborWindow).
  destruct (sorted_scores index qv question alpha) as (_ & _ & Hscore). fold scored in Hscore.
  assert (Hrange : Forall (fun i => i < length (Retrieval.chunks index)) nbs).
  { apply withNeighbors_in_range, picked_in_range. }
  destruct (finalIdx_spec scored nbs topK) as [Hnd Hsub].
  { apply withNeighbors_NoDup. }
  assert (Hall : Forall (fun i => i < length (Retrieval.chunks index))
                   (Retrieval.finalIdx scored nbs topK)).
  { apply List.Forall_forall. intros i Hi.
    exact (proj1 (List.Forall_forall _ _) Hrange i (Hsub i Hi)). }
  exists (Retrieval.toHits index scored (Retrieval.finalIdx scored nbs topK)),
         (Retrieval.finalIdx scored nbs topK).
  split; [reflexivity|]. split; [exact Hnd|]. split.
  - unfold Retrieval.toHits. apply Forall2_fmap_r, Forall_Forall2_diag.
    eapply List.Forall_impl; [|exact Hall]. simpl. intros i Hi.
    destruct (lookup_lt_is_Some_2 _ _ Hi) as [c Hc].
    exists c. split; [exact Hc|]. split; [exact Hc|]. now apply Hscore.
  - intros Hempty. destruct (Retrieval.finalIdx scored nbs topK) as [|i l]; [reflexivity|].
    inversion Hall as [|? ? Hi _]; subst. rewrite Hempty in Hi. simpl in Hi. lia.
Qed.

(** The index of one chunk ["cat"], asked for ["cat"]. *)
Lemma retrieve_hits_are_scored_chunks_witness :
  exists hits positions,
    Retrieval.retrieve (H := exampleHost) (constantService [1%R]) catIndex (js "cat") 8 1
      (7 / 10) = Ok hits
    /\ NoDup positions
    /\ Forall2 (fun i h =>
         exists c, Retrieval.chunks catIndex !! i = Some c
                   /\ Retrieval.hit_chunk h = Some c
                   /\ Retrieval.scoreAll (H := exampleHost) catIndex [1%R] (js "cat") (7 / 10)
                        !! i
                      = Some {| Retrieval.idx := i;
                                Retrieval.score := Retrieval.hit_score h |})
         positions hits
    /\ (Retrieval.chunks catIndex = [] -> hits = []).
Proof.
  apply (retrieve_hits_are_scored_chunks (H := exampleHost) (constantService [1%R]) catIndex
           (js "cat") 8 1 (7 / 10)%R [1%R] []).
  - reflexivity.
  - split; [reflexivity | repeat constructor].
Defined.


(** ** The best chunk comes first *)

Section SortHead.
Context {A : Type} (key : A -> R).

Lemma sortDesc_head (x : A) (l : list A) :
  Forall (fun y => (key y <= key x)%R) l -> exists t, sortDesc key (x :: l) = x :: t.
Proof.
  intros Hl. unfold sortDesc. cbn [fold_left insertDesc].
  generalize (@nil A) as acc.
  induction Hl as [|y l Hy _ IH]; intros acc; cbn [fold_left]; [eauto|].
  cbn [insertDesc]. destruct (Rlt_dec (key x) (key y)); [lra | apply IH].
Qed.

Lemma descending_head (x : A) (l : list A) :
  descending key (x :: l) -> forall y, In y (x :: l) -> (key y <= key x)%R.
Proof.
  intros Hd y [<-|Hy]; [lra|]. inversion Hd as [|? ? _ Hall]; subst.
  exact (proj1 (List.Forall_forall _ _) Hall y Hy).
Qed.
End SortHead.

Lemma setAdd_prefix (x : nat) (s : list nat) : s `prefix_of` Retrieval.setAdd x s.
Proof.
  unfold Retrieval.setAdd. destruct (existsb _ _); [reflexivity | now apply prefix_app_r].
Qed.

Lemma setOf_head (x : nat) (l : list nat) : exists k, Retrieval.setOf (x :: l) = x :: k.
Proof.
  unfold Retrieval.setOf. cbn [fold_left]. change (Retrieval.setAdd x []) with [x].
  assert (Hgen : forall s, s `prefix_of` fold_left (fun s x => Retrieval.setAdd x s) l s).
  { induction l as [|y l IH]; intros s; cbn [fold_left]; [reflexivity|].
    etransitivity; [apply (setAdd_prefix y)|apply IH]. }
  destruct (Hgen [x]) as [k Hk]. exists k. exact Hk.
Qed.

Lemma addNeighbors_prefix (cs : list Chunk) (i w : nat) (s : list nat) :
  s `prefix_of` Retrieval.addNeighbors cs i s w.
Proof.
  unfold Retrieval.addNeighbors.
  destruct (_ && _); destruct (_ && _); try reflexivity;
    repeat (etransitivity; [|apply setAdd_prefix]); reflexivity.
Qed.

Lemma expandOne_prefix (cs : list Chunk) (nw i : nat) (s : list nat) :
  Retrieval.setAdd i s `prefix_of` Retrieval.expandOne cs nw s i.
Proof.
  unfold Retrieval.expandOne. generalize (Retrieval.setAdd i s) as s0.
  induction (seq 1 nw) as [|w ws IH]; intros s0; cbn [fold_left]; [reflexivity|].
  etransitivity; [apply (addNeighbors_prefix cs i w)|apply IH].
Qed.

Lemma withNeighbors_head (cs : list Chunk) (i : nat) (picked : list nat) (nw : nat) :
  exists k, Retrieval.withNeighbors cs (i :: picked) nw = i :: k.
Proof.
  unfold Retrieval.withNeighbors. cbn [fold_left].
  assert (Hgen : forall s, s `prefix_of` fold_left (Retrieval.expandOne cs nw) picked s).
  { induction picked as [|j l IH]; intros s; cbn [fold_left]; [reflexivity|].
    etransitivity; [|apply IH]. etransitivity; [apply (setAdd_prefix j)|apply expandOne_prefix]. }
  destruct (Hgen (Retrieval.expandOne cs nw [] i)) as [k Hk].
  destruct (expandOne_prefix cs nw i []) as [k' Hk'].
  change (Retrieval.setAdd i []) with [i] in Hk'.
  rewrite Hk, Hk'. eexists. reflexivity.
Qed.

Lemma mmrLoop_prefix (items : list Retrieval.Scored) (vectors : list (list R)) (lambda : R)
    (todo : nat) :
  forall selected candidates,
    selected `prefix_of` Retrieval.mmrLoop items vectors lambda todo selected candidates.
Proof.
  induction todo as [|todo IH]; intros selected candidates; cbn [Retrieval.mmrLoop];
    [reflexivity|].
  destruct (Retrieval.pickBest _ _ _ _ _) as [[m b]|]; [|reflexivity].
  etransitivity; [|apply IH]. now apply prefix_app_r.
Qed.

Lemma pickBest_first (items : list Retrieval.Scored) (vectors : list (list R)) (lambda : R)
    (selected : list nat) (c : nat) (candidates : list nat) :
  Forall (fun i => (Retrieval.mmrScore items vectors lambda selected i
                    <= Retrieval.mmrScore items vectors lambda selected c)%R) candidates ->
  Retrieval.pickBest items vectors lambda selected (c :: candidates)
  = Some (Retrieval.mmrScore items vectors lambda selected c, c).
Proof.
  intros Hall. unfold Retrieval.pickBest. cbn [fold_left].
  induction Hall as [|i l Hi _ IH]; cbn [fold_left]; [reflexivity|].
  destruct (Rlt_dec _ _); [lra | exact IH].
Qed.

Lemma scoreOf_in (l : list Retrieval.Scored) (i : nat) :
  In i (map Retrieval.idx l) ->
  exists s, In s l /\ Retrieval.scoreOf l i = Retrieval.score s.
Proof.
  intros Hi. unfold Retrieval.scoreOf.
  destruct (List.find _ l) as [it|] eqn:Hf.
  - exists it. split; [|reflexivity]. now apply find_some in Hf.
  - exfalso. apply in_map_iff in Hi as (s & <- & Hs).
    pose proof (find_none _ _ Hf s Hs) as Hn. simpl in Hn.
    now rewrite Nat.eqb_refl in Hn.
Qed.

Lemma mmr_first_pick (s0 : Retrieval.Scored) (items : list Retrieval.Scored)
    (vectors : list (list R)) (K : nat) (lambda : R) :
  0 < K -> (0 <= lambda)%R ->
  (forall s, In s items -> (Retrieval.score s <= Retrieval.score s0)%R) ->
  exists k, Retrieval.mmr (s0 :: items) vectors K lambda = Retrieval.idx s0 :: k.
Proof.
  intros HK Hl Hmax. unfold Retrieval.mmr.
  destruct (setOf_head (Retrieval.idx s0) (map Retrieval.idx items)) as [k Hk].
  change (map Retrieval.idx (s0 :: items)) with (Retrieval.idx s0 :: map Retrieval.idx items).
  destruct K as [|K]; [lia|]. cbn [Retrieval.mmrLoop]. rewrite Hk.
  rewrite pickBest_first.
  - destruct (mmrLoop_prefix (s0 :: items) vectors lambda K ([] ++ [Retrieval.idx s0])
                (Retrieval.setDelete (Retrieval.idx s0) (Retrieval.idx s0 :: k))) as [k' Hk'].
    rewrite Hk'. eexists. reflexivity.
  - apply List.Forall_forall. intros i Hi.
    assert (Hin : In i (map Retrieval.idx (s0 :: items))).
    { apply (proj2 (setOf_spec _)). change (map Retrieval.idx (s0 :: items))
        with (Retrieval.idx s0 :: map Retrieval.idx items). rewrite Hk. now right. }
    destruct (scoreOf_in _ _ Hin) as (s & Hs & Hsc).
    unfold Retrieval.mmrScore. cbn [fold_left]. rewrite Hsc.
    assert (H0 : Retrieval.scoreOf (s0 :: items) (Retrieval.idx s0) = Retrieval.score s0).
    { unfold Retrieval.scoreOf. cbn [List.find]. now rewrite Nat.eqb_refl. }
    rewrite H0.
    assert (Hle : (Retrieval.score s <= Retrieval.score s0)%R).
    { destruct Hs as [<-|Hs]; [lra | now apply Hmax]. }
    nra.
Qed.

(** X4.  For an index with one vector for every chunk, all of the length of
    the embedding of the question: when [topK] is positive and the index has
    chunks, [retrieve] returns a hit, and its first hit is a chunk with the
    highest fused score of the whole index: selection by marginal relevance,
    neighbour expansion and the final re-ranking all keep the best chunk in
    front. *)
Theorem retrieve_best_chunk_first `{JsHost} (client : EmbeddingService)
    (index : Retrieval.VectorIndex) (question : jsstr) (topK neighborWindow : nat)
    (alpha : R) (qv : list R) (more : list (list R)) :
  client 0 (Retrieval.model index) [question] = Embeddings (qv :: more) ->
  regularIndex index qv ->
  0 < topK -> 0 < length (Retrieval.chunks index) ->
  exists h rest i c,
    Retrieval.retrieve client index question topK neighborWindow alpha = Ok (h :: rest)
    /\ Retrieval.chunks index !! i = Some c
    /\ Retrieval.hit_chunk h = Some c
    /\ Retrieval.scoreAll index qv question alpha !! i
       = Some {| Retrieval.idx := i; Retrieval.score := Retrieval.hit_score h |}
    /\ forall s, In s (Retrieval.scoreAll index qv question alpha) ->
         (Retrieval.score s <= Retrieval.hit_score h)%R.
Proof.
  intros Hclient _ HK Hlen. unfold Retrieval.retrieve. rewrite Hclient.
  unfold Retrieval.rankFrom.
  destruct (sorted_scores index qv question alpha) as (Hnd & Hin & Hscore).
  pose proof (sortDesc_descending Retrieval.score
                (Retrieval.scoreAll index qv question alpha)) as Hdesc.
  pose proof (sortDesc_perm Retrieval.score
                (Retrieval.scoreAll index qv question alpha)) as Hperm.
  assert (Hidx : forall i, i < length (Retrieval.chunks index) ->
                   In i (map Retrieval.idx
                     (sortDesc Retrieval.score (Retrieval.scoreAll index qv question alpha)))).
  { intros i Hi. apply list_elem_of_In. rewrite <- Hperm. apply list_elem_of_In.
    rewrite scoreAll_idx. apply in_seq. lia. }
  destruct (sortDesc Retrieval.score (Retrieval.scoreAll index qv question alpha))
    as [|s0 t] eqn:Hsorted.
  { apply Permutation_length in Hperm. unfold Retrieval.scoreAll in Hperm.
    rewrite length_map, length_seq in Hperm. simpl in Hperm. lia. }
  pose proof (descending_head Retrieval.score s0 t Hdesc) as Hmax.
  assert (H0 : Retrieval.scoreOf (s0 :: t) (Retrieval.idx s0) = Retrieval.score s0).
  { unfold Retrieval.scoreOf. cbn [List.find]. now rewrite Nat.eqb_refl. }
  change (take 40 (s0 :: t)) with (s0 :: take 39 t).
  destruct (mmr_first_pick s0 (take 39 t) (Retrieval.vectors index) topK (6 / 10) HK)
    as [p Hp]; [lra| |].
  { intros s Hs. apply Hmax. right. apply list_elem_of_In.
    eapply elem_of_sublist; [apply list_elem_of_In, Hs | apply sublist_take]. }
  rewrite Hp.
  pose proof (withNeighbors_in_range (Retrieval.chunks index) (Retrieval.idx s0 :: p)
                neighborWindow) as Hrange.
  destruct (withNeighbors_head (Retrieval.chunks index) (Retrieval.idx s0) p neighborWindow)
    as [n Hn].
  rewrite Hn in *.
  assert (Hr : Forall (fun i => i < length (Retrieval.chunks index)) (Retrieval.idx s0 :: n)).
  { apply Hrange. rewrite <- Hp.
    change (s0 :: take 39 t) with (take 40 (s0 :: t)). rewrite <- Hsorted.
    apply picked_in_range. }
  unfold Retrieval.finalIdx. cbn [map].
  destruct (sortDesc_head snd (Retrieval.idx s0, Retrieval.scoreOf (s0 :: t) (Retrieval.idx s0))
              (map (fun i => (i, Retrieval.scoreOf (s0 :: t) i)) n)) as [t' Ht'].
  { apply Forall_map. simpl. inversion Hr as [|? ? _ Hn']; subst.
    eapply List.Forall_impl; [|exact Hn']. simpl. intros i Hi.
    destruct (scoreOf_in (s0 :: t) i (Hidx i Hi)) as (s & Hs & ->).
    rewrite H0. now apply Hmax. }
  rewrite Ht'. replace (topK + 2) with (S (topK + 1)) by lia.
  cbn [take firstn map fst Retrieval.toHits].
  assert (Hi0 : Retrieval.idx s0 < length (Retrieval.chunks index)).
  { now inversion Hr. }
  destruct (lookup_lt_is_Some_2 _ _ Hi0) as [c Hc].
  eexists _, _, (Retrieval.idx s0), c.
  split; [reflexivity|]. split; [exact Hc|]. split; [exact Hc|].
  cbn [Retrieval.hit_score]. split; [now apply Hscore|].
  intros s Hs. rewrite H0. now apply Hmax, Hin.
Qed.



(** ** The range of the scores *)

Section ScoreRange.
Context `{JsHost}.
Local Open Scope R_scope.

Lemma tanh_0 : tanh 0 = 0.
Proof. unfold tanh, sinh, cosh. rewrite Ropp_0, exp_0. field. Qed.

Lemma tanh_lt_1 (x : R) : tanh x < 1.
Proof.
  unfold tanh, sinh, cosh.
  pose proof (exp_pos x) as Ha. pose proof (exp_pos (- x)) as Hb.
  apply (Rmult_lt_reg_r ((exp x + exp (- x)) / 2)); [lra|].
  replace ((exp x - exp (- x)) / 2 / ((exp x + exp (- x)) / 2) * ((exp x + exp (- x)) / 2))
    with ((exp x - exp (- x)) / 2) by (field; lra).
  lra.
Qed.

Lemma tanh_nonneg (x : R) : 0 <= x -> 0 <= tanh x.
Proof.
  intros [Hx|<-]; [|rewrite tanh_0; lra].
  pose proof (tanh_increasing 0 x Hx) as Hlt. rewrite tanh_0 in Hlt. lra.
Qed.

Lemma idfWeight_pos (docs : list jsstr) (t : jsstr) : 5 / 10 <= idfWeight docs t.
Proof.
  unfold idfWeight. destruct (df docs t =? 0)%nat; [lra|].
  pose proof (idfOf_ge_1 (length docs) (df docs t) (df_le docs t)) as Hge.
  unfold Retrieval.idfOf in Hge. lra.
Qed.

Lemma kwSum_nonneg (docs : list jsstr) (q txt : jsstr) : 0 <= kwSum docs q txt.
Proof.
  unfold kwSum. induction (List.filter _ _) as [|t l IH]; simpl; [lra|].
  pose proof (idfWeight_pos docs t). lra.
Qed.

(** X5.  For chunk [i] of an index with one vector for every chunk, all of
    the length of the embedding of the question: the keyword score of the
    chunk is never negative, so its share [tanh(0.5 * kw)] of the fused score
    lies in [[0, 1)]; for [alpha] up to 1 the fused score lies between
    [alpha * sem] and [alpha * sem + (1 - alpha)], where [sem] is the dot
    product of the question with vector [i]. *)
Theorem fused_score_between (index : Retrieval.VectorIndex) (qv : list R)
    (question : jsstr) (alpha : R) (i : nat) :
  regularIndex index qv ->
  (i < length (Retrieval.chunks index))%nat ->
  alpha <= 1 ->
  let idf := Retrieval.makeIdf (map text (Retrieval.chunks index)) in
  let kw := Retrieval.kwScore question
              (default [] (text <$> Retrieval.chunks index !! i)) idf in
  let sem := Retrieval.dot qv (nth i (Retrieval.vectors index) []) in
  0 <= kw
  /\ 0 <= tanh (5 / 10 * kw) < 1
  /\ alpha * sem <= Retrieval.fusedScore index qv question idf alpha i
     <= alpha * sem + (1 - alpha).
Proof.
  intros _ _ Ha idf kw sem.
  assert (Hkw : 0 <= kw).
  { subst kw idf. rewrite kwScore_kwSum. apply kwSum_nonneg. }
  assert (Ht : 0 <= tanh (5 / 10 * kw) < 1).
  { split; [apply tanh_nonneg; lra | apply tanh_lt_1]. }
  split; [exact Hkw|]. split; [exact Ht|].
  unfold Retrieval.fusedScore. fold idf. fold kw. fold sem. nra.
Qed.

Lemma countToken_empty (ps : list jsstr) :
  forall (seen : gset jsstr) (m : gmap jsstr nat),
    snd (fold_left Retrieval.countToken ps (seen, m)) !! ([] : jsstr) = m !! ([] : jsstr).
Proof.
  induction ps as [|p ps IH]; intros seen m; [reflexivity|].
  cbn [fold_left]. unfold Retrieval.countToken at 2.
  destruct (negb (truthy p) || bool_decide (p ∈ seen)) eqn:Hskip; [apply IH|].
  rewrite IH. apply lookup_insert_ne. intros ->. discriminate Hskip.
Qed.

Lemma makeIdf_empty (docs : list jsstr) : Retrieval.makeIdf docs !! ([] : jsstr) = None.
Proof.
  unfold Retrieval.makeIdf. rewrite lookup_fmap.
  assert (Hgen : forall m : gmap jsstr nat,
             fold_left Retrieval.countDoc docs m !! ([] : jsstr) = m !! ([] : jsstr)).
  { induction docs as [|d docs IH]; intros m; [reflexivity|].
    cbn [fold_left]. rewrite IH. apply countToken_empty. }
  now rewrite Hgen, lookup_empty.
Qed.

Lemma df_positive (docs : list jsstr) (t : jsstr) :
  (df docs t =? 0)%nat = false ->
  (1 <= df docs t)%nat /\ exists d, In d docs /\ In t (Retrieval.pieces d).
Proof.
  intros Hz. apply Nat.eqb_neq in Hz. split; [lia|].
  unfold df in Hz. destruct (List.filter _ docs) as [|d l] eqn:Hf; [now destruct Hz|].
  assert (Hd : In d (List.filter (fun d => bool_decide (t ∈ Retrieval.pieces d)) docs))
    by (rewrite Hf; now left).
  apply filter_In in Hd as [Hd Ht]. exists d. split; [exact Hd|].
  apply bool_decide_eq_true in Ht. now apply list_elem_of_In.
Qed.

Lemma idfOf_antitone (N v w : nat) :
  (v <= w)%nat -> Retrieval.idfOf N w <= Retrieval.idfOf N v.
Proof.
  intros Hvw. unfold Retrieval.idfOf.
  assert (Hv : 0 < INR (v + 1)) by (apply lt_0_INR; lia).
  assert (Hw : 0 < INR (w + 1)) by (apply lt_0_INR; lia).
  assert (HN : 0 < INR (N + 1)) by (apply lt_0_INR; lia).
  assert (Hle : INR (v + 1) <= INR (w + 1)) by (apply le_INR; lia).
  assert (Hq : INR (N + 1) / INR (w + 1) <= INR (N + 1) / INR (v + 1)).
  { unfold Rdiv. apply Rmult_le_compat_l; [lra|]. now apply Rinv_le_contravar. }
  assert (Hpos : 0 < INR (N + 1) / INR (w + 1)) by now apply Rdiv_lt_0_compat.
  destruct Hq as [Hq|Hq]; [|rewrite Hq; lra].
  pose proof (ln_increasing _ _ Hpos Hq). lra.
Qed.

(** X6.  The table of [makeIdf] has an entry only for a non-empty token that
    some text has among its tokens; the entry is
    [ln((N + 1) / (df + 1)) + 1], where [df] counts a text once however often
    it has the token; it lies between 1 and [ln((N + 1) / 2) + 1], so the
    fallback [|| 0.5] never replaces an entry; and of two entries the one of
    the token that fewer texts have is not the smaller. *)
Theorem idf_table_entries (docs : list jsstr) (t : jsstr) (v : R) :
  Retrieval.makeIdf docs !! t = Some v ->
  t <> []
  /\ (exists d, In d docs /\ In t (Retrieval.pieces d))
  /\ v = ln (INR (length docs + 1) / INR (df docs t + 1)) + 1
  /\ 1 <= v <= ln (INR (length docs + 1) / 2) + 1
  /\ Retrieval.weightOf (Retrieval.makeIdf docs) t = v
  /\ forall t' v', Retrieval.makeIdf docs !! t' = Some v' ->
       (df docs t <= df docs t')%nat -> v' <= v.
Proof.
  intros Hv.
  assert (Hgen : forall t v, Retrieval.makeIdf docs !! t = Some v ->
             t <> [] /\ (df docs t =? 0)%nat = false
             /\ v = Retrieval.idfOf (length docs) (df docs t)).
  { intros t0 v0 H0.
    assert (Ht : t0 <> []) by (intros ->; now rewrite makeIdf_empty in H0).
    rewrite (makeIdf_lookup docs t0 Ht) in H0.
    destruct (df docs t0 =? 0)%nat; [discriminate|].
    split; [exact Ht|]. split; [reflexivity|]. now inversion H0. }
  destruct (Hgen t v Hv) as (Ht & Hz & ->).
  destruct (df_positive docs t Hz) as [Hge Hd].
  split; [exact Ht|]. split; [exact Hd|]. split; [reflexivity|].
  assert (H1 : 1 <= Retrieval.idfOf (length docs) (df docs t))
    by apply idfOf_ge_1, df_le.
  split; [|split].
  - split; [exact H1|].
    pose proof (idfOf_antitone (length docs) 1 (df docs t) Hge) as Hle.
    unfold Retrieval.idfOf in Hle at 2. simpl INR in Hle.
    replace (1 + 1) with 2 in Hle by lra. exact Hle.
  - unfold Retrieval.weightOf. rewrite Hv.
    destruct (Req_dec_T _ 0) as [H0|_]; [lra | reflexivity].
  - intros t' v' Hv' Hdf. destruct (Hgen t' v' Hv') as (_ & _ & ->).
    now apply idfOf_antitone.
Qed.
End ScoreRange.

Section BestChunk.
Local Open Scope R_scope.

Lemma kwSum_none `{JsHost} (docs : list jsstr) (q txt : jsstr) :
  List.filter (includes (toLowerCase txt)) (queryTokens q) = [] -> kwSum docs q txt = 0.
Proof. intros Hf. unfold kwSum. now rewrite Hf. Qed.

Lemma dot_2 (a b c d : R) : Retrieval.dot [a; b] [c; d] = a * c + b * d.
Proof. unfold Retrieval.dot. simpl. lra. Qed.

Lemma petsIndex_scores :
  exists kw,
    0 <= kw
    /\ @Retrieval.scoreAll exampleHost petsIndex [3 / 5; 4 / 5] (js "birds") (7 / 10)
       = [{| Retrieval.idx := 0; Retrieval.score := 42 / 100 |};
          {| Retrieval.idx := 1; Retrieval.score := 56 / 100 |};
          {| Retrieval.idx := 2; Retrieval.score := 7 / 10 + 3 / 10 * tanh (5 / 10 * kw) |};
          {| Retrieval.idx := 3; Retrieval.score := 672 / 1000 |}].
Proof.
  exists (@kwSum exampleHost (map text (Retrieval.chunks petsIndex)) (js "birds")
            (js "Birds sing at dawn")).
  split; [apply kwSum_nonneg|].
  unfold Retrieval.scoreAll. cbn [Retrieval.chunks petsIndex length seq map].
  unfold Retrieval.fusedScore.
  cbn [Retrieval.chunks Retrieval.vectors petsIndex nth lookup list_lookup fmap option_fmap
       option_map default text textChunk].
  rewrite !kwScore_kwSum, !dot_2.
  rewrite (kwSum_none _ (js "birds") (js "The cat sat on the mat")) by reflexivity.
  rewrite (kwSum_none _ (js "birds") (js "A dog barked at the cat")) by reflexivity.
  rewrite (kwSum_none _ (js "birds") (js "Cats and dogs")) by reflexivity.
  replace (5 / 10 * 0) with 0 by lra. rewrite tanh_0.
  repeat f_equal; lra.
Qed.

(** The index of four chunks of two documents, asked for its two best
    chunks on birds, with their neighbours: the chunk on birds, whose vector
    is the embedding of the question and which alone has the word, comes
    first, with a score of 0.7 at least. *)
Lemma retrieve_best_chunk_first_witness :
  exists h rest,
    Retrieval.retrieve (H := exampleHost) (constantService [3 / 5; 4 / 5]) petsIndex
      (js "birds") 2 1 (7 / 10) = Ok (h :: rest)
    /\ Retrieval.hit_chunk h = Some (textChunk "/docs/a.md" 2 "Birds sing at dawn")
    /\ 7 / 10 <= Retrieval.hit_score h.
Proof.
  destruct (retrieve_best_chunk_first (H := exampleHost) (constantService [3 / 5; 4 / 5])
              petsIndex (js "birds") 2 1 (7 / 10) [3 / 5; 4 / 5] [])
    as (h & rest & i & c & Hr & Hc & Hh & Hsi & Hmax).
  - reflexivity.
  - split; [reflexivity | repeat constructor].
  - lia.
  - simpl. lia.
  - exists h, rest. split; [exact Hr|].
    destruct petsIndex_scores as (kw & Hkw & Hscores). rewrite Hscores in Hsi, Hmax.
    pose proof (tanh_nonneg (5 / 10 * kw) ltac:(lra)) as Ht.
    pose proof (Hmax _ (or_intror (or_intror (or_introl eq_refl)))) as Hbest.
    cbn [Retrieval.score] in Hbest.
    destruct i as [|[|[|[|i]]]]; try discriminate Hsi;
      injection Hsi as Hscore; rewrite <- Hscore in Hbest.
    + exfalso. lra.
    + exfalso. lra.
    + rewrite Hh. injection Hc as <-. split; [reflexivity|]. rewrite <- Hscore. lra.
    + exfalso. lra.
Defined.
End BestChunk.

Lemma fused_score_between_witness :
  let index := catIndex in
  let idf := Retrieval.makeIdf (H := exampleHost) (map text (Retrieval.chunks index)) in
  let kw := Retrieval.kwScore (H := exampleHost) (js "cat")
              (default [] (text <$> Retrieval.chunks index !! 0)) idf in
  let sem := Retrieval.dot [1%R] (nth 0 (Retrieval.vectors index) []) in
  (0 <= kw)%R
  /\ (0 <= tanh (5 / 10 * kw) < 1)%R
  /\ (7 / 10 * sem
      <= Retrieval.fusedScore (H := exampleHost) index [1%R] (js "cat") idf (7 / 10) 0
      <= 7 / 10 * sem + (1 - 7 / 10))%R.
Proof.
  apply (fused_score_between (H := exampleHost) catIndex [1%R] (js "cat") (7 / 10)%R 0).
  - split; [reflexivity | repeat constructor].
  - simpl. lia.
  - lra.
Defined.

Lemma idf_table_entries_witness :
  exists v,
    Retrieval.makeIdf (H := exampleHost) [js "cat"; js "a cat"; js "dog"] !! js "cat" = Some v
    /\ (1 <= v <= ln (INR 4 / 2) + 1)%R
    /\ Retrieval.weightOf (Retrieval.makeIdf (H := exampleHost) [js "cat"; js "a cat"; js "dog"])
         (js "cat") = v.
Proof.
  assert (Hl : Retrieval.makeIdf (H := exampleHost) [js "cat"; js "a cat"; js "dog"] !! js "cat"
               = Some (ln (INR 4 / INR 3) + 1)%R).
  { rewrite makeIdf_lookup by discriminate.
    replace (df (H := exampleHost) [js "cat"; js "a cat"; js "dog"] (js "cat")) with 2
      by (vm_compute; reflexivity).
    reflexivity. }
  exists (ln (INR 4 / INR 3) + 1)%R. split; [exact Hl|].
  destruct (idf_table_entries (H := exampleHost) _ _ _ Hl) as (_ & _ & _ & Hb & Hw & _).
  split; [exact Hb | exact Hw].
Defined.

(** ** The context of prompt.ts *)

Lemma keepBlocks_from (maxChars : Z) (passages : list Prompt.Passage) :
  forall used : Z,
  exists k,
    k <= length passages
    /\ Prompt.keepBlocks maxChars used passages = map Prompt.block (take k passages)
    /\ (0 < k -> (used + charged (take k passages) <= maxChars)%Z)
    /\ (k < length passages -> (maxChars < used + charged (take (S k) passages))%Z).
Proof.
  induction passages as [|p rest IH]; intros used.
  - exists 0. cbn [length take firstn map Prompt.keepBlocks].
    split; [lia|]. split; [reflexivity|]. split; intros Hk; lia.
  - cbn [Prompt.keepBlocks].
    destruct (maxChars <? used + Z.of_nat (length (Prompt.block p)) + 4)%Z eqn:Hcut.
    + exists 0. apply Z.ltb_lt in Hcut. cbn [length take firstn map].
      split; [lia|]. split; [reflexivity|]. split; [intros Hk; lia|].
      intros _. cbn [charged fold_right]. rewrite take_0. cbn [fold_right]. lia.
    + apply Z.ltb_ge in Hcut.
      destruct (IH (used + Z.of_nat (length (Prompt.block p)) + 4)%Z)
        as (k & Hk & Heq & Hfit & Hstop).
      exists (S k). change (take (S k) (p :: rest)) with (p :: take k rest).
      change (take (S (S k)) (p :: rest)) with (p :: take (S k) rest).
      cbn [map charged fold_right length]. fold (charged (take k rest)).
      fold (charged (take (S k) rest)).
      split; [lia|]. split; [now rewrite Heq|]. split.
      * intros _. destruct k as [|k].
        -- rewrite take_0. cbn [charged fold_right]. lia.
        -- specialize (Hfit ltac:(lia)). lia.
      * intros Hlt. specialize (Hstop ltac:(lia)). lia.
Qed.

(** X7.  [buildContext] keeps the blocks of the first [k] passages, in order,
    for the largest [k] whose blocks, counted with 4 more for each, fit in
    [maxChars]: it stops at the first block that does not fit and never looks
    further.  The context is longer than what was counted: the separator has
    7 code units, so a context of [k] blocks has [3 * k - 7] code units more
    than the count, and may exceed [maxChars]. *)
Theorem buildContext_greedy (passages : list Prompt.Passage) (maxChars : Z) :
  exists k,
    k <= length passages
    /\ Prompt.keepBlocks maxChars 0 passages = map Prompt.block (take k passages)
    /\ (0 < k -> (charged (take k passages) <= maxChars)%Z)
    /\ (k < length passages -> (maxChars < charged (take (S k) passages))%Z)
    /\ (0 < k ->
        Z.of_nat (length (Prompt.buildContext passages maxChars))
        = (charged (take k passages) + 3 * Z.of_nat k - 7)%Z).
Proof.
  destruct (keepBlocks_from maxChars passages 0) as (k & Hk & Heq & Hfit & Hstop).
  exists k. split; [exact Hk|]. split; [exact Heq|].
  split; [intros H; specialize (Hfit H); lia|].
  split; [intros H; specialize (Hstop H); lia|].
  intros Hpos. unfold Prompt.buildContext. rewrite Heq.
  assert (Hne : map Prompt.block (take k passages) <> []).
  { destruct passages as [|p rest]; [simpl in Hk; lia|].
    destruct k; [lia | discriminate]. }
  pose proof (join_length Search.SEPARATOR _ Hne) as Hj.
  assert (Hlen : length (take k passages) = k) by (rewrite length_take; lia).
  revert Hj Hlen. generalize (take k passages) as ps. clear.
  intros ps Hj Hlen.
  assert (Hsum : Z.of_nat (fold_right (fun x s => length x + length Search.SEPARATOR + s) 0
                             (map Prompt.block ps))
                 = (charged ps + 3 * Z.of_nat (length ps))%Z).
  { clear. induction ps as [|p ps IH]; [reflexivity|].
    cbn [map fold_right charged length]. fold (charged ps).
    change (length Search.SEPARATOR) with 7 in *.
    rewrite !Nat2Z.inj_add, IH. generalize (charged ps). intros; lia. }
  change (length Search.SEPARATOR) with 7 in Hj, Hsum.
  rewrite <- Hj, Hlen in Hsum. revert Hsum. generalize (charged ps).
  generalize (length (join Search.SEPARATOR (map Prompt.block ps))). intros; lia.
Qed.

(** Three passages whose blocks have 10 code units each are counted as 42
    and give a context of 44: [maxChars = 42] is exceeded. *)
Example buildContext_exceeds_maxChars :
  length (Prompt.buildContext
            (repeat {| Prompt.source_name := js "a"; Prompt.section := None;
                       Prompt.text := js "012345" |} 3) 42) = 44.
Proof. reflexivity. Qed.

(** ** Retries and batches of the build script *)

(** X8.  [embedWithRetry] with at least one attempt makes between one and
    [attempts] requests, one after the other: every request but the last
    failed with a status that is 429 or in 500..599; the last one either
    succeeded, and its data is the result, or failed, and its failure is
    thrown because its status is another one or because it was attempt
    number [attempts]. *)
Theorem embedWithRetry_attempts (client : EmbeddingService) (attempts n : nat)
    (inputs : list jsstr) :
  0 < attempts ->
  exists k,
    k < attempts
    /\ snd (BuildScript.embedWithRetry client attempts n inputs) = n + S k
    /\ (forall j, j < k ->
          exists code, client (n + j) BuildScript.EMBED_MODEL inputs = Failure code
                       /\ BuildScript.retriable code = true)
    /\ match fst (BuildScript.embedWithRetry client attempts n inputs) with
       | Ok data => client (n + k) BuildScript.EMBED_MODEL inputs = Embeddings data
       | Err e =>
           exists code,
             e = EmbeddingFailed code
             /\ client (n + k) BuildScript.EMBED_MODEL inputs = Failure code
             /\ (BuildScript.retriable code = false \/ S k = attempts)
       end.
Proof.
  revert n. induction attempts as [|left IH]; intros n Hpos; [lia|].
  cbn [BuildScript.embedWithRetry].
  destruct (client n BuildScript.EMBED_MODEL inputs) as [data|code] eqn:Hc.
  - exists 0. rewrite Nat.add_0_r. cbn [fst snd].
    split; [lia|]. split; [lia|]. split; [intros j Hj; lia | exact Hc].
  - destruct (BuildScript.retriable code) eqn:Hr; cbn [negb orb].
    + destruct left as [|left].
      * cbn [Nat.eqb fst snd]. exists 0. rewrite Nat.add_0_r.
        split; [lia|]. split; [lia|]. split; [intros j Hj; lia|].
        exists code. auto.
      * change (S left =? 0) with false. cbv iota.
        destruct (IH (S n) ltac:(lia)) as (k & Hk & Hn & Hbefore & Hlast).
        exists (S k). split; [lia|]. split; [rewrite Hn; lia|]. split.
        -- intros j Hj. destruct j as [|j].
           ++ rewrite Nat.add_0_r. eauto.
           ++ replace (n + S j) with (S n + j) by lia. apply Hbefore. lia.
        -- replace (n + S k) with (S n + k) by lia.
           destruct (fst (BuildScript.embedWithRetry client (S left) (S n) inputs));
             [exact Hlast|].
           destruct Hlast as (c & -> & Hc' & Hwhy). exists c.
           split; [reflexivity|]. split; [exact Hc'|]. destruct Hwhy; [now left | right; lia].
    + cbn [fst snd]. exists 0. rewrite Nat.add_0_r.
      split; [lia|]. split; [lia|]. split; [intros j Hj; lia|].
      exists code. auto.
Qed.

(** Two failures with status 429, then an answer: three requests. *)
Lemma embedWithRetry_attempts_witness :
  exists k,
    k < 4
    /\ snd (BuildScript.embedWithRetry (flakyService 2 429 [3; 4]%R) 4 0 [js "a"]) = 0 + S k
    /\ (forall j, j < k ->
          exists code,
            flakyService 2 429 [3; 4]%R (0 + j) BuildScript.EMBED_MODEL [js "a"] = Failure code
            /\ BuildScript.retriable code = true)
    /\ match fst (BuildScript.embedWithRetry (flakyService 2 429 [3; 4]%R) 4 0 [js "a"]) with
       | Ok data =>
           flakyService 2 429 [3; 4]%R (0 + k) BuildScript.EMBED_MODEL [js "a"] = Embeddings data
       | Err e =>
           exists code,
             e = EmbeddingFailed code
             /\ flakyService 2 429 [3; 4]%R (0 + k) BuildScript.EMBED_MODEL [js "a"]
                = Failure code
             /\ (BuildScript.retriable code = false \/ S k = 4)
       end.
Proof.
  apply (embedWithRetry_attempts (flakyService 2 429 [3; 4]%R) 4 0 [js "a"]). lia.
Defined.

Lemma batchesFuel_concat {A} (size : nat) :
  0 < size ->
  forall (fuel : nat) (l : list A),
    length l <= fuel -> concat (BuildScript.batchesFuel fuel size l) = l.
Proof.
  intros Hs. induction fuel as [|fuel IH]; intros l Hl.
  - destruct l; [reflexivity | simpl in Hl; lia].
  - cbn [BuildScript.batchesFuel]. destruct l as [|x l]; [reflexivity|].
    cbn [concat]. rewrite IH; [apply take_drop|].
    rewrite length_drop. simpl in *. lia.
Qed.

Lemma batches_concat {A} (size : nat) (l : list A) :
  0 < size -> concat (BuildScript.batches size l) = l.
Proof. intros Hs. now apply batchesFuel_concat. Qed.

Lemma embedBatches_per_input (client : EmbeddingService) (f : jsstr -> list R) :
  (forall n inputs, client n BuildScript.EMBED_MODEL inputs = Embeddings (map f inputs)) ->
  forall (bs : list (list Chunk)) (n : nat) (acc : list (list R)),
    BuildScript.embedBatches client n bs acc
    = Ok (acc ++ map (fun c => BuildScript.l2 (f (text c))) (concat bs)).
Proof.
  intros Hf. induction bs as [|b bs IH]; intros n acc; cbn [BuildScript.embedBatches].
  - cbn [concat map]. now rewrite app_nil_r.
  - cbn [BuildScript.embedWithRetry]. rewrite Hf. rewrite IH.
    cbn [concat]. rewrite map_app, <- app_assoc, !map_map. reflexivity.
Qed.

Lemma buildOut_per_input `{JsHost} (env : BuildScript.Env) (f : jsstr -> list R)
    (key : jsstr) :
  (forall n inputs,
      BuildScript.client env n BuildScript.EMBED_MODEL inputs = Embeddings (map f inputs)) ->
  BuildScript.apiKeyFromEnv (BuildScript.OPENAI_API_KEY env) = Ok key ->
  0 < length (BuildScript.listFiles env (BuildScript.DOCS_DIR env)) ->
  0 < length (BuildScript.collectChunks env
                (BuildScript.listFiles env (BuildScript.DOCS_DIR env))) ->
  BuildScript.buildOut env
  = Ok (BuildScript.collectChunks env (BuildScript.listFiles env (BuildScript.DOCS_DIR env)),
        map (fun c => BuildScript.l2 (f (text c)))
          (BuildScript.collectChunks env
             (BuildScript.listFiles env (BuildScript.DOCS_DIR env)))).
Proof.
  intros Hf Hkey Hfiles Hchunks. unfold BuildScript.buildOut, mbind, result_bind.
  rewrite Hkey.
  destruct (Nat.eqb_spec (length (BuildScript.listFiles env (BuildScript.DOCS_DIR env))) 0)
    as [Hz|_]; [lia|].
  destruct (Nat.eqb_spec (length (BuildScript.collectChunks env
              (BuildScript.listFiles env (BuildScript.DOCS_DIR env)))) 0) as [Hz|_]; [lia|].
  rewrite (embedBatches_per_input _ f Hf), batches_concat by (unfold BuildScript.BATCH; lia).
  cbn [app]. rewrite length_map, Nat.eqb_refl. reflexivity.
Qed.

(** X9.  In a run of the build script whose key is accepted and whose
    documents, read as [readTextGeneric] gives them, make up at least one
    chunk: when the service answers every request with one vector per input
    ([f] of the input), the run gets to its index; its chunks are the chunks
    of the documents in the order of [listFiles], and the vector at every
    position is the normalized vector of the text of the chunk at that
    position, so that batching by 64 is invisible. *)
Theorem main_embeds_every_chunk_in_order `{JsHost} (env : BuildScript.Env)
    (f : jsstr -> list R) (key : jsstr) :
  (forall n inputs,
      BuildScript.client env n BuildScript.EMBED_MODEL inputs = Embeddings (map f inputs)) ->
  BuildScript.apiKeyFromEnv (BuildScript.OPENAI_API_KEY env) = Ok key ->
  0 < length (BuildScript.listFiles env (BuildScript.DOCS_DIR env)) ->
  0 < length (BuildScript.collectChunks env
                (BuildScript.listFiles env (BuildScript.DOCS_DIR env))) ->
  exists chunks vectors,
    BuildScript.buildOut env = Ok (chunks, vectors)
    /\ chunks = BuildScript.collectChunks env
                  (BuildScript.listFiles env (BuildScript.DOCS_DIR env))
    /\ length vectors = length chunks
    /\ forall i c, chunks !! i = Some c ->
         vectors !! i = Some (BuildScript.l2 (f (text c))).
Proof.
  intros Hf Hkey Hfiles Hchunks. eexists _, _.
  split; [exact (buildOut_per_input env f key Hf Hkey Hfiles Hchunks)|].
  split; [reflexivity|]. split; [apply length_map|].
  intros i c Hc. now rewrite list_lookup_fmap, Hc.
Qed.

Lemma libraryFiles_NoDup : NoDup libraryFiles.
Proof. apply (bool_decide_unpack _). vm_compute. reflexivity. Qed.

Lemma libraryEnv_chunks :
  map (fun c => (source_name c, order c))
    (BuildScript.collectChunks (H := exampleHost) libraryEnv libraryFiles)
  = [(js "a.md", 0); (js "a.md", 1); (js "a.md", 2);
     (js "b.md", 0); (js "b.md", 1); (js "b.md", 2)]
    ++ map (fun k => (js "n" ++ decimal k ++ js ".md", 0)) (seq 0 60).
Proof. vm_compute. reflexivity. Qed.

Lemma libraryEnv_count :
  length (BuildScript.collectChunks (H := exampleHost) libraryEnv libraryFiles) = 66.
Proof.
  pose proof libraryEnv_chunks as Hc. apply (f_equal (@length _)) in Hc.
  rewrite length_map in Hc. rewrite Hc. reflexivity.
Qed.

(** The build over the library: 66 chunks, embedded in two batches. *)
Lemma main_embeds_every_chunk_in_order_witness :
  BuildScript.BATCH < length (BuildScript.collectChunks (H := exampleHost) libraryEnv
                                libraryFiles)
  /\ exists chunks vectors,
       BuildScript.buildOut (H := exampleHost) libraryEnv = Ok (chunks, vectors)
       /\ chunks = BuildScript.collectChunks (H := exampleHost) libraryEnv libraryFiles
       /\ length vectors = length chunks
       /\ forall i c, chunks !! i = Some c ->
            vectors !! i = Some (BuildScript.l2 (byLength (text c))).
Proof.
  split; [rewrite libraryEnv_count; unfold BuildScript.BATCH; lia|].
  apply (main_embeds_every_chunk_in_order (H := exampleHost) libraryEnv byLength
           (js "sk-test")).
  - reflexivity.
  - vm_compute. reflexivity.
  - vm_compute. lia.
  - change (BuildScript.listFiles libraryEnv (BuildScript.DOCS_DIR libraryEnv))
      with libraryFiles.
    rewrite libraryEnv_count. lia.
Defined.

(** ** Identity and sections of the chunks *)

Lemma decimalFuel_value (fuel : nat) :
  forall (n : nat) (acc : jsstr),
    n < fuel ->
    exists ds,
      decimalFuel fuel n acc = ds ++ acc
      /\ forall v, fold_left (fun v c => 10 * v + (N.to_nat c - 48)) ds v
                   = v * 10 ^ length ds + n.
Proof.
  induction fuel as [|fuel IH]; intros n acc Hn; [lia|].
  cbn [decimalFuel].
  assert (Hd : N.to_nat (digit (n mod 10)) - 48 = n mod 10) by (unfold digit; lia).
  destruct (n / 10 =? 0) eqn:Hq.
  - apply Nat.eqb_eq in Hq. exists [digit (n mod 10)]. split; [reflexivity|].
    intros v. cbn [fold_left length]. rewrite Hd.
    pose proof (Nat.div_mod_eq n 10). rewrite Nat.pow_1_r. lia.
  - apply Nat.eqb_neq in Hq.
    assert (Hlt : n / 10 < fuel).
    { pose proof (Nat.div_mod_eq n 10). lia. }
    destruct (IH (n / 10) (digit (n mod 10) :: acc) Hlt) as (ds & Heq & Hval).
    exists (ds ++ [digit (n mod 10)]). split.
    + rewrite Heq, <- app_assoc. reflexivity.
    + intros v. rewrite fold_left_app, Hval. cbn [fold_left]. rewrite Hd.
      rewrite length_app, Nat.pow_add_r. cbn [length].
      pose proof (Nat.div_mod_eq n 10). rewrite Nat.pow_1_r. nia.
Qed.

Lemma decimal_inj (a b : nat) : decimal a = decimal b -> a = b.
Proof.
  unfold decimal. intros Heq.
  destruct (decimalFuel_value (S a) a [] ltac:(lia)) as (da & Ha & Hva).
  destruct (decimalFuel_value (S b) b [] ltac:(lia)) as (db & Hb & Hvb).
  rewrite Ha, Hb, !app_nil_r in Heq. subst db.
  specialize (Hva 0). specialize (Hvb 0). lia.
Qed.

Section ScriptChunks.
Context `{JsHost}.
Variables (sourcePath : jsstr) (target overlap : nat).
Variables (P : Chunk -> Prop) (Q : option jsstr -> Prop).
Hypothesis HP : forall sec t n, Q sec -> P (BuildScript.mkChunk sourcePath sec t n).

Lemma script_emit_made (st : BuildScript.Bundle) :
  Q (BuildScript.currentSection st) ->
  Forall P (BuildScript.out st) ->
  Forall P (BuildScript.out (BuildScript.emit sourcePath st))
  /\ BuildScript.currentSection (BuildScript.emit sourcePath st)
     = BuildScript.currentSection st.
Proof.
  intros Hq Hst. unfold BuildScript.emit. destruct (_ || _); [now split|]. simpl.
  split; [|reflexivity]. apply Forall_app; split; [exact Hst|].
  constructor; [now apply HP | constructor].
Qed.

Lemma script_pushSub_made (sec : option jsstr) (st : BuildScript.Sub) :
  Q sec -> Forall P (BuildScript.sub_out st) ->
  Forall P (fst (BuildScript.pushSub sourcePath sec st)).
Proof.
  intros Hq Hst. unfold BuildScript.pushSub. destruct (_ && _); [|exact Hst]. simpl.
  apply Forall_app; split; [exact Hst|]. constructor; [now apply HP | constructor].
Qed.

Lemma script_subSplit_made (sec : option jsstr) (piece : jsstr) (o : list Chunk) (n : nat) :
  Q sec -> Forall P o ->
  Forall P (fst (BuildScript.subSplit sourcePath target overlap sec piece o n)).
Proof.
  intros Hq Ho. unfold BuildScript.subSplit.
  set (st := fold_left _ _ _).
  assert (Hst : Forall P (BuildScript.sub_out st)).
  { apply (fold_left_inv (fun s => Forall P (BuildScript.sub_out s))); [|exact Ho].
    intros s l Hs. unfold BuildScript.subLine. simpl.
    destruct (_ && _); [|exact Hs]. unfold BuildScript.flushCur.
    pose proof (script_pushSub_made sec s Hq Hs) as Hp.
    destruct (BuildScript.pushSub _ _ _) as [o' n']. simpl in Hp.
    destruct (0 <? overlap); exact Hp. }
  destruct (_ =? 0); [exact Hst | now apply script_pushSub_made].
Qed.

Lemma script_bundleBlock_made (st : BuildScript.Bundle) (b : BuildScript.Block) :
  Q (BuildScript.sectionOf (BuildScript.headingTrail b)) ->
  Q (BuildScript.currentSection st) /\ Forall P (BuildScript.out st) ->
  Q (BuildScript.currentSection (BuildScript.bundleBlock sourcePath target overlap st b))
  /\ Forall P (BuildScript.out (BuildScript.bundleBlock sourcePath target overlap st b)).
Proof.
  intros Hb [Hq Hst]. unfold BuildScript.bundleBlock.
  destruct (3 * target <? _).
  - pose proof (script_subSplit_made (BuildScript.sectionOf (BuildScript.headingTrail b))
                  (BuildScript.block_text b) _ (BuildScript.next_order st) Hb Hst) as Hs.
    destruct (BuildScript.subSplit _ _ _ _ _ _ _) as [o n]. simpl. now split.
  - simpl. destruct (_ && _); [|destruct (_ =? 0); simpl; now split].
    destruct (script_emit_made st Hq Hst) as [Hout _].
    destruct (0 <? overlap); simpl; now split.
Qed.

Lemma script_chunks_made (raw : jsstr) :
  Q None ->
  Forall (fun b => Q (BuildScript.sectionOf (BuildScript.headingTrail b)))
    (BuildScript.toBlocks raw) ->
  Forall P (BuildScript.chunkStructured sourcePath target overlap raw).
Proof.
  intros Hnone Hbs. unfold BuildScript.chunkStructured.
  set (start := {| BuildScript.out := []; BuildScript.next_order := 0;
                   BuildScript.acc := []; BuildScript.accLen := 0;
                   BuildScript.currentSection :=
                     match BuildScript.toBlocks raw with
                     | b :: _ => BuildScript.sectionOf (BuildScript.headingTrail b)
                     | [] => None
                     end |}).
  assert (Hstart : Q (BuildScript.currentSection start) /\ Forall P (BuildScript.out start)).
  { split; [|constructor]. simpl. destruct Hbs; [exact Hnone | assumption]. }
  assert (Hst : Q (BuildScript.currentSection
                     (fold_left (BuildScript.bundleBlock sourcePath target overlap)
                        (BuildScript.toBlocks raw) start))
                /\ Forall P (BuildScript.out
                     (fold_left (BuildScript.bundleBlock sourcePath target overlap)
                        (BuildScript.toBlocks raw) start))).
  { revert Hstart. generalize start. induction Hbs as [|b bs Hb _ IH]; intros s Hs; [exact Hs|].
    cbn [fold_left]. apply IH. now apply script_bundleBlock_made. }
  destruct Hst as [Hq Hout].
  destruct (_ =? 0); [exact Hout | now apply script_emit_made].
Qed.
End ScriptChunks.

Section ChunkIdentity.
Context `{JsHost}.

Lemma numbered_ids (sourcePath : jsstr) (name : nat -> Chunk -> jsstr) (cs : list Chunk) :
  (forall a b ca cb, name a ca = name b cb -> a = b) ->
  (forall k c, cs !! k = Some c -> order c = k /\ id c = name (order c) c) ->
  NoDup (map id cs).
Proof.
  intros Hinj Hcs. apply NoDup_alt. intros i j x Hi Hj.
  rewrite list_lookup_fmap in Hi, Hj.
  destruct (cs !! i) as [ci|] eqn:Hci; [|discriminate].
  destruct (cs !! j) as [cj|] eqn:Hcj; [|discriminate].
  injection Hi as <-. injection Hj as Hj.
  destruct (Hcs i ci Hci) as [Hoi Hidi], (Hcs j cj Hcj) as [Hoj Hidj].
  rewrite Hidi, Hidj in Hj. rewrite <- Hoi, <- Hoj. symmetry. exact (Hinj _ _ _ _ Hj).
Qed.

(** X10.  The chunker of the build script numbers the chunks of a document
    from 0 in the order in which it returns them, and names the [k]-th
    [<basename>::<k>]: within a document no two chunks share an id, and the
    [k]-th chunks of two documents with the same base name have the same id
    whatever their directories and texts. *)
Theorem script_chunk_ids (sourcePath raw : jsstr) (target overlap : nat) :
  let cs := BuildScript.chunkStructured sourcePath target overlap raw in
  (forall k c, cs !! k = Some c ->
      order c = k
      /\ id c = basename sourcePath ++ js "::" ++ decimal k
      /\ source_name c = basename sourcePath
      /\ source_path c = sourcePath)
  /\ NoDup (map id cs)
  /\ forall otherPath otherRaw k c c',
       basename otherPath = basename sourcePath ->
       cs !! k = Some c ->
       BuildScript.chunkStructured otherPath target overlap otherRaw !! k = Some c' ->
       id c' = id c.
Proof.
  intros cs.
  assert (Hall : forall p r k c,
             BuildScript.chunkStructured p target overlap r !! k = Some c ->
             order c = k /\ id c = basename p ++ js "::" ++ decimal k
             /\ source_name c = basename p /\ source_path c = p).
  { intros p r k c Hk.
    destruct (script_chunks_numbered p target overlap r) as [_ Hnum].
    destruct (Hnum k c Hk) as [Ho Hp].
    pose proof (script_chunks_made p target overlap
                  (fun c => id c = basename p ++ js "::" ++ decimal (order c)
                            /\ source_name c = basename p)
                  (fun _ => True) (fun sec t n _ => conj eq_refl eq_refl) r I) as Hmade.
    assert (Hc : id c = basename p ++ js "::" ++ decimal (order c)
                 /\ source_name c = basename p).
    { eapply (proj1 (List.Forall_forall _ _) (Hmade ltac:(apply Forall_true; auto)) c).
      apply list_elem_of_In. eapply list_elem_of_lookup_2, Hk. }
    destruct Hc as [Hid Hname]. rewrite Ho in Hid. auto. }
  split; [intros k c; apply Hall|]. split.
  - apply (numbered_ids sourcePath
             (fun k _ => basename sourcePath ++ js "::" ++ decimal k)).
    + intros a b _ _ Heq. apply app_inv_head in Heq. apply app_inv_head in Heq.
      now apply decimal_inj.
    + intros k c Hk. destruct (Hall _ _ k c Hk) as (Ho & Hid & _).
      split; [exact Ho|]. now rewrite Ho.
  - intros p' r' k c c' Hbase Hc Hc'.
    destruct (Hall _ _ k c Hc) as (_ & -> & _).
    destruct (Hall _ _ k c' Hc') as (_ & -> & _). now rewrite Hbase.
Qed.
End ChunkIdentity.

Section LibChunks.
Context `{JsHost}.
Variables (sourcePath : jsstr) (targetChars overlapChars : nat).
Variables (P : Chunk -> Prop) (Q : option jsstr -> Prop).
Hypothesis HP : forall sec t n,
  Q sec ->
  P {| id := sha1 (sourcePath ++ js "::" ++ decimal n ++ js "::" ++ default [] sec
                   ++ js "::" ++ take 64 t);
       source_name := ChunkLib.sourceNameOf sourcePath;
       source_path := sourcePath; section := sec; text := t; order := n |}.

Lemma lib_emit_made (st : ChunkLib.Bundle) :
  Q (ChunkLib.currentSection st) ->
  Forall P (ChunkLib.chunks st) ->
  numbered sourcePath (ChunkLib.chunks st) (ChunkLib.next_order st) ->
  Q (ChunkLib.currentSection (ChunkLib.emit sourcePath st))
  /\ Forall P (ChunkLib.chunks (ChunkLib.emit sourcePath st))
  /\ numbered sourcePath (ChunkLib.chunks (ChunkLib.emit sourcePath st))
       (ChunkLib.next_order (ChunkLib.emit sourcePath st)).
Proof.
  intros Hq Hst Hnum. unfold ChunkLib.emit.
  destruct (truthy _); [|split; [exact Hq | split; [exact Hst | exact Hnum]]]. simpl.
  split; [exact Hq|]. split.
  - apply Forall_app; split; [exact Hst|]. constructor; [now apply HP | constructor].
  - now apply numbered_snoc.
Qed.

Lemma lib_bundleBlock_made (st : ChunkLib.Bundle) (b : ChunkLib.Block) :
  Q (ChunkLib.sectionOf (ChunkLib.headingTrail b)) ->
  Q (ChunkLib.currentSection st)
  /\ Forall P (ChunkLib.chunks st)
  /\ numbered sourcePath (ChunkLib.chunks st) (ChunkLib.next_order st) ->
  Q (ChunkLib.currentSection (ChunkLib.bundleBlock sourcePath targetChars overlapChars st b))
  /\ Forall P (ChunkLib.chunks (ChunkLib.bundleBlock sourcePath targetChars overlapChars st b))
  /\ numbered sourcePath
       (ChunkLib.chunks (ChunkLib.bundleBlock sourcePath targetChars overlapChars st b))
       (ChunkLib.next_order (ChunkLib.bundleBlock sourcePath targetChars overlapChars st b)).
Proof.
  intros Hb (Hq & Hst & Hnum). unfold ChunkLib.bundleBlock. cbv zeta.
  destruct (_ && _).
  - destruct (lib_emit_made st Hq Hst Hnum) as (_ & Hout & Hnum').
    destruct (0 <? overlapChars); simpl; (split; [exact Hb | split; [exact Hout | exact Hnum']]).
  - destruct (_ =? 0); simpl;
      [split; [exact Hb | split; [exact Hst | exact Hnum]]
      |split; [exact Hq | split; [exact Hst | exact Hnum]]].
Qed.

Lemma lib_chunks_made (raw : jsstr) :
  Q None ->
  Forall (fun b => Q (ChunkLib.sectionOf (ChunkLib.headingTrail b))) (ChunkLib.toBlocks raw) ->
  Forall P (ChunkLib.chunkStructured sourcePath targetChars overlapChars raw)
  /\ numbered sourcePath (ChunkLib.chunkStructured sourcePath targetChars overlapChars raw)
       (length (ChunkLib.chunkStructured sourcePath targetChars overlapChars raw)).
Proof.
  intros Hnone Hbs. unfold ChunkLib.chunkStructured.
  set (start := {| ChunkLib.chunks := []; ChunkLib.next_order := 0;
                   ChunkLib.acc := []; ChunkLib.accLen := 0;
                   ChunkLib.currentSection :=
                     match ChunkLib.toBlocks raw with
                     | b :: _ => ChunkLib.sectionOf (ChunkLib.headingTrail b)
                     | [] => None
                     end |}).
  assert (Hstart : Q (ChunkLib.currentSection start)
                   /\ Forall P (ChunkLib.chunks start)
                   /\ numbered sourcePath (ChunkLib.chunks start) (ChunkLib.next_order start)).
  { split; [|split].
    - simpl. destruct Hbs; [exact Hnone | assumption].
    - constructor.
    - split; [reflexivity|]. intros k c Hk. destruct k; discriminate. }
  assert (Hfold : forall bs,
             Forall (fun b => Q (ChunkLib.sectionOf (ChunkLib.headingTrail b))) bs ->
             forall s,
               Q (ChunkLib.currentSection s) /\ Forall P (ChunkLib.chunks s)
               /\ numbered sourcePath (ChunkLib.chunks s) (ChunkLib.next_order s) ->
               let s' := fold_left (ChunkLib.bundleBlock sourcePath targetChars overlapChars)
                           bs s in
               Q (ChunkLib.currentSection s') /\ Forall P (ChunkLib.chunks s')
               /\ numbered sourcePath (ChunkLib.chunks s') (ChunkLib.next_order s')).
  { clear -HP. induction 1 as [|b bs Hb _ IH]; intros s Hs; [exact Hs|].
    cbn [fold_left]. apply IH. now apply lib_bundleBlock_made. }
  destruct (Hfold _ Hbs start Hstart) as (Hq & Hout & Hnum).
  assert (Hfin : forall s, Forall P (ChunkLib.chunks s) ->
             numbered sourcePath (ChunkLib.chunks s) (ChunkLib.next_order s) ->
             Forall P (ChunkLib.chunks s)
             /\ numbered sourcePath (ChunkLib.chunks s) (length (ChunkLib.chunks s))).
  { intros s Ho [Hn Hs]. split; [exact Ho|]. split; [reflexivity | exact Hs]. }
  destruct (_ =? 0); [now apply Hfin|].
  destruct (lib_emit_made _ Hq Hout Hnum) as (_ & Ho' & Hn'). now apply Hfin.
Qed.
End LibChunks.

(** X11.  The chunker of chunk.ts numbers its chunks from 0 in the order in
    which it returns them; the id of the [k]-th is the digest of the source
    path, [k], the section label (nothing for a chunk without one) and the
    first 64 code units of the text, each pair separated by [::]; its
    [source_name] is what follows the last slash or backslash of the source
    path, or the whole path when nothing follows it. *)
Theorem lib_chunk_identity `{JsHost} (sourcePath raw : jsstr) (targetChars overlapChars : nat) :
  let cs := ChunkLib.chunkStructured sourcePath targetChars overlapChars raw in
  forall k c, cs !! k = Some c ->
    order c = k
    /\ id c = sha1 (sourcePath ++ js "::" ++ decimal k ++ js "::"
                    ++ default [] (section c) ++ js "::" ++ take 64 (text c))
    /\ source_name c = ChunkLib.sourceNameOf sourcePath
    /\ source_path c = sourcePath.
Proof.
  intros cs k c Hk.
  destruct (lib_chunks_made sourcePath targetChars overlapChars
              (fun c => id c = sha1 (sourcePath ++ js "::" ++ decimal (order c) ++ js "::"
                                     ++ default [] (section c) ++ js "::" ++ take 64 (text c))
                        /\ source_name c = ChunkLib.sourceNameOf sourcePath)
              (fun _ => True) (fun sec t n _ => conj eq_refl eq_refl) raw I
              ltac:(apply Forall_true; auto)) as [Hmade [_ Hnum]].
  destruct (Hnum k c Hk) as [Ho Hp].
  assert (Hc : id c = sha1 (sourcePath ++ js "::" ++ decimal (order c) ++ js "::"
                            ++ default [] (section c) ++ js "::" ++ take 64 (text c))
               /\ source_name c = ChunkLib.sourceNameOf sourcePath).
  { apply (proj1 (List.Forall_forall _ _) Hmade c).
    apply list_elem_of_In. eapply list_elem_of_lookup_2, Hk. }
  destruct Hc as [Hid Hname]. rewrite Ho in Hid. auto.
Qed.

(** The one chunk of the text ["hello"] under [/docs/a.md]. *)
Lemma lib_chunk_identity_witness :
  exists c,
    ChunkLib.chunkStructured (H := exampleHost) (js "/docs/a.md") 1200 200 (js "hello") !! 0
    = Some c
    /\ order c = 0
    /\ id c = sha1 (JsHost := exampleHost)
                (js "/docs/a.md" ++ js "::" ++ decimal 0 ++ js "::"
                 ++ default [] (section c) ++ js "::" ++ take 64 (text c))
    /\ source_name c = js "a.md".
Proof.
  destruct (ChunkLib.chunkStructured (H := exampleHost) (js "/docs/a.md") 1200 200
              (js "hello") !! 0) as [c|] eqn:Hc.
  - exists c. split; [reflexivity|].
    destruct (lib_chunk_identity (H := exampleHost) (js "/docs/a.md") (js "hello") 1200 200
                0 c Hc) as (Ho & Hid & Hn & _).
    split; [exact Ho|]. split; [exact Hid|]. rewrite Hn. reflexivity.
  - exfalso. vm_compute in Hc. discriminate Hc.
Defined.







(** ** The index file of the build script *)

(** The build over the library: three chunks for each of the two long
    documents, then one for each short one. *)
Lemma main_orders_follow_positions_witness :
  exists cs vs,
    BuildScript.buildOut (H := exampleHost) libraryEnv = Ok (cs, vs)
    /\ map (fun c => (source_name c, order c)) cs
       = [(js "a.md", 0); (js "a.md", 1); (js "a.md", 2);
          (js "b.md", 0); (js "b.md", 1); (js "b.md", 2)]
         ++ map (fun k => (js "n" ++ decimal k ++ js ".md", 0)) (seq 0 60)
    /\ ordersFollowPositions cs.
Proof.
  assert (Hb : BuildScript.buildOut (H := exampleHost) libraryEnv
               = Ok (BuildScript.collectChunks (H := exampleHost) libraryEnv libraryFiles,
                     map (fun c => BuildScript.l2 (byLength (text c)))
                       (BuildScript.collectChunks (H := exampleHost) libraryEnv libraryFiles))).
  { apply (buildOut_per_input (H := exampleHost) libraryEnv byLength (js "sk-test")).
    - reflexivity.
    - vm_compute. reflexivity.
    - vm_compute. lia.
    - change (BuildScript.listFiles libraryEnv (BuildScript.DOCS_DIR libraryEnv))
        with libraryFiles.
      rewrite libraryEnv_count. lia. }
  eexists _, _. split; [exact Hb|]. split; [exact libraryEnv_chunks|].
  exact (main_orders_follow_positions (H := exampleHost) libraryEnv _ _
           libraryFiles_NoDup Hb).
Defined.

Lemma write_exposes_prefix (pre rest : list fs_op) (path data : jsstr) (d0 : disk) (k : nat) :
  (forall op, In op pre -> exists dir, op = Mkdir dir) ->
  k < length data ->
  In (<[path := take k data]> d0) (observable (pre ++ WriteFile path data :: rest) d0).
Proof.
  intros Hpre Hk. induction pre as [|op pre IH].
  - cbn [app observable opStates]. right. apply in_or_app. left.
    rewrite seq_S, map_app. simpl map at 2. rewrite removelast_last.
    apply in_map_iff. exists k. split; [reflexivity|]. apply in_seq. lia.
  - destruct (Hpre op ltac:(now left)) as [dir ->].
    cbn [app observable opStates removelast List.last]. right.
    apply IH. intros op Hop. apply Hpre. now right.
Qed.

Lemma tmpPath_same (p : jsstr) : BuildScript.endsWithJson p = false -> BuildScript.tmpPath p = p.
Proof. intros Hp. unfold BuildScript.tmpPath. now rewrite Hp. Qed.

Lemma main_ops `{JsHost} (env : BuildScript.Env) (o : json) :
  snd (BuildScript.main env) = Ok o ->
  exists pre,
    fst (BuildScript.main env)
    = pre ++ [WriteFile (BuildScript.tmpPath (BuildScript.INDEX_FILE env)) (stringify 2 o);
              Rename (BuildScript.tmpPath (BuildScript.INDEX_FILE env))
                (BuildScript.INDEX_FILE env)]
    /\ (forall op, In op pre -> exists dir, op = Mkdir dir)
    /\ exists chunks vectors,
         BuildScript.buildOut env = Ok (chunks, vectors)
         /\ o = BuildScript.outJson chunks vectors.
Proof.
  unfold BuildScript.main.
  destruct (BuildScript.buildOut env) as [[chunks vectors]|e]; [|discriminate].
  cbn [fst snd]. intros [= <-].
  exists (if BuildScript.existsSync env (dirname (BuildScript.INDEX_FILE env)) then []
          else [Mkdir (dirname (BuildScript.INDEX_FILE env))]).
  split; [reflexivity|]. split; [|eauto].
  intros op Hop. destruct (BuildScript.existsSync _ _); [destruct Hop|].
  destruct Hop as [<-|[]]. eauto.
Qed.

(** X14.  The temporary path of the build script is [INDEX_FILE] with its
    ending [.json] replaced; for an [INDEX_FILE] without that ending the
    replacement changes nothing, and the script writes the index in place and
    renames the file to itself: whoever reads [INDEX_FILE] during the run may
    find any proper prefix of the new index.  [buildIndexWeb] writes [outFile]
    in place whatever its name. *)
Theorem in_place_writes `{JsHost} (env : BuildScript.Env) (o : json) :
  snd (BuildScript.main env) = Ok o ->
  BuildScript.endsWithJson (BuildScript.INDEX_FILE env) = false ->
  BuildScript.tmpPath (BuildScript.INDEX_FILE env) = BuildScript.INDEX_FILE env
  /\ (forall (d0 : disk) (k : nat),
        k < length (stringify 2 o) ->
        In (<[BuildScript.INDEX_FILE env := take k (stringify 2 o)]> d0)
          (observable (fst (BuildScript.main env)) d0))
  /\ forall (wenv : Indexer.Env) (docsDir outFile : jsstr) (r : nat * nat),
       snd (Indexer.buildIndexWeb wenv docsDir outFile) = Ok r ->
       exists data,
         In (WriteFile outFile data) (fst (Indexer.buildIndexWeb wenv docsDir outFile))
         /\ forall (d0 : disk) (k : nat),
              k < length data ->
              In (<[outFile := take k data]> d0)
                (observable (fst (Indexer.buildIndexWeb wenv docsDir outFile)) d0).
Proof.
  intros Hok Hjson. pose proof (tmpPath_same _ Hjson) as Htmp.
  split; [exact Htmp|]. split.
  - intros d0 k Hk. destruct (main_ops env o Hok) as (pre & Hops & Hpre & _).
    rewrite Hops, Htmp. now apply write_exposes_prefix.
  - intros wenv docsDir outFile r. unfold Indexer.buildIndexWeb.
    destruct (Indexer.buildIndex wenv docsDir) as [index|e]; [|discriminate].
    cbn [fst snd]. intros _. exists (stringify 0 (Indexer.indexJson index)).
    split; [right; now left|]. intros d0 k Hk.
    apply (write_exposes_prefix [Mkdir (dirname outFile)] [] outFile _ d0 k); [|exact Hk].
    intros op [<-|[]]. eauto.
Qed.

(** The build of the examples with the index file [/out/index]. *)
Lemma in_place_writes_witness :
  exists o,
    snd (BuildScript.main (H := exampleHost) (scriptEnvTo (js "/out/index") [3; 4]%R)) = Ok o
    /\ BuildScript.tmpPath (js "/out/index") = js "/out/index"
    /\ forall (d0 : disk) (k : nat),
         k < length (stringify (JsHost := exampleHost) 2 o) ->
         In (<[js "/out/index" := take k (stringify (JsHost := exampleHost) 2 o)]> d0)
           (observable
              (fst (BuildScript.main (H := exampleHost)
                      (scriptEnvTo (js "/out/index") [3; 4]%R))) d0).
Proof.
  eexists. split; [vm_compute; reflexivity|].
  refine (let Hw := in_place_writes (H := exampleHost)
                      (scriptEnvTo (js "/out/index") [3; 4]%R) _ _ _ in
          conj (proj1 Hw) (proj1 (proj2 Hw))).
  - vm_compute. reflexivity.
  - vm_compute. reflexivity.
Defined.

Lemma INR_IZR_eq (n : nat) (z : Z) : INR n = IZR z -> z = Z.of_nat n.
Proof. intros Heq. rewrite INR_IZR_INZ in Heq. now apply eq_IZR in Heq. Qed.

(** X15.  What the build script writes, the readers accept: when [idx] is the
    object of a successful run as a reader parses it, it has as many vectors
    as chunks, at least one, and [dim] is the length of its first vector, so
    that [loadIndex] and [getIndex] return it. *)
Theorem readers_accept_main_index `{JsHost} (env : BuildScript.Env) (o : json)
    (idx : IndexJson) :
  snd (BuildScript.main env) = Ok o ->
  readsAs o idx ->
  0 < lengthOf (ij_chunks idx)
  /\ lengthOf (ij_vectors idx) = lengthOf (ij_chunks idx)
  /\ (forall files path st,
        Search.memoIndex st = None -> files (resolve path) = Parsed (Some idx) ->
        fst (Search.loadIndex files path st) = Ok idx)
  /\ (forall files path,
        files path = Parsed (Some idx) -> fst (Route.getIndex files path None) = Ok idx).
Proof.
  intros Hok (chunks & vectors & Ho & Hchunks & Hvectors).
  destruct (main_ops env o Hok) as (_ & _ & _ & cs & vs & Hb & Hout).
  rewrite Hout in Ho. unfold BuildScript.outJson in Ho.
  injection Ho as Hm Hdim Hcs Hvs.
  apply (f_equal (@length _)) in Hcs. rewrite !length_map in Hcs.
  assert (Hvv : vs = vectors).
  { clear -Hvs. revert vectors Hvs. induction vs as [|v vs IH]; intros [|w ws] Hvs;
      try discriminate; [reflexivity|].
    injection Hvs as Hv Hrest. f_equal; [|now apply IH].
    clear -Hv. revert w Hv. induction v as [|x v IH]; intros [|y w] Hv;
      try discriminate; [reflexivity|].
    injection Hv as -> Hv. f_equal. now apply IH. }
  subst vectors. apply INR_IZR_eq in Hdim.
  destruct (buildOut_vectors env cs vs Hb) as (_ & _ & Hlen).
  assert (Hpos : 0 < length cs).
  { revert Hb. unfold BuildScript.buildOut, mbind, result_bind.
    destruct (BuildScript.apiKeyFromEnv _); [|discriminate].
    destruct (_ =? 0); [discriminate|].
    destruct (length (BuildScript.collectChunks _ _) =? 0) eqn:Hz; [discriminate|].
    apply Nat.eqb_neq in Hz.
    destruct (BuildScript.embedBatches _ _ _ _); [|discriminate].
    destruct (negb _); [discriminate|]. intros [= <- _]. lia. }
  assert (Hload : passesLoadIndex idx).
  { unfold passesLoadIndex. rewrite Hchunks, Hvectors. cbn [lengthOf default].
    rewrite length_map. split; [lia|]. split; [lia|].
    rewrite Hdim. destruct vs; reflexivity. }
  assert (Hget : passesGetIndex idx).
  { unfold passesGetIndex. rewrite Hchunks, Hvectors. cbn [lengthOf].
    rewrite length_map. lia. }
  split; [rewrite Hchunks; cbn [lengthOf]; rewrite length_map; lia|].
  split; [rewrite Hchunks, Hvectors; cbn [lengthOf]; rewrite length_map; lia|].
  split.
  - intros files path st Hm' Hfile. now apply loadIndex_fresh.
  - intros files path Hfile. now apply getIndex_fresh.
Qed.

Lemma readers_accept_main_index_witness :
  exists o idx,
    snd (BuildScript.main (H := exampleHost) (scriptEnv [3; 4]%R)) = Ok o
    /\ readsAs o idx
    /\ 0 < lengthOf (ij_chunks idx)
    /\ lengthOf (ij_vectors idx) = lengthOf (ij_chunks idx)
    /\ forall files path,
         files path = Parsed (Some idx) -> fst (Route.getIndex files path None) = Ok idx.
Proof.
  destruct (BuildScript.buildOut (H := exampleHost) (scriptEnv [3; 4]%R))
    as [[cs vs]|e] eqn:Hb; [|exfalso; vm_compute in Hb; discriminate Hb].
  set (idx := {| ij_model := BuildScript.EMBED_MODEL;
                 ij_dim := Z.of_nat (match vs with v :: _ => length v | [] => 0 end);
                 ij_chunks := Some (map asRagChunk cs);
                 ij_vectors := Some vs |}).
  assert (Hok : snd (BuildScript.main (H := exampleHost) (scriptEnv [3; 4]%R))
                = Ok (BuildScript.outJson cs vs)).
  { unfold BuildScript.main. now rewrite Hb. }
  assert (Hreads : readsAs (BuildScript.outJson cs vs) idx).
  { exists cs, vs. split; [|split; reflexivity].
    unfold BuildScript.outJson, idx. cbn [ij_model ij_dim]. now rewrite <- INR_IZR_INZ. }
  exists (BuildScript.outJson cs vs), idx.
  split; [exact Hok|]. split; [exact Hreads|].
  destruct (readers_accept_main_index (H := exampleHost) (scriptEnv [3; 4]%R) _ idx Hok Hreads)
    as (Hpos & Hlen & _ & Hget).
  split; [exact Hpos|]. split; [exact Hlen | exact Hget].
Defined.

(** ** The three checks of the API key *)

(** X16.  The build script is the strictest of the three places that look at
    [OPENAI_API_KEY]: a key that it accepts is trimmed, starts with [sk-] and
    not with [sk-proj-]; with such a key the request handler never answers
    with its [auth] error, and [buildIndexWeb] never fails for a missing
    key. *)
Theorem accepted_key_passes_everywhere `{JsHost} (key : option jsstr) (k : jsstr) :
  BuildScript.apiKeyFromEnv key = Ok k ->
  k = trim (default [] key)
  /\ k <> []
  /\ startsWith (js "sk-") k = true
  /\ startsWith (js "sk-proj-") k = false
  /\ (forall env question cache,
        AskRoute.OPENAI_API_KEY env = key ->
        fst (AskRoute.POST env question cache) <> AskRoute.AuthError)
  /\ (forall wenv docsDir,
        Indexer.OPENAI_API_KEY wenv = key ->
        Indexer.buildIndex wenv docsDir <> Err ApiKeyMissing).
Proof.
  unfold BuildScript.apiKeyFromEnv.
  destruct (truthy (trim (default [] key))) eqn:Ht; [|discriminate]. cbn [negb].
  destruct (startsWith (js "sk-proj-") _) eqn:Hproj; [discriminate|].
  destruct (startsWith (js "sk-") _) eqn:Hsk; [|discriminate]. cbn [negb].
  intros [= <-].
  assert (Hne : trim (default [] key) <> []) by now apply truthy_nonempty.
  split; [reflexivity|]. split; [exact Hne|]. split; [exact Hsk|]. split; [exact Hproj|].
  split.
  - intros env question cache Hkey. unfold AskRoute.POST. cbv zeta.
    destruct (negb (truthy (trim (default [] question)))); [discriminate|].
    rewrite Hkey, Ht, Hproj. cbn [negb orb].
    destruct (AskRoute.answer _ _ _) as [[[a hits]|e] cache']; discriminate.
  - intros wenv docsDir Hkey. unfold Indexer.buildIndex, mbind, result_bind.
    destruct (_ =? 0); [discriminate|].
    rewrite Hkey.
    assert (Hraw : truthy (default [] key) = true).
    { apply truthy_nonempty. intros Hraw. apply Hne. now rewrite Hraw. }
    rewrite Hraw. cbn [negb].
    destruct (Indexer.embedFiles wenv _ 0 []) as [its|e] eqn:He.
    + destruct its; discriminate.
    + intros [= ->]. revert He. generalize (@nil Indexer.IndexItem) 0.
      induction (Indexer.listFiles wenv docsDir) as [|f files IH]; intros acc n;
        cbn [Indexer.embedFiles]; [discriminate|].
      destruct (negb _); [apply IH|].
      destruct (Indexer.embedSlices _ _ _ _ _ _ _) as [[acc' n']|e] eqn:Hs; [apply IH|].
      intros [= ->]. revert Hs. generalize acc n 0.
      induction (BuildScript.batches _ _) as [|slice rest IHs]; intros acc0 n0 i0;
        cbn [Indexer.embedSlices]; [discriminate|].
      destruct (Indexer.client wenv n0 _ slice); [apply IHs | discriminate].
Qed.

Lemma accepted_key_passes_everywhere_witness :
  js "sk-test" = trim (default [] (Some (js " sk-test ")))
  /\ startsWith (js "sk-") (js "sk-test") = true
  /\ forall env question cache,
       AskRoute.OPENAI_API_KEY env = Some (js " sk-test ") ->
       fst (AskRoute.POST env question cache) <> AskRoute.AuthError.
Proof.
  destruct (accepted_key_passes_everywhere (H := exampleHost) (Some (js " sk-test "))
              (js "sk-test") eq_refl) as (Hk & _ & Hsk & _ & Hpost & _).
  split; [exact Hk|]. split; [exact Hsk | exact Hpost].
Defined.

(** ** The similarity computations *)

Section Similarity.
Local Open Scope R_scope.

Lemma dotProduct_cons (x y : R) (a b : list R) :
  dotProduct (x :: a) (y :: b) = x * y + dotProduct a b.
Proof. reflexivity. Qed.

Lemma sumSquares_cons (x : R) (a : list R) : sumSquares (x :: a) = x * x + sumSquares a.
Proof. reflexivity. Qed.

Lemma dotProduct_self (a : list R) : dotProduct a a = sumSquares a.
Proof.
  induction a as [|x a IH]; [reflexivity|]. rewrite dotProduct_cons, sumSquares_cons, IH. lra.
Qed.

Lemma dotProduct_comm (a b : list R) : dotProduct a b = dotProduct b a.
Proof.
  revert b. induction a as [|x a IH]; intros [|y b]; try reflexivity.
  rewrite !dotProduct_cons, IH. lra.
Qed.

(** Cauchy and Schwarz. *)
Lemma dotProduct_square_le (a b : list R) :
  dotProduct a b * dotProduct a b <= sumSquares a * sumSquares b.
Proof.
  revert b. induction a as [|x a IH]; intros [|y b].
  - unfold dotProduct, sumSquares. simpl. lra.
  - pose proof (sumSquares_nonneg (y :: b)). unfold dotProduct, sumSquares at 1. simpl. lra.
  - pose proof (sumSquares_nonneg (x :: a)). unfold dotProduct, sumSquares at 2. simpl.
    replace (combine (x :: a) []) with (@nil (R * R)) by reflexivity. simpl. lra.
  - rewrite dotProduct_cons, !sumSquares_cons.
    specialize (IH b).
    pose proof (sumSquares_nonneg a) as HA. pose proof (sumSquares_nonneg b) as HB.
    set (d := dotProduct a b) in *. set (A := sumSquares a) in *. set (B := sumSquares b) in *.
    assert (Hmix : 2 * (x * y) * d <= x * x * B + y * y * A).
    { destruct (Rle_dec (2 * (x * y) * d) (x * x * B + y * y * A)) as [Hle|Hgt]; [exact Hle|].
      exfalso. apply Rnot_le_lt in Hgt.
      assert (H0 : 0 <= x * x * B + y * y * A).
      { pose proof (Rle_0_sqr x) as Hx. pose proof (Rle_0_sqr y) as Hy. unfold Rsqr in *.
        apply Rplus_le_le_0_compat; apply Rmult_le_pos; lra. }
      assert (Hsq : (x * x * B + y * y * A) * (x * x * B + y * y * A)
                    < (2 * (x * y) * d) * (2 * (x * y) * d)).
      { apply Rmult_le_0_lt_compat; lra. }
      assert (Hd : (2 * (x * y) * d) * (2 * (x * y) * d) <= 4 * (x * x) * (y * y) * (A * B)).
      { replace ((2 * (x * y) * d) * (2 * (x * y) * d))
          with (4 * (x * x) * (y * y) * (d * d)) by ring.
        apply Rmult_le_compat_l; [|exact IH].
        pose proof (Rle_0_sqr x) as Hx. pose proof (Rle_0_sqr y) as Hy. unfold Rsqr in *.
        apply Rmult_le_pos; [|exact Hy]. lra. }
      pose proof (Rle_0_sqr (x * x * B - y * y * A)) as Hs. unfold Rsqr in Hs.
      nra. }
    nra.
Qed.

Lemma dotProduct_zero_norm (a b : list R) : norm a = 0 -> dotProduct a b = 0.
Proof.
  intros Hn. apply norm_zero_iff in Hn.
  pose proof (dotProduct_square_le a b) as Hcs. rewrite Hn, Rmult_0_l in Hcs.
  pose proof (Rle_0_sqr (dotProduct a b)) as Hsq. unfold Rsqr in Hsq.
  apply Rsqr_0_uniq. unfold Rsqr. lra.
Qed.

Lemma norm_square (a : list R) : norm a * norm a = sumSquares a.
Proof. unfold norm. apply sqrt_sqrt, sumSquares_nonneg. Qed.

Lemma dotProduct_abs_le (a b : list R) :
  - (norm a * norm b) <= dotProduct a b <= norm a * norm b.
Proof.
  pose proof (dotProduct_square_le a b) as Hcs.
  rewrite <- (norm_square a), <- (norm_square b) in Hcs.
  pose proof (norm_nonneg a) as Ha. pose proof (norm_nonneg b) as Hb.
  assert (Hp : 0 <= norm a * norm b) by now apply Rmult_le_pos.
  split.
  - destruct (Rle_dec (- (norm a * norm b)) (dotProduct a b)) as [H|H]; [exact H|].
    exfalso. apply Rnot_le_lt in H. nra.
  - destruct (Rle_dec (dotProduct a b) (norm a * norm b)) as [H|H]; [exact H|].
    exfalso. apply Rnot_le_lt in H. nra.
Qed.

(** X17.  On vectors of one length [cosineSim] stays between -1 and 1, does
    not depend on the order of its arguments, and gives a vector the
    similarity 1 with itself, unless its norm is 0, for which the guard
    gives 0. *)
Theorem cosineSim_range (a b : list R) (c : R) :
  ChunkLib.cosineSim a b = Ok c ->
  -1 <= c <= 1
  /\ ChunkLib.cosineSim b a = Ok c
  /\ ChunkLib.cosineSim a a = Ok (if Req_dec_T (norm a) 0 then 0 else 1).
Proof.
  intros Hc.
  assert (Hl : length a = length b).
  { destruct (Nat.eq_dec (length a) (length b)) as [Hl|Hl]; [exact Hl|].
    unfold ChunkLib.cosineSim in Hc. rewrite (proj2 (Nat.eqb_neq _ _) Hl) in Hc.
    discriminate Hc. }
  rewrite (cosineSim_value a b Hl) in Hc. injection Hc as <-.
  pose proof (norm_nonneg a) as Ha. pose proof (norm_nonneg b) as Hb.
  split; [|split].
  - destruct (Rlt_dec 0 (norm a * norm b)) as [Hd|_]; [|lra].
    pose proof (dotProduct_abs_le a b) as [Hlo Hhi].
    split.
    + apply (Rmult_le_reg_r (norm a * norm b)); [exact Hd|].
      unfold Rdiv. rewrite Rmult_assoc, Rinv_l by lra. lra.
    + apply (Rmult_le_reg_r (norm a * norm b)); [exact Hd|].
      unfold Rdiv. rewrite Rmult_assoc, Rinv_l by lra. lra.
  - rewrite (cosineSim_value b a (eq_sym Hl)), (dotProduct_comm b a), (Rmult_comm (norm b)).
    reflexivity.
  - rewrite (cosineSim_value a a eq_refl), dotProduct_self, norm_square.
    destruct (Req_dec_T (norm a) 0) as [Hz|Hnz].
    + rewrite (proj1 (norm_zero_iff a) Hz). destruct (Rlt_dec 0 0); [lra | reflexivity].
    + assert (Hpos : 0 < sumSquares a).
      { rewrite <- norm_square. apply Rmult_lt_0_compat; lra. }
      destruct (Rlt_dec 0 (sumSquares a)); [|lra]. f_equal. field. lra.
Qed.

Lemma cosineSim_range_witness :
  exists c,
    ChunkLib.cosineSim [3; 4] [4; 3] = Ok c
    /\ -1 <= c <= 1
    /\ ChunkLib.cosineSim [4; 3] [3; 4] = Ok c.
Proof.
  destruct (ChunkLib.cosineSim [3; 4] [4; 3]) as [c|e] eqn:Hc.
  - exists c. split; [reflexivity|].
    destruct (cosineSim_range [3; 4] [4; 3] c Hc) as (Hr & Hs & _). split; assumption.
  - exfalso. vm_compute in Hc. discriminate Hc.
Defined.

Lemma indexed_dot (a b : list R) :
  length a = length b ->
  sumR (map (fun i => nth i a 0 * nth i b 0) (seq 0 (length a))) = dotProduct a b.
Proof.
  revert b. induction a as [|x a IH]; intros [|y b] Hl; try discriminate; [reflexivity|].
  cbn [length seq map]. rewrite <- seq_shift, map_map, dotProduct_cons.
  cbn [nth]. unfold sumR at 1. cbn [fold_right]. fold (sumR (map (fun i => nth i a 0 * nth i b 0)
                                                            (seq 0 (length a)))).
  rewrite IH by (simpl in Hl; lia). reflexivity.
Qed.

Lemma dot_dotProduct (a b : list R) :
  length a = length b ->
  fold_left (fun s i => s + nth i a 0 * nth i b 0) (seq 0 (length a)) 0 = dotProduct a b.
Proof. intros Hl. rewrite dot_fold, indexed_dot by exact Hl. lra. Qed.

Lemma dotProduct_scale (a b : list R) (n m : R) :
  n <> 0 -> m <> 0 ->
  dotProduct (map (fun x => x / n) a) (map (fun y => y / m) b) = dotProduct a b / (n * m).
Proof.
  intros Hn Hm. revert b. induction a as [|x a IH]; intros [|y b];
    try (unfold dotProduct, sumR; simpl; field; split; assumption).
  cbn [map]. rewrite !dotProduct_cons, IH. field. split; assumption.
Qed.

Lemma dotProduct_scale_r (a b : list R) (m : R) :
  m <> 0 -> dotProduct a (map (fun y => y / m) b) = dotProduct a b / m.
Proof.
  intros Hm. revert b. induction a as [|x a IH]; intros [|y b];
    try (unfold dotProduct, sumR; simpl; field; assumption).
  cbn [map]. rewrite !dotProduct_cons, IH. field. assumption.
Qed.

Lemma search_cosine_fold (a b : list R) (ks : list nat) (d na nb : R) :
  fold_left (fun st i => Search.cosineStep st i a b) ks (d, na, nb)
  = (d + sumR (map (fun i => nth i a 0 * nth i b 0) ks),
     na + sumR (map (fun i => nth i a 0 * nth i a 0) ks),
     nb + sumR (map (fun i => nth i b 0 * nth i b 0) ks)).
Proof.
  revert d na nb. induction ks as [|k ks IH]; intros d na nb; cbn [fold_left map].
  - unfold sumR. simpl. f_equal; [f_equal|]; lra.
  - unfold Search.cosineStep at 2. rewrite IH. unfold sumR. simpl. f_equal; [f_equal|]; lra.
Qed.

Lemma l2norm_cases (e : list R) :
  (norm e = 0 /\ BuildScript.l2norm e = 1) \/ (0 < norm e /\ BuildScript.l2norm e = norm e).
Proof.
  rewrite l2norm_eq. pose proof (norm_nonneg e).
  destruct (Req_dec_T (norm e) 0); [left | right]; split; try reflexivity; try assumption. lra.
Qed.

Lemma route_norm_cases (q : list R) :
  (norm q = 0 /\ AskRoute.norm q = 1) \/ (0 < norm q /\ AskRoute.norm q = norm q).
Proof.
  unfold AskRoute.norm, AskRoute.dot. rewrite (dot_dotProduct q q eq_refl), dotProduct_self.
  fold (norm q). cbv zeta. pose proof (norm_nonneg q).
  destruct (Req_dec_T (norm q) 0); [left | right]; split; try reflexivity; try assumption. lra.
Qed.

(** X18.  The similarity computations of the repository agree on vectors of
    one length: [cosine] of search.ts gives what [cosineSim] of chunk.ts
    gives, also when a norm is 0; so does the dot product of route.ts between
    the normalized question and a vector that the build script normalized
    (as the comment in route.ts says); the dot product of retrieval.ts, which
    does not normalize the question, gives that value times the norm of the
    question. *)
Theorem similarities_agree (q e : list R) :
  length q = length e ->
  exists c,
    ChunkLib.cosineSim q e = Ok c
    /\ Search.cosine q e = c
    /\ AskRoute.dot (AskRoute.normalize q) (BuildScript.l2 e) = c
    /\ Retrieval.dot q (BuildScript.l2 e) = norm q * c.
Proof.
  intros Hl. eexists. split; [apply (cosineSim_value q e Hl)|].
  pose proof (norm_nonneg q) as Hq. pose proof (norm_nonneg e) as He.
  split; [|split].
  - unfold Search.cosine. rewrite search_cosine_fold, !Rplus_0_l.
    assert (Hee : sumR (map (fun i => nth i e 0 * nth i e 0) (seq 0 (length q)))
                  = sumSquares e).
    { rewrite Hl, (indexed_dot e e eq_refl). apply dotProduct_self. }
    rewrite Hee, (indexed_dot q e Hl), (indexed_dot q q eq_refl), dotProduct_self.
    fold (norm q). fold (norm e).
    destruct (Req_dec_T (norm q * norm e) 0) as [Hz|Hnz].
    + destruct (Rlt_dec 0 (norm q * norm e)); [lra|].
      apply Rmult_integral in Hz as [Hz|Hz].
      * rewrite (dotProduct_zero_norm q e Hz). unfold Rdiv. apply Rmult_0_l.
      * rewrite dotProduct_comm, (dotProduct_zero_norm e q Hz). unfold Rdiv. apply Rmult_0_l.
    + destruct (Rlt_dec 0 (norm q * norm e)) as [_|Hn]; [reflexivity|].
      exfalso. apply Hn. assert (0 <= norm q * norm e) by now apply Rmult_le_pos. lra.
  - unfold AskRoute.dot, AskRoute.normalize, BuildScript.l2.
    rewrite dot_dotProduct by (rewrite !length_map; exact Hl).
    destruct (route_norm_cases q) as [[Hq0 ->]|[Hqp ->]],
             (l2norm_cases e) as [[He0 ->]|[Hep ->]];
      rewrite dotProduct_scale by lra.
    + rewrite (dotProduct_zero_norm q e Hq0), Hq0.
      destruct (Rlt_dec 0 (0 * norm e)); [lra|]. unfold Rdiv. apply Rmult_0_l.
    + rewrite (dotProduct_zero_norm q e Hq0), Hq0.
      destruct (Rlt_dec 0 (0 * norm e)); [lra|]. unfold Rdiv. apply Rmult_0_l.
    + rewrite dotProduct_comm, (dotProduct_zero_norm e q He0), He0.
      destruct (Rlt_dec 0 (norm q * 0)); [lra|]. unfold Rdiv. apply Rmult_0_l.
    + destruct (Rlt_dec 0 (norm q * norm e)) as [_|Hn]; [reflexivity|].
      exfalso. apply Hn. now apply Rmult_lt_0_compat.
  - unfold Retrieval.dot, BuildScript.l2.
    rewrite dot_dotProduct by (rewrite length_map; exact Hl).
    destruct (l2norm_cases e) as [[He0 ->]|[Hep ->]]; rewrite dotProduct_scale_r by lra.
    + rewrite dotProduct_comm, (dotProduct_zero_norm e q He0), He0.
      destruct (Rlt_dec 0 (norm q * 0)); [lra|]. lra.
    + destruct (Rlt_dec 0 (norm q * norm e)) as [Hp|Hn].
      * assert (Hqn : norm q <> 0) by (intros Hz; rewrite Hz in Hp; lra).
        field. split; first [assumption | lra].
      * assert (Hq0 : norm q = 0).
        { destruct (Req_dec_T (norm q) 0) as [Hz|Hnz]; [exact Hz|].
          exfalso. apply Hn. apply Rmult_lt_0_compat; lra. }
        rewrite (dotProduct_zero_norm q e Hq0), Hq0. lra.
Qed.

Lemma similarities_agree_witness :
  exists c,
    ChunkLib.cosineSim [3; 4] [4; 3] = Ok c
    /\ Search.cosine [3; 4] [4; 3] = c
    /\ AskRoute.dot (AskRoute.normalize [3; 4]) (BuildScript.l2 [4; 3]) = c
    /\ Retrieval.dot [3; 4] (BuildScript.l2 [4; 3]) = norm [3; 4] * c.
Proof. apply (similarities_agree [3; 4] [4; 3]). reflexivity. Defined.
End Similarity.

(** ** Ranking by similarity *)

Section Top.
Context {A : Type} (key : A -> R).

Lemma descending_app_le (l1 l2 : list A) :
  descending key (l1 ++ l2) ->
  forall x y, In x l1 -> In y l2 -> (key y <= key x)%R.
Proof.
  unfold descending. induction l1 as [|a l1 IH]; intros Hd x y Hx Hy; [destruct Hx|].
  inversion Hd as [|? ? Hd' Hall]; subst. destruct Hx as [<-|Hx].
  - apply (proj1 (List.Forall_forall _ _) Hall y). apply in_or_app. now right.
  - now apply IH.
Qed.

(** The first [k] of a list sorted by falling key: [k] elements or all, in
    falling order, and no element left behind has a greater key. *)
Lemma sortDesc_top (l : list A) (k : nat) :
  length (take k (sortDesc key l)) = Nat.min k (length l)
  /\ descending key (take k (sortDesc key l))
  /\ Permutation l (take k (sortDesc key l) ++ drop k (sortDesc key l))
  /\ forall x y, In x (take k (sortDesc key l)) -> In y (drop k (sortDesc key l)) ->
       (key y <= key x)%R.
Proof.
  pose proof (sortDesc_perm key l) as Hperm.
  pose proof (sortDesc_descending key l) as Hdesc.
  split; [|split; [|split]].
  - rewrite length_take. apply Permutation_length in Hperm. lia.
  - now apply descending_take.
  - now rewrite take_drop.
  - apply descending_app_le. now rewrite take_drop.
Qed.
End Top.

Lemma ranked_positions {B} (f : nat -> B -> R) (l : list B) (k : nat) :
  let pairs := imap (fun i x => (f i x, i)) l in
  let top := take k (sortDesc fst pairs) in
  NoDup (map snd top)
  /\ (forall s i, In (s, i) top -> exists x, l !! i = Some x /\ s = f i x)
  /\ forall i x, l !! i = Some x -> ~ In i (map snd top) ->
       forall s j, In (s, j) top -> (f i x <= s)%R.
Proof.
  intros pairs top.
  destruct (sortDesc_top fst pairs k) as (_ & _ & Hperm & Hle). fold top in Hperm, Hle.
  assert (Hsnd : map snd pairs = seq 0 (length l)).
  { subst pairs. apply list_eq. intros i. rewrite list_lookup_fmap, list_lookup_imap.
    destruct (l !! i) as [x|] eqn:Hx; simpl.
    - symmetry. apply lookup_seq. split; [reflexivity|]. eapply lookup_lt_Some, Hx.
    - symmetry. apply lookup_ge_None. rewrite length_seq. now apply lookup_ge_None. }
  assert (Hnd : NoDup (map snd (top ++ drop k (sortDesc fst pairs)))).
  { rewrite <- Hperm, Hsnd. apply NoDup_seq. }
  assert (Hmem : forall s i, In (s, i) pairs -> exists x, l !! i = Some x /\ s = f i x).
  { intros s i Hin. apply list_elem_of_In, list_elem_of_lookup in Hin as [j Hj].
    subst pairs. apply list_lookup_imap_Some in Hj as (x & Hx & [= -> ->]). eauto. }
  split; [|split].
  - rewrite map_app in Hnd. now apply NoDup_app in Hnd as [Hnd _].
  - intros s i Hin. apply Hmem. apply list_elem_of_In. rewrite Hperm.
    apply list_elem_of_In, in_or_app. now left.
  - intros i x Hx Hnot s j Hin.
    assert (Hp : In (f i x, i) pairs).
    { apply list_elem_of_In. eapply list_elem_of_lookup_2.
      subst pairs. rewrite list_lookup_imap, Hx. reflexivity. }
    apply list_elem_of_In in Hp. rewrite Hperm in Hp. apply list_elem_of_In in Hp.
    apply in_app_or in Hp as [Hp|Hp].
    + exfalso. apply Hnot. apply in_map_iff. exists (f i x, i). split; [reflexivity | exact Hp].
    + exact (Hle (s, j) (f i x, i) Hin Hp).
Qed.

Lemma hitsOf_ok (chunks : list RagChunk) (idx : list (R * nat)) :
  Forall (fun si => snd si < length chunks) idx ->
  forall r,
  exists hits,
    Search.hitsOf chunks r idx = Ok hits
    /\ Forall2 (fun si h =>
         Search.score h = fst si
         /\ exists c, chunks !! snd si = Some c
                      /\ Search.source_name h = rc_source_name c
                      /\ Search.source_path h = rc_source_path c
                      /\ Search.text h = rc_text c) idx hits
    /\ forall k h, hits !! k = Some h -> Search.rank h = r + k + 1.
Proof.
  induction 1 as [|[s i] idx Hi _ IH]; intros r; cbn [Search.hitsOf].
  - exists []. split; [reflexivity|]. split; [constructor|]. intros k h Hk. discriminate.
  - destruct (lookup_lt_is_Some_2 _ _ Hi) as [c Hc]. simpl in Hc. rewrite Hc.
    destruct (IH (S r)) as (hits & -> & Hall & Hrank).
    eexists. split; [reflexivity|]. split.
    + constructor; [|exact Hall]. simpl. split; [reflexivity|]. exists c. auto.
    + intros [|k] h Hk.
      * injection Hk as <-. simpl. lia.
      * simpl in Hk. rewrite (Hrank k h Hk). lia.
Qed.

Lemma hitsOf_missing (chunks : list RagChunk) (idx : list (R * nat)) :
  Exists (fun si => length chunks <= snd si) idx ->
  forall r, Search.hitsOf chunks r idx = Err TypeError.
Proof.
  induction 1 as [[s i] idx Hi|[s i] idx _ IH]; intros r; cbn [Search.hitsOf].
  - simpl in Hi. now rewrite (proj2 (lookup_ge_None _ _) Hi).
  - destruct (chunks !! i); [|reflexivity]. now rewrite IH.
Qed.

Lemma Forall2_descending {A B} (ka : A -> R) (kb : B -> R) (la : list A) (lb : list B) :
  Forall2 (fun a b => kb b = ka a) la lb -> descending ka la -> descending kb lb.
Proof.
  unfold descending. induction 1 as [|a b la lb Hab Hall IH]; intros Hd; [constructor|].
  inversion Hd as [|? ? Hd' Hle]; subst. constructor; [now apply IH|].
  clear IH Hd Hd'. induction Hall as [|a' b' la lb Hab' _ IH]; [constructor|].
  inversion Hle; subst. constructor; [|now apply IH]. rewrite Hab, Hab'. assumption.
Qed.

(** X19.  For an index whose vectors have the length of the question's and
    whose every vector has a chunk, [search] returns the [topK] most similar
    chunks, or all when the index has fewer: each hit pairs the chunk at one
    position with the cosine of the vector at that position, no position
    comes twice, the hits are ranked 1, 2, ... by falling score, and no
    vector left out is more similar to the question than a hit. *)
Theorem search_returns_top_hits (index : IndexJson) (qVec : list R) (topK : nat)
    (vectors : list (list R)) (chunks : list RagChunk) :
  ij_vectors index = Some vectors -> ij_chunks index = Some chunks ->
  Forall (fun v => length v = length qVec) vectors ->
  length vectors <= length chunks ->
  exists hits positions,
    Search.search index qVec topK = Ok hits
    /\ length hits = Nat.min topK (length vectors)
    /\ NoDup positions
    /\ Forall2 (fun i h =>
         exists v c,
           vectors !! i = Some v /\ chunks !! i = Some c
           /\ Search.score h = Search.cosine v qVec
           /\ Search.source_name h = rc_source_name c
           /\ Search.source_path h = rc_source_path c
           /\ Search.text h = rc_text c) positions hits
    /\ (forall k h, hits !! k = Some h -> Search.rank h = k + 1)
    /\ descending Search.score hits
    /\ forall i v h,
         vectors !! i = Some v -> ~ In i positions -> In h hits ->
         (Search.cosine v qVec <= Search.score h)%R.
Proof.
  intros Hv Hc _ Hlen. unfold Search.search. rewrite Hv, Hc. cbn [default]. cbv zeta.
  set (scores := map (fun v => Search.cosine v qVec) vectors).
  set (top := take topK (sortDesc fst (imap (fun i s => (s, i)) scores))).
  destruct (ranked_positions (fun _ s => s) scores topK) as (Hnd & Hmem & Hbest).
  fold top in Hnd, Hmem, Hbest.
  destruct (sortDesc_top fst (imap (fun i s => (s, i)) scores) topK) as (Hl & Hd & _ & _).
  fold top in Hl, Hd.
  assert (Hscore : forall i s, scores !! i = Some s ->
             exists v, vectors !! i = Some v /\ s = Search.cosine v qVec).
  { intros i s Hs. subst scores. rewrite list_lookup_fmap in Hs.
    destruct (vectors !! i) as [v|]; [|discriminate]. injection Hs as <-. eauto. }
  assert (Hin : Forall (fun si => snd si < length chunks) top).
  { apply List.Forall_forall. intros [s i] Hsi. destruct (Hmem s i Hsi) as (x & Hx & _).
    apply lookup_lt_Some in Hx. subst scores. rewrite length_map in Hx. simpl. lia. }
  destruct (hitsOf_ok chunks top Hin 0) as (hits & Hhits & Hall & Hrank).
  exists hits, (map snd top).
  split; [exact Hhits|]. split.
  { rewrite <- (Forall2_length _ _ _ Hall), Hl, length_imap. subst scores.
    now rewrite length_map. }
  split; [exact Hnd|]. split.
  { apply Forall2_fmap_l. apply Forall2_same_length_lookup_2;
      [eapply Forall2_length, Hall|].
    intros k [s i] h Hk Hh.
    destruct (Forall2_lookup_lr _ _ _ _ _ _ Hall Hk Hh) as [Hs (c & Hci & Hn & Hp & Ht)].
    assert (Hmemb : In (s, i) top).
    { apply list_elem_of_In. eapply list_elem_of_lookup_2, Hk. }
    simpl in *. destruct (Hmem s i Hmemb) as (x & Hx & ->).
    destruct (Hscore i x Hx) as (v & Hvi & ->).
    exists v, c. rewrite Hs. auto 10. }
  split; [intros k h Hk; rewrite (Hrank k h Hk); lia|]. split.
  { apply (Forall2_descending fst Search.score top hits); [|exact Hd].
    eapply Forall2_impl; [exact Hall|]. now intros si h [Hs _]. }
  intros i v h Hvi Hnot Hh.
  assert (Hs : scores !! i = Some (Search.cosine v qVec)).
  { subst scores. now rewrite list_lookup_fmap, Hvi. }
  apply list_elem_of_In, list_elem_of_lookup in Hh as [k Hk].
  destruct (Forall2_lookup_r _ _ _ _ _ Hall Hk) as ([s j] & Hsj & Hsc & _). simpl in Hsc.
  rewrite Hsc. apply (Hbest i _ Hs Hnot s j).
  apply list_elem_of_In. eapply list_elem_of_lookup_2, Hsj.
Qed.

Section TopHits.
Local Open Scope R_scope.

Lemma cosine_2 (a b c d : R) :
  sqrt (a * a + b * b) = 1 -> sqrt (c * c + d * d) = 1 ->
  Search.cosine [a; b] [c; d] = a * c + b * d.
Proof.
  intros Ha Hc. unfold Search.cosine. cbn [length seq fold_left Search.cosineStep nth].
  replace (0 + a * a + b * b) with (a * a + b * b) by lra.
  replace (0 + c * c + d * d) with (c * c + d * d) by lra.
  rewrite Ha, Hc. destruct (Req_dec_T (1 * 1) 0) as [Hz|_]; [lra|]. field.
Qed.

Lemma rankedVectors_cosines :
  map (fun v => Search.cosine v [1; 0]) rankedVectors = [0; 1; -1].
Proof.
  assert (H1 : sqrt (1 * 1 + 0 * 0) = 1) by (replace (1 * 1 + 0 * 0) with 1 by lra; apply sqrt_1).
  assert (H2 : sqrt (0 * 0 + 1 * 1) = 1) by (replace (0 * 0 + 1 * 1) with 1 by lra; apply sqrt_1).
  assert (H3 : sqrt (-1 * -1 + 0 * 0) = 1) by (replace (-1 * -1 + 0 * 0) with 1 by lra; apply sqrt_1).
  unfold rankedVectors. cbn [map].
  rewrite !cosine_2 by assumption. repeat f_equal; lra.
Qed.

(** Three vectors, of which the two best are asked for: the question itself
    comes first with the similarity 1, the vector at a right angle second
    with the similarity 0, and the opposite vector is left out. *)
Lemma search_returns_top_hits_witness :
  exists h1 h2,
    Search.search rankedIndex [1; 0] 2 = Ok [h1; h2]
    /\ Search.text h1 = js "world" /\ Search.score h1 = 1 /\ Search.rank h1 = 1%nat
    /\ Search.text h2 = js "hello" /\ Search.score h2 = 0 /\ Search.rank h2 = 2%nat.
Proof.
  destruct (search_returns_top_hits rankedIndex [1; 0] 2 rankedVectors rankedChunks)
    as (hits & positions & Hs & Hlen & Hnd & Hall & Hrank & Hdesc & Hbest).
  - reflexivity.
  - reflexivity.
  - repeat constructor.
  - simpl. lia.
  - pose proof rankedVectors_cosines as Hcos. unfold rankedVectors in Hcos.
    cbn [map] in Hcos. injection Hcos as Hc0 Hc1 Hc2.
    destruct hits as [|h1 [|h2 [|h3 hits]]]; try discriminate Hlen.
    inversion Hall as [|a ? p1 ? Ha Hall1]; subst.
    inversion Hall1 as [|b ? p2 ? Hb Hall2]; subst.
    inversion Hall2; subst. clear Hall Hall1 Hall2.
    exists h1, h2. split; [exact Hs|].
    pose proof (Hrank 0%nat h1 eq_refl) as Hr1. pose proof (Hrank 1%nat h2 eq_refl) as Hr2.
    destruct Ha as (va & ca & Hva & Hca & Hsa & _ & _ & Hta).
    destruct Hb as (vb & cb & Hvb & Hcb & Hsb & _ & _ & Htb).
    inversion Hdesc as [|? ? _ Hle]; subst. inversion Hle as [|? ? Hle12 _]; subst.
    assert (Hab : a <> b).
    { inversion Hnd as [|? ? Hnot _]; subst. intros ->. apply Hnot. now left. }
    assert (Hout : forall i v, rankedVectors !! i = Some v -> i <> a -> i <> b ->
               Search.cosine v [1; 0] <= Search.score h1
               /\ Search.cosine v [1; 0] <= Search.score h2).
    { intros i v Hv Hia Hib. split; apply (Hbest i v _ Hv).
      - intros [?|[?|[]]]; congruence.
      - now left.
      - intros [?|[?|[]]]; congruence.
      - right. now left. }
    destruct a as [|[|[|a]]]; [| | |discriminate Hva];
      destruct b as [|[|[|b]]]; try discriminate Hvb; try (now destruct Hab);
      injection Hva as <-; injection Hvb as <-;
      injection Hca as <-; injection Hcb as <-;
      rewrite ?Hc0, ?Hc1, ?Hc2 in *.
    all: try (exfalso; lra).
    all: try (destruct (Hout 0%nat _ eq_refl ltac:(lia) ltac:(lia)) as [Ho1 Ho2];
              rewrite ?Hc0, ?Hc1, ?Hc2 in *; exfalso; lra).
    all: try (destruct (Hout 1%nat _ eq_refl ltac:(lia) ltac:(lia)) as [Ho1 Ho2];
              rewrite ?Hc0, ?Hc1, ?Hc2 in *; exfalso; lra).
    rewrite Hta, Htb, Hsa, Hsb. repeat split; try reflexivity; lia.
Defined.
End TopHits.

(** X20.  [loadIndex] does not compare the two arrays of an index, and
    [search] throws on an index that it lets pass: when the index has more
    vectors than chunks and [topK] reaches them all, some hit has no chunk
    and reading its [source_name] is a [TypeError]. *)
Theorem search_throws_without_chunk (index : IndexJson) (qVec : list R) (topK : nat)
    (vectors : list (list R)) (chunks : list RagChunk) :
  ij_vectors index = Some vectors -> ij_chunks index = Some chunks ->
  length chunks < length vectors -> length vectors <= topK ->
  Search.search index qVec topK = Err TypeError.
Proof.
  intros Hv Hc Hlt Hk. unfold Search.search. rewrite Hv, Hc. cbn [default]. cbv zeta.
  set (scores := map (fun v => Search.cosine v qVec) vectors).
  set (pairs := imap (fun i s => (s, i)) scores).
  apply hitsOf_missing.
  pose proof (sortDesc_perm fst pairs) as Hperm.
  assert (Hlen : length (sortDesc fst pairs) = length vectors).
  { rewrite <- Hperm. subst pairs scores. now rewrite length_imap, length_map. }
  rewrite take_ge by lia.
  destruct (lookup_lt_is_Some_2 vectors (length chunks) Hlt) as [v Hvl].
  apply List.Exists_exists.
  exists (Search.cosine v qVec, length chunks).
  split; [|simpl; lia].
  apply list_elem_of_In. rewrite <- Hperm. eapply list_elem_of_lookup_2.
  subst pairs scores. rewrite list_lookup_imap, list_lookup_fmap, Hvl. reflexivity.
Qed.

(** One chunk and two vectors: accepted by [loadIndex], fatal for [search]. *)
Lemma search_throws_without_chunk_witness :
  fst (Search.loadIndex (H := exampleHost) (diskOf lopsidedIndex) (js "/out/index.json")
         freshState) = Ok lopsidedIndex
  /\ Search.search lopsidedIndex [3; 4]%R 8 = Err TypeError.
Proof.
  split.
  - apply loadIndex_fresh; [reflexivity|]. split; [reflexivity|].
    split; [simpl; lia|]. split; [simpl; lia | reflexivity].
  - apply (search_throws_without_chunk lopsidedIndex [3; 4]%R 8 [[3; 4]; [4; 3]]%R
             [helloChunk]); [reflexivity | reflexivity | simpl; lia | simpl; lia].
Defined.

(** ** The two caches after a failure *)

(** X21.  A call of [loadIndex] that fails memoizes nothing: it has read the
    file once, and the next call reads again and returns (and memoizes) the
    index as soon as the file holds a valid one. *)
Theorem loadIndex_retries_after_failure `{JsHost} (files : jsstr -> fileContent)
    (path : jsstr) (st st' : Search.State) (e : error) :
  Search.loadIndex files path st = (Err e, st') ->
  Search.memoIndex st' = None
  /\ Search.reads st' = Search.reads st ++ [resolve path]
  /\ forall files' path' idx,
       files' (resolve path') = Parsed (Some idx) -> passesLoadIndex idx ->
       exists st'',
         Search.loadIndex files' path' st' = (Ok idx, st'')
         /\ Search.memoIndex st'' = Some idx
         /\ Search.reads st'' = Search.reads st ++ [resolve path; resolve path'].
Proof.
  intros Hl.
  assert (Hst : Search.memoIndex st' = None
                /\ Search.reads st' = Search.reads st ++ [resolve path]).
  { revert Hl. unfold Search.loadIndex.
    destruct (Search.memoIndex st); [discriminate|].
    destruct (files (resolve path)) as [| |[parsed|]]; try (intros [= _ <-]; now split).
    destruct (_ || _); [intros [= _ <-]; now split|].
    destruct (negb _); [intros [= _ <-]; now split | discriminate]. }
  destruct Hst as [Hm Hr]. split; [exact Hm|]. split; [exact Hr|].
  intros files' path' idx Hfile (Hv & Hc & Hd).
  unfold Search.loadIndex. rewrite Hm, Hfile.
  rewrite (proj2 (Nat.eqb_neq _ 0)) by lia. rewrite (proj2 (Nat.eqb_neq _ 0)) by lia.
  cbn [orb]. rewrite (proj2 (Z.eqb_eq _ _) Hd). cbn [negb].
  eexists. split; [reflexivity|]. cbn [Search.memoIndex Search.reads].
  split; [reflexivity|]. rewrite Hr, <- app_assoc. reflexivity.
Qed.

(** A file with a wrong [dim] is rejected; once it is repaired the next call
    returns it. *)
Lemma loadIndex_retries_after_failure_witness :
  exists st',
    Search.loadIndex (H := exampleHost) (diskOf wrongDimIndex) (js "/out/index.json") freshState
    = (Err IndexDimMismatch, st')
    /\ Search.memoIndex st' = None
    /\ exists st'',
         Search.loadIndex (H := exampleHost) (diskOf soundIndex) (js "/out/index.json") st'
         = (Ok soundIndex, st'')
         /\ Search.memoIndex st'' = Some soundIndex.
Proof.
  eexists. split; [reflexivity|].
  destruct (loadIndex_retries_after_failure (H := exampleHost) (diskOf wrongDimIndex)
              (js "/out/index.json") freshState _ IndexDimMismatch eq_refl)
    as (Hm & _ & Hnext).
  split; [exact Hm|].
  destruct (Hnext (diskOf soundIndex) (js "/out/index.json") soundIndex eq_refl)
    as (st'' & Hl & Hm'' & _).
  - split; [simpl; lia|]. split; [simpl; lia | reflexivity].
  - exists st''. split; [exact Hl | exact Hm''].
Defined.

(** X22.  [getIndex] assigns its cache before it checks the parsed file: a
    file that parses to an object and is rejected for a missing or empty
    array stays in the cache, and every later call returns that rejected
    object without reading anything, whatever the file holds by then.  A
    file that cannot be read or parsed, or that parses to [null], leaves the
    cache empty. *)
Theorem getIndex_caches_rejected_index (files : jsstr -> fileContent) (path : jsstr)
    (e : error) (cache' : option IndexJson) :
  Route.getIndex files path None = (Err e, cache') ->
  match files path with
  | Parsed (Some parsed) =>
      e = IndexInvalidOrEmpty
      /\ ~ passesGetIndex parsed
      /\ cache' = Some parsed
      /\ forall files' path', Route.getIndex files' path' cache' = (Ok parsed, cache')
  | _ => cache' = None
  end.
Proof.
  unfold Route.getIndex.
  destruct (files path) as [| |[parsed|]]; try (now intros [= _ <-]).
  destruct (_ || _) eqn:Hbad; [|discriminate]. intros [= <- <-].
  split; [reflexivity|]. split; [|split; [reflexivity|reflexivity]].
  intros [Hc Hv]. apply orb_true_iff in Hbad as [Hz|Hz]; apply Nat.eqb_eq in Hz; lia.
Qed.

Lemma getIndex_caches_rejected_index_witness :
  let emptyIndex := {| ij_model := js "text-embedding-3-large"; ij_dim := 2;
                       ij_chunks := Some []; ij_vectors := Some [] |} in
  Route.getIndex (diskOf emptyIndex) (js "/out/index.json") None
  = (Err IndexInvalidOrEmpty, Some emptyIndex)
  /\ forall files' path',
       Route.getIndex files' path' (Some emptyIndex) = (Ok emptyIndex, Some emptyIndex).
Proof.
  intros emptyIndex. split; [reflexivity|].
  exact (proj2 (proj2 (proj2
           (getIndex_caches_rejected_index (diskOf emptyIndex) (js "/out/index.json")
              IndexInvalidOrEmpty (Some emptyIndex) eq_refl)))).
Defined.

(** ** The request handler of route.ts *)

Lemma singleSpaced_tail (c : N) (r : jsstr) :
  singleSpaced (c :: r) = true -> singleSpaced r = true.
Proof. cbn [singleSpaced]. intros Hs. now apply andb_true_iff in Hs as [_ Hr]. Qed.

Lemma singleSpaced_dropWhile (p : N -> bool) (t : jsstr) :
  singleSpaced t = true -> singleSpaced (dropWhile p t) = true.
Proof.
  induction t as [|c r IH]; intros Ht; [reflexivity|]. cbn [dropWhile].
  destruct (p c); [apply IH; now apply singleSpaced_tail with c | exact Ht].
Qed.

Lemma singleSpaced_take (k : nat) (t : jsstr) :
  singleSpaced t = true -> singleSpaced (take k t) = true.
Proof.
  revert k. induction t as [|c r IH]; intros [|k] Ht; try reflexivity.
  change (take (S k) (c :: r)) with (c :: take k r). cbn [singleSpaced] in *.
  apply andb_true_iff in Ht as [Hc Hr]. apply andb_true_iff. split; [|now apply IH].
  destruct (negb (isSpace c)); [reflexivity|]. cbn [orb] in *.
  apply andb_true_iff in Hc as [H32 Hnext]. rewrite H32. cbn [andb].
  destruct r as [|c' r']; [now destruct k|]. destruct k; [reflexivity | exact Hnext].
Qed.

Lemma singleSpaced_snoc (t : jsstr) (e : N) :
  isSpace e = false -> singleSpaced t = true -> singleSpaced (t ++ [e]) = true.
Proof.
  intros He. induction t as [|c r IH]; intros Ht.
  - cbn [app singleSpaced]. now rewrite He.
  - cbn [app singleSpaced] in *. apply andb_true_iff in Ht as [Hc Hr].
    apply andb_true_iff. split; [|now apply IH].
    destruct (negb (isSpace c)); [reflexivity|]. cbn [orb] in *.
    apply andb_true_iff in Hc as [H32 Hnext]. rewrite H32. cbn [andb].
    destruct r as [|c' r']; [cbn [app]; now rewrite He | exact Hnext].
Qed.

Lemma dropWhile_suffix {A} (p : A -> bool) (l : list A) :
  exists l1, l = l1 ++ dropWhile p l.
Proof.
  induction l as [|x l [l1 IH]]; [now exists []|]. cbn [dropWhile].
  destruct (p x); [exists (x :: l1); cbn [app]; now f_equal | now exists []].
Qed.

Lemma trimEnd_take (s : jsstr) : exists k, trimEnd s = take k s.
Proof.
  unfold trimEnd. destruct (dropWhile_suffix isSpace (rev s)) as [l1 Hl].
  exists (length (rev (dropWhile isSpace (rev s)))).
  apply (f_equal (@rev N)) in Hl. rewrite rev_involutive, rev_app_distr in Hl.
  rewrite Hl at 3. now rewrite take_app_length.
Qed.

Lemma collapseFrom_singleSpaced (s : jsstr) :
  forall b,
    singleSpaced (AskRoute.collapseFrom b s) = true
    /\ (b = true ->
        match AskRoute.collapseFrom b s with c :: _ => isSpace c = false | [] => True end).
Proof.
  induction s as [|c r IH]; intros b; cbn [AskRoute.collapseFrom]; [now split|].
  destruct (isSpace c) eqn:Hc.
  - destruct b.
    + apply IH.
    + destruct (IH true) as [Hs Hh]. specialize (Hh eq_refl). split; [|discriminate].
      cbn [singleSpaced]. rewrite Hs.
      change (isSpace 32) with true. cbn [negb orb]. change (32 =? 32)%N with true.
      cbn [andb]. destruct (AskRoute.collapseFrom true r); [reflexivity|]. now rewrite Hh.
  - destruct (IH false) as [Hs _]. split; [|intros _; exact Hc].
    cbn [singleSpaced]. now rewrite Hc, Hs.
Qed.

Lemma trim_singleSpaced (t : jsstr) : singleSpaced t = true -> singleSpaced (trim t) = true.
Proof.
  intros Ht. unfold trim. destruct (trimEnd_take (trimStart t)) as [k ->].
  apply singleSpaced_take. unfold trimStart. now apply singleSpaced_dropWhile.
Qed.

Lemma preview_cases (s : jsstr) (n : nat) :
  let t := trim (AskRoute.collapse s) in
  (length t <= n /\ AskRoute.preview s n = t)
  \/ (n < length t
      /\ AskRoute.preview s n = take (if n =? 0 then length t - 1 else n - 1) t
                                  ++ [AskRoute.ELLIPSIS]).
Proof.
  intros t. unfold AskRoute.preview. fold t.
  destruct (n <? length t) eqn:Hn.
  - apply Nat.ltb_lt in Hn. right. split; [exact Hn|]. f_equal.
    unfold AskRoute.sliceTo. destruct n as [|n].
    + reflexivity.
    + replace (Z.of_nat (S n) - 1)%Z with (Z.of_nat n) by lia.
      rewrite (proj2 (Z.leb_le 0 _)) by lia. rewrite Nat2Z.id. simpl. now rewrite Nat.sub_0_r.
  - apply Nat.ltb_ge in Hn. now left.
Qed.

Lemma preview_singleSpaced (s : jsstr) (n : nat) :
  singleSpaced (AskRoute.preview s n) = true.
Proof.
  assert (Ht : singleSpaced (trim (AskRoute.collapse s)) = true).
  { apply trim_singleSpaced. apply (collapseFrom_singleSpaced s false). }
  destruct (preview_cases s n) as [[_ ->]|[_ ->]]; [exact Ht|].
  apply singleSpaced_snoc; [reflexivity|]. now apply singleSpaced_take.
Qed.

Lemma preview_length (s : jsstr) (n : nat) :
  0 < n -> length (AskRoute.preview s n) <= n.
Proof.
  intros Hn. destruct (preview_cases s n) as [[Hle ->]|[Hlt ->]]; [exact Hle|].
  destruct n as [|n]; [lia|]. cbn [Nat.eqb]. rewrite length_app, length_take. simpl. lia.
Qed.

(** X23.  [preview] turns every run of white space into one space and trims;
    a text of at most [n] code units is returned whole, a longer one is cut
    to [n - 1] code units and an ellipsis, so that for [n >= 1] the preview
    has at most [n] code units; white space occurs in it only as single
    spaces. *)
Theorem preview_shape (s : jsstr) (n : nat) :
  let t := trim (AskRoute.collapse s) in
  singleSpaced (AskRoute.preview s n) = true
  /\ (length t <= n -> AskRoute.preview s n = t)
  /\ (0 < n < length t ->
      AskRoute.preview s n = take (n - 1) t ++ [AskRoute.ELLIPSIS]
      /\ length (AskRoute.preview s n) = n)
  /\ (0 < n -> length (AskRoute.preview s n) <= n).
Proof.
  intros t. split; [apply preview_singleSpaced|].
  split; [|split; [|apply preview_length]].
  - intros Hle. destruct (preview_cases s n) as [[_ Hp]|[Hlt _]]; [exact Hp|].
    subst t. lia.
  - intros [Hpos Hlt]. destruct (preview_cases s n) as [[Hle _]|[_ Hp]]; [subst t; lia|].
    destruct n as [|n]; [lia|]. cbn [Nat.eqb] in Hp. rewrite Hp. split; [reflexivity|].
    rewrite length_app, length_take. simpl. subst t. lia.
Qed.

Lemma passagesOf_ok (chunks : list RagChunk) (sc : list (nat * R)) (ps : list AskRoute.Passage) :
  AskRoute.passagesOf chunks sc = Ok ps ->
  Forall2 (fun si p =>
             AskRoute.score p = snd si
             /\ exists c, chunks !! fst si = Some c
                          /\ AskRoute.source_name p = rc_source_name c
                          /\ AskRoute.text p = rc_text c) sc ps.
Proof.
  revert ps. induction sc as [|[i s] sc IH]; intros ps; cbn [AskRoute.passagesOf].
  - intros [= <-]. constructor.
  - destruct (chunks !! i) as [c|] eqn:Hc; [|discriminate].
    destruct (AskRoute.passagesOf chunks sc) as [ps'|e]; [|discriminate].
    intros [= <-]. constructor; [|now apply IH].
    simpl. split; [reflexivity|]. exists c. auto.
Qed.

(** X24.  With embeddings and index vectors of one length [d]: when the
    handler answers, the answer is not empty and has no white space at its
    ends (a blank completion gives the fixed fallback sentence); there is one
    hit for each of the [TOP_K] = 12 best vectors of the cached index, or for
    all when it has fewer, best first; the preview of a hit has at most 280
    code units and white space only as single spaces. *)
Theorem POST_answer_shape (env : AskRoute.Env) (question : option jsstr)
    (cache cache' : option IndexJson) (a : jsstr) (hits : list AskRoute.Hit) (d : nat) :
  AskRoute.POST env question cache = (AskRoute.Answered a hits, cache') ->
  (forall n m inputs data,
      AskRoute.client env n m inputs = Embeddings data ->
      Forall (fun v => length v = d) data) ->
  (forall index vectors,
      cache' = Some index -> ij_vectors index = Some vectors ->
      Forall (fun v => length v = d) vectors) ->
  a <> [] /\ trim a = a
  /\ (exists index vectors,
        cache' = Some index /\ ij_vectors index = Some vectors
        /\ length hits = Nat.min AskRoute.TOP_K (length vectors))
  /\ AskRoute.TOP_K = 12
  /\ descending AskRoute.hit_score hits
  /\ Forall (fun h => length (AskRoute.hit_preview h) <= 280
                      /\ singleSpaced (AskRoute.hit_preview h) = true) hits.
Proof.
  intros Hpost _ _. revert Hpost. unfold AskRoute.POST. cbv zeta.
  destruct (negb (truthy (trim (default [] question)))); [discriminate|].
  destruct (_ || _); [discriminate|].
  destruct (AskRoute.answer _ _ _) as [[[a0 hits0]|e] c0] eqn:Hans; [|discriminate].
  intros [= <- <- <-]. revert Hans. unfold AskRoute.answer.
  destruct (Route.getIndex _ _ cache) as [[index|e] c1] eqn:Hget; [|discriminate].
  destruct (ij_chunks index) as [chunks|]; [|discriminate].
  destruct (AskRoute.client env 0 _ _) as [[|e0 data]|code]; try discriminate.
  destruct (ij_vectors index) as [vectors|] eqn:Hv; [|discriminate].
  unfold mbind, result_bind.
  destruct (AskRoute.passagesOf chunks _) as [passages|e] eqn:Hps; [|discriminate].
  destruct (AskRoute.chat env _ _) as [content|e]; [|discriminate].
  intros [= <- <- <-].
  assert (Hcache : c1 = Some index).
  { revert Hget. unfold Route.getIndex. destruct cache as [c|].
    - now intros [= -> <-].
    - destruct (AskRoute.files env _) as [| |[parsed|]]; try discriminate.
      destruct (_ || _); [discriminate | now intros [= -> <-]]. }
  apply passagesOf_ok in Hps.
  destruct (sortDesc_top snd (imap (fun i v => (i, AskRoute.dot (AskRoute.normalize e0) v))
                                vectors)
              (Nat.min AskRoute.TOP_K (length vectors))) as (Hlen & Hdesc & _ & _).
  fold (AskRoute.scored vectors (AskRoute.normalize e0)) in Hlen, Hdesc.
  rewrite length_imap in Hlen.
  split; [|split; [|split; [|split; [reflexivity|split]]]].
  - destruct (truthy (trim (default [] content))) eqn:Ht; [|discriminate].
    now apply truthy_nonempty.
  - destruct (truthy (trim (default [] content))); [apply trim_idem|].
    vm_compute. reflexivity.
  - exists index, vectors. split; [exact Hcache|]. split; [exact Hv|].
    rewrite length_map, <- (Forall2_length _ _ _ Hps), Hlen. lia.
  - apply (descending_map AskRoute.score AskRoute.hit_score).
    + apply List.Forall_forall. reflexivity.
    + apply (Forall2_descending snd AskRoute.score
               (AskRoute.scored vectors (AskRoute.normalize e0)) passages); [|exact Hdesc].
      eapply Forall2_impl; [exact Hps|]. now intros si p [Hs _].
  - apply Forall_map. apply List.Forall_forall. intros p _. simpl.
    split; [apply preview_length; lia | apply preview_singleSpaced].
Qed.

Lemma POST_answer_shape_witness :
  exists a hits cache',
    AskRoute.POST (askEnv soundIndex [3; 4]%R (js " ok ")) (Some (js "what?")) None
    = (AskRoute.Answered a hits, cache')
    /\ a <> [] /\ trim a = a
    /\ descending AskRoute.hit_score hits
    /\ Forall (fun h => length (AskRoute.hit_preview h) <= 280
                        /\ singleSpaced (AskRoute.hit_preview h) = true) hits.
Proof.
  destruct (AskRoute.POST (askEnv soundIndex [3; 4]%R (js " ok ")) (Some (js "what?")) None)
    as [[| |e|a hits] cache'] eqn:Hp; try (exfalso; vm_compute in Hp; discriminate Hp).
  exists a, hits, cache'. split; [reflexivity|].
  destruct (POST_answer_shape _ _ _ _ _ _ 2 Hp) as (Hne & Htrim & _ & _ & Hd & Hall).
  - intros n m inputs data [= <-]. apply Forall_map, Forall_true. reflexivity.
  - vm_compute in Hp. injection Hp as _ _ <-. intros index vectors [= <-] [= <-].
    repeat constructor.
  - repeat split; assumption.
Defined.

(** X25.  The cache of [getIndex] at work in the handler: when a request has
    been refused because the index file has no vectors, the rejected object
    is in the cache, and the same request sent again is not refused: the
    question is embedded, nothing is retrieved, the chat is asked with the
    context [(leeg)] and the handler answers without a hit. *)
Theorem POST_answers_from_rejected_index (env : AskRoute.Env) (q : jsstr)
    (parsed : IndexJson) (chunks : list RagChunk) (e : list R) (more : list (list R))
    (content : option jsstr) :
  AskRoute.POST env (Some q) None
  = (AskRoute.ServerError IndexInvalidOrEmpty, Some parsed) ->
  ij_chunks parsed = Some chunks -> ij_vectors parsed = Some [] ->
  AskRoute.client env 0 AskRoute.EMBED_MODEL [trim q] = Embeddings (e :: more) ->
  AskRoute.chat env (AskRoute.SYSTEM env)
    (js "VRAAG:" ++ NL ++ trim q ++ NL ++ NL ++ js "CONTEXT:" ++ NL ++ js "(leeg)" ++ NL)
  = Ok content ->
  exists a,
    AskRoute.POST env (Some q) (Some parsed) = (AskRoute.Answered a [], Some parsed)
    /\ a <> [].
Proof.
  unfold AskRoute.POST. cbv zeta. change (default [] (Some q)) with q.
  destruct (negb (truthy (trim q))); [discriminate|].
  destruct (_ || _); [discriminate|].
  intros _ Hc Hv Hclient Hchat.
  unfold AskRoute.answer. cbn [Route.getIndex]. rewrite Hc, Hclient, Hv.
  unfold AskRoute.scored. cbn [length imap Nat.min take sortDesc fold_left AskRoute.passagesOf].
  rewrite Nat.min_0_r. cbn [take]. cbn [AskRoute.passagesOf mbind result_bind].
  unfold mbind, result_bind.
  change (AskRoute.userMessage (trim q) (AskRoute.contextOf []))
    with (js "VRAAG:" ++ NL ++ trim q ++ NL ++ NL ++ js "CONTEXT:" ++ NL ++ js "(leeg)" ++ NL).
  rewrite Hchat. cbn [map]. eexists. split; [reflexivity|].
  destruct (truthy (trim (default [] content))) eqn:Ht; [now apply truthy_nonempty|].
  discriminate.
Qed.

Lemma POST_answers_from_rejected_index_witness :
  AskRoute.POST (askEnv vectorlessIndex [3; 4]%R (js "ok")) (Some (js "what?")) None
  = (AskRoute.ServerError IndexInvalidOrEmpty, Some vectorlessIndex)
  /\ exists a,
       AskRoute.POST (askEnv vectorlessIndex [3; 4]%R (js "ok")) (Some (js "what?"))
         (Some vectorlessIndex)
       = (AskRoute.Answered a [], Some vectorlessIndex)
       /\ a <> [].
Proof.
  assert (Hfirst : AskRoute.POST (askEnv vectorlessIndex [3; 4]%R (js "ok"))
                     (Some (js "what?")) None
                   = (AskRoute.ServerError IndexInvalidOrEmpty, Some vectorlessIndex))
    by (vm_compute; reflexivity).
  split; [exact Hfirst|].
  apply (POST_answers_from_rejected_index (askEnv vectorlessIndex [3; 4]%R (js "ok"))
           (js "what?") vectorlessIndex [helloChunk] [3; 4]%R [] (Some (js "ok")) Hfirst);
    reflexivity.
Defined.

(** ** The ranking of askIndexWeb *)





(** ** The items of buildIndexWeb *)

Section WebItems.
Context `{JsHost}.
Variables (env : Indexer.Env) (g : jsstr -> list R).
Hypothesis Hbatch : 0 < Indexer.BATCH env.
Hypothesis Hclient : forall n inputs,
  Indexer.client env n (Indexer.EMBED_MODEL env) inputs = Embeddings (map g inputs).

Lemma embedSlices_batches (f : jsstr) (fuel : nat) :
  forall (l : list jsstr) (n i : nat) (acc : list Indexer.IndexItem),
    length l <= fuel ->
    exists n',
      Indexer.embedSlices env f (basename f) n i
        (BuildScript.batchesFuel fuel (Indexer.BATCH env) l) acc
      = Ok (acc ++ imap (fun k c => webItem f g (i + k) c) l, n').
Proof.
  induction fuel as [|fuel IH]; intros l n i acc Hl.
  - destruct l; [|simpl in Hl; lia]. cbn [BuildScript.batchesFuel Indexer.embedSlices imap].
    rewrite app_nil_r. eauto.
  - cbn [BuildScript.batchesFuel]. destruct l as [|x l'] eqn:El.
    { cbn [Indexer.embedSlices imap]. rewrite app_nil_r. eauto. }
    rewrite <- El in *. cbn [Indexer.embedSlices]. rewrite Hclient.
    destruct (IH (drop (Indexer.BATCH env) l) (S n) (i + Indexer.BATCH env)
                (acc ++ imap (fun j d =>
                   {| Indexer.id := sha1 (f ++ js "#" ++ decimal (i + j));
                      Indexer.source_path := f; Indexer.source_name := basename f;
                      Indexer.chunk_index := i + j;
                      Indexer.text := take (Indexer.BATCH env) l !! j;
                      Indexer.embedding := d |})
                   (map g (take (Indexer.BATCH env) l)))) as [n' Hn'].
    { rewrite length_drop. rewrite El in *. simpl in *. lia. }
    exists n'. rewrite Hn'. f_equal. f_equal. rewrite <- app_assoc. f_equal.
    rewrite <- (take_drop (Indexer.BATCH env) l) at 3. rewrite imap_app. f_equal.
    + apply list_eq. intros j. rewrite !list_lookup_imap, list_lookup_fmap.
      destruct (take (Indexer.BATCH env) l !! j) as [c|] eqn:Hc; [|reflexivity].
      reflexivity.
    + destruct (Nat.le_gt_cases (Indexer.BATCH env) (length l)) as [Hge|Hlt].
      * rewrite length_take, Nat.min_l by exact Hge.
        apply imap_ext. intros k c _. unfold webItem. now rewrite Nat.add_assoc.
      * rewrite drop_ge by lia. reflexivity.
Qed.

Lemma smartChunk_empty (target overlap : nat) : ChunkLib.smartChunk [] target overlap = [].
Proof. reflexivity. Qed.

Lemma embedFiles_items (files : list jsstr) :
  forall (n : nat) (acc : list Indexer.IndexItem),
    Indexer.embedFiles env files n acc
    = Ok (acc ++ flat_map (fun f =>
            imap (webItem f g)
              (ChunkLib.smartChunk (trim (Indexer.readTextGeneric env f))
                 (Indexer.TARGET env) (Indexer.OVERLAP env))) files).
Proof.
  induction files as [|f files IH]; intros n acc; cbn [Indexer.embedFiles flat_map].
  - now rewrite app_nil_r.
  - destruct (truthy (trim (Indexer.readTextGeneric env f))) eqn:Ht; cbn [negb].
    + unfold BuildScript.batches.
      destruct (embedSlices_batches f _ (ChunkLib.smartChunk
                  (trim (Indexer.readTextGeneric env f)) (Indexer.TARGET env)
                  (Indexer.OVERLAP env)) n 0 acc (le_n _)) as [n' ->].
      rewrite IH, <- app_assoc. reflexivity.
    + destruct (trim (Indexer.readTextGeneric env f)); [|discriminate].
      rewrite smartChunk_empty. cbn [imap app]. apply IH.
Qed.

(** X27.  When the service answers every request with one vector per input
    ([g] of the input), the batch size is not 0, there are files and a key,
    and the files, read as [readTextGeneric] gives them, make up at least
    one chunk, [buildIndexWeb] stores, file by file and chunk by chunk in the
    order of [smartChunk], one item for every chunk of the trimmed text: its
    [chunk_index] is the position of the chunk in its file, whatever the
    batch size, its id the digest of [<path>#<chunk_index>], its text the
    chunk and its embedding the vector of the chunk as the service gave it;
    [dim] is the length of the first embedding. *)
Theorem buildIndexWeb_items (docsDir : jsstr) (first : Indexer.IndexItem)
    (rest : list Indexer.IndexItem) :
  0 < length (Indexer.listFiles env docsDir) ->
  truthy (default [] (Indexer.OPENAI_API_KEY env)) = true ->
  flat_map (fun f =>
    imap (webItem f g)
      (ChunkLib.smartChunk (trim (Indexer.readTextGeneric env f))
         (Indexer.TARGET env) (Indexer.OVERLAP env)))
    (Indexer.listFiles env docsDir) = first :: rest ->
  Indexer.buildIndex env docsDir
  = Ok {| Indexer.dim := length (Indexer.embedding first);
          Indexer.items := first :: rest;
          Indexer.created_at := Indexer.now env;
          Indexer.docs_dir := docsDir |}.
Proof.
  intros Hfiles Hkey Hstored. unfold Indexer.buildIndex, mbind, result_bind.
  destruct (Nat.eqb_spec (length (Indexer.listFiles env docsDir)) 0) as [Hz|_]; [lia|].
  rewrite Hkey. cbn [negb].
  rewrite embedFiles_items. cbn [app]. rewrite Hstored. reflexivity.
Qed.
End WebItems.


Lemma webItem_summary `{JsHost} (f : jsstr) (g : jsstr -> list R) (l : list jsstr) :
  map (fun it => (Indexer.source_name it, Indexer.chunk_index it,
                  length (default [] (Indexer.text it))))
    (imap (webItem f g) l)
  = imap (fun k c => (basename f, k, length c)) l.
Proof.
  apply list_eq. intros k. rewrite list_lookup_fmap, !list_lookup_imap.
  now destruct (l !! k).
Qed.

Lemma webItems_embeddings `{JsHost} (g : jsstr -> list R) (chunksOf : jsstr -> list jsstr)
    (files : list jsstr) :
  Forall (fun it => Some (Indexer.embedding it) = g <$> Indexer.text it)
    (flat_map (fun f => imap (webItem f g) (chunksOf f)) files).
Proof.
  apply List.Forall_forall. intros it Hit.
  apply (proj1 (in_flat_map _ _ _)) in Hit as (f & _ & Hit).
  apply list_elem_of_In, list_elem_of_lookup in Hit as [k Hk].
  apply list_lookup_imap_Some in Hk as (c & _ & ->). reflexivity.
Qed.

Lemma webLibraryEnv_items :
  map (fun it => (Indexer.source_name it, Indexer.chunk_index it,
                  length (default [] (Indexer.text it))))
    (flat_map (fun f =>
       imap (webItem (H := exampleHost) f byLength)
         (ChunkLib.smartChunk (H := exampleHost)
            (trim (Indexer.readTextGeneric webLibraryEnv f))
            (Indexer.TARGET webLibraryEnv) (Indexer.OVERLAP webLibraryEnv)))
       (Indexer.listFiles webLibraryEnv (js "/docs")))
  = [(js "a.md", 0, 267); (js "a.md", 1, 174); (js "a.md", 2, 174);
     (js "a.md", 3, 174); (js "a.md", 4, 174); (js "a.md", 5, 185);
     (js "b.md", 0, 267); (js "b.md", 1, 174); (js "b.md", 2, 174);
     (js "b.md", 3, 174); (js "b.md", 4, 174); (js "b.md", 5, 185)].
Proof.
  change (Indexer.listFiles webLibraryEnv (js "/docs")) with [js "/docs/a.md"; js "/docs/b.md"].
  cbn [flat_map]. rewrite app_nil_r, map_app, !webItem_summary.
  vm_compute. reflexivity.
Qed.

(** The build over two documents, in batches of two chunks. *)
Lemma buildIndexWeb_items_witness :
  exists first rest,
    Indexer.buildIndex (H := exampleHost) webLibraryEnv (js "/docs")
    = Ok {| Indexer.dim := length (Indexer.embedding first);
            Indexer.items := first :: rest;
            Indexer.created_at := Indexer.now webLibraryEnv;
            Indexer.docs_dir := js "/docs" |}
    /\ map (fun it => (Indexer.source_name it, Indexer.chunk_index it,
                       length (default [] (Indexer.text it)))) (first :: rest)
       = [(js "a.md", 0, 267); (js "a.md", 1, 174); (js "a.md", 2, 174);
          (js "a.md", 3, 174); (js "a.md", 4, 174); (js "a.md", 5, 185);
          (js "b.md", 0, 267); (js "b.md", 1, 174); (js "b.md", 2, 174);
          (js "b.md", 3, 174); (js "b.md", 4, 174); (js "b.md", 5, 185)]
    /\ Forall (fun it => Some (Indexer.embedding it) = byLength <$> Indexer.text it)
         (first :: rest).
Proof.
  pose proof webLibraryEnv_items as Hitems.
  pose proof (webItems_embeddings (H := exampleHost) byLength
                (fun f => ChunkLib.smartChunk (H := exampleHost)
                            (trim (Indexer.readTextGeneric webLibraryEnv f))
                            (Indexer.TARGET webLibraryEnv) (Indexer.OVERLAP webLibraryEnv))
                (Indexer.listFiles webLibraryEnv (js "/docs"))) as HF.
  remember (flat_map (fun f =>
              imap (webItem (H := exampleHost) f byLength)
                (ChunkLib.smartChunk (H := exampleHost)
                   (trim (Indexer.readTextGeneric webLibraryEnv f))
                   (Indexer.TARGET webLibraryEnv) (Indexer.OVERLAP webLibraryEnv)))
              (Indexer.listFiles webLibraryEnv (js "/docs"))) as stored eqn:Hstored.
  destruct stored as [|first rest]; [discriminate Hitems|].
  exists first, rest. split; [|split; [exact Hitems | exact HF]].
  apply (buildIndexWeb_items (H := exampleHost) webLibraryEnv byLength
           ltac:(vm_compute; lia) (fun n inputs => eq_refl) (js "/docs") first rest).
  - vm_compute. lia.
  - reflexivity.
  - symmetry. exact Hstored.
Defined.

(** ** The texts of smartChunk *)

Section PathIndependence.
Context `{JsHost}.
Variables (m p : jsstr) (targetChars overlapChars : nat).

Lemma lib_emit_texts (sm sp : ChunkLib.Bundle) :
  map text (ChunkLib.chunks sm) = map text (ChunkLib.chunks sp) ->
  ChunkLib.acc sm = ChunkLib.acc sp -> ChunkLib.accLen sm = ChunkLib.accLen sp ->
  map text (ChunkLib.chunks (ChunkLib.emit m sm))
  = map text (ChunkLib.chunks (ChunkLib.emit p sp))
  /\ ChunkLib.acc (ChunkLib.emit m sm) = ChunkLib.acc (ChunkLib.emit p sp)
  /\ ChunkLib.accLen (ChunkLib.emit m sm) = ChunkLib.accLen (ChunkLib.emit p sp).
Proof.
  intros Hc Ha Hl. unfold ChunkLib.emit. rewrite Ha.
  destruct (truthy _); [|auto].
  cbn [ChunkLib.chunks ChunkLib.acc ChunkLib.accLen].
  rewrite !map_app, Hc. cbn [map text]. auto.
Qed.

Lemma lib_bundleBlock_texts (sm sp : ChunkLib.Bundle) (b : ChunkLib.Block) :
  map text (ChunkLib.chunks sm) = map text (ChunkLib.chunks sp)
  /\ ChunkLib.acc sm = ChunkLib.acc sp /\ ChunkLib.accLen sm = ChunkLib.accLen sp ->
  map text (ChunkLib.chunks (ChunkLib.bundleBlock m targetChars overlapChars sm b))
  = map text (ChunkLib.chunks (ChunkLib.bundleBlock p targetChars overlapChars sp b))
  /\ ChunkLib.acc (ChunkLib.bundleBlock m targetChars overlapChars sm b)
     = ChunkLib.acc (ChunkLib.bundleBlock p targetChars overlapChars sp b)
  /\ ChunkLib.accLen (ChunkLib.bundleBlock m targetChars overlapChars sm b)
     = ChunkLib.accLen (ChunkLib.bundleBlock p targetChars overlapChars sp b).
Proof.
  intros (Hc & Ha & Hl). unfold ChunkLib.bundleBlock. cbv zeta. rewrite Ha, Hl.
  destruct (_ && _).
  - destruct (lib_emit_texts sm sp Hc Ha Hl) as (Hc' & Ha' & Hl').
    destruct (0 <? overlapChars); cbn [ChunkLib.chunks ChunkLib.acc ChunkLib.accLen];
      rewrite ?Ha'; auto.
  - destruct (_ =? 0); cbn [ChunkLib.chunks ChunkLib.acc ChunkLib.accLen];
      rewrite ?Ha, ?Hl; auto.
Qed.

Lemma lib_chunks_texts (raw : jsstr) :
  map text (ChunkLib.chunkStructured m targetChars overlapChars raw)
  = map text (ChunkLib.chunkStructured p targetChars overlapChars raw).
Proof.
  unfold ChunkLib.chunkStructured. cbv zeta.
  set (start := {| ChunkLib.chunks := []; ChunkLib.next_order := 0;
                   ChunkLib.acc := []; ChunkLib.accLen := 0;
                   ChunkLib.currentSection := _ |}).
  assert (Hfold : forall bs sm sp,
             map text (ChunkLib.chunks sm) = map text (ChunkLib.chunks sp)
             /\ ChunkLib.acc sm = ChunkLib.acc sp /\ ChunkLib.accLen sm = ChunkLib.accLen sp ->
             let sm' := fold_left (ChunkLib.bundleBlock m targetChars overlapChars) bs sm in
             let sp' := fold_left (ChunkLib.bundleBlock p targetChars overlapChars) bs sp in
             map text (ChunkLib.chunks sm') = map text (ChunkLib.chunks sp')
             /\ ChunkLib.acc sm' = ChunkLib.acc sp'
             /\ ChunkLib.accLen sm' = ChunkLib.accLen sp').
  { induction bs as [|b bs IH]; intros sm sp Hs; [exact Hs|].
    cbn [fold_left]. apply IH. now apply lib_bundleBlock_texts. }
  destruct (Hfold (ChunkLib.toBlocks raw) start start) as (Hc & Ha & Hl); [auto|].
  cbv zeta in Hc, Ha, Hl. rewrite Ha.
  destruct (_ =? 0); [exact Hc|].
  now apply lib_emit_texts.
Qed.
End PathIndependence.

(** X28.  The texts of the chunks of chunk.ts do not depend on the source
    path: [smartChunk], which chunks under the path [__memory__], returns
    the texts that [chunkStructured] returns for any path. *)
Theorem smartChunk_texts `{JsHost} (sourcePath raw : jsstr) (targetChars overlapChars : nat) :
  ChunkLib.smartChunk raw targetChars overlapChars
  = map text (ChunkLib.chunkStructured sourcePath targetChars overlapChars raw).
Proof. unfold ChunkLib.smartChunk. apply lib_chunks_texts. Qed.
